(** * Minesweeper knowledge-based agent: model and verified properties

    A shallow embedding of [minesweeper.py]: the board ([Minesweeper]),
    the logical sentences ([Sentence]) and the inference engine
    ([MinesweeperAI]).  Python [int]s are [Z], cells are pairs of [Z],
    Python sets of cells are [gset cell], the knowledge base is a [list]
    of sentences (order and duplicates matter), and the recursion of
    [update_knowledge] is bounded by an explicit recursion depth. *)

From Stdlib Require Import ZArith List Lia Ascii.
From stdpp Require Import base numbers option list sets fin_sets gmap sorting.

Local Open Scope Z_scope.
Set Warnings "-clear-no-such-hyp".

(** A cell is a pair [(i, j)] of Python integers. *)
Abbreviation cell := (Z * Z)%type.

(** Python's [range(a, b)]: [a, a+1, ..., b-1], empty when [b <= a]. *)
Definition range (a b : Z) : list Z := seqZ a (b - a).

(** ** The board *)
Module Minesweeper.

Record t := mk {
  height : Z;
  width : Z;
  board : list (list bool)
}.

(** [self.board[i][j]].  Every read in [nearby_mines] is guarded by the
    bounds test, so the indices are non-negative there; a read outside
    the nested list (an [IndexError] in Python) is [false] here. *)
Definition board_at (b : t) (i j : Z) : bool :=
  match board b !! Z.to_nat i with
  | Some row => match row !! Z.to_nat j with Some x => x | None => false end
  | None => false
  end.

Definition in_bounds (b : t) (i j : Z) : bool :=
  bool_decide (0 ≤ i < height b) && bool_decide (0 ≤ j < width b).

(** Body of the double loop of [nearby_mines]. *)
Definition nearby_step (b : t) (c : cell) (count : Z) (ij : cell) : Z :=
  if bool_decide (ij = c) then count
  else if in_bounds b ij.1 ij.2 then
         if board_at b ij.1 ij.2 then count + 1 else count
       else count.

Definition nearby_mines (b : t) (c : cell) : Z :=
  foldl (λ count i,
           foldl (λ count j, nearby_step b c count (i, j))
                 count (range (c.2 - 1) (c.2 + 2)))
        0 (range (c.1 - 1) (c.1 + 2)).

(** *** The rest of the class *)

(** Python's [l[i]]: a negative index counts from the end, and [None]
    stands for [IndexError]. *)
Definition index {A} (l : list A) (i : Z) : option A :=
  if bool_decide (0 ≤ i) then l !! Z.to_nat i
  else if bool_decide (- Z.of_nat (length l) ≤ i)
       then l !! Z.to_nat (Z.of_nat (length l) + i)
       else None.

(** [is_mine]: [self.board[i][j]], with no bounds test. *)
Definition is_mine (b : t) (c : cell) : option bool :=
  match index (board b) c.1 with
  | Some row => index row c.2
  | None => None
  end.

(** The whole object: the field, the set [mines] and the set
    [mines_found]. *)
Record game := Game {
  field : t;
  mines : gset cell;
  mines_found : gset cell
}.

(** [won]. *)
Definition won (g : game) : bool := bool_decide (mines_found g = mines g).

(** The empty field built by the two loops of [__init__]. *)
Definition empty_board (height width : Z) : list (list bool) :=
  (λ _, (λ _, false) <$> range 0 width) <$> range 0 height.

(** [self.board[i][j] = True], for indices that are not negative. *)
Definition set_mine (rows : list (list bool)) (i j : Z) : list (list bool) :=
  alter (λ row, <[Z.to_nat j := true]> row) (Z.to_nat i) rows.

(** How a run of [__init__] ends: the object is built, [random.randrange]
    raises [ValueError] (its argument is not positive), an index of
    [self.board[i][j]] is out of range, or the loop is still running when
    the given draws are used up. *)
Inductive outcome : Type :=
  | Built (g : game)
  | ValueError
  | IndexError
  | Running.

(** The [while] loop of [__init__].  Each element of [draws] gives the
    results of the two calls of [random.randrange], reduced into
    [0, height) and [0, width). *)
Fixpoint place_mines (height width wanted : Z) (draws : list (Z * Z))
    (found : gset cell) (rows : list (list bool)) : outcome :=
  if bool_decide (Z.of_nat (size found) = wanted)
  then Built (Game (mk height width rows) found ∅)
  else
    match draws with
    | [] => Running
    | d :: draws' =>
        if bool_decide (height ≤ 0) || bool_decide (width ≤ 0) then ValueError
        else
          let i := d.1 `mod` height in
          let j := d.2 `mod` width in
          match is_mine (mk height width rows) (i, j) with
          | None => IndexError
          | Some false =>
              place_mines height width wanted draws'
                          ({[(i, j)]} ∪ found) (set_mine rows i j)
          | Some true => place_mines height width wanted draws' found rows
          end
    end.

(** [__init__]. *)
Definition init (height width wanted : Z) (draws : list (Z * Z)) : outcome :=
  place_mines height width wanted draws ∅ (empty_board height width).

(** ["--" * self.width + "-"]: a string times [n] is [n] copies of it,
    none when [n] is not positive.  A Python string is the list of its
    characters. *)
Definition rule (b : t) : list ascii :=
  concat (replicate (Z.to_nat (width b)) ["-"; "-"]%char) ++ ["-"%char].

(** The inner loop of [print] and the [print("|")] that ends the line:
    the text of row [i].  [None] is an [IndexError]. *)
Definition print_row (b : t) (i : Z) : option (list ascii) :=
  match
    foldl (λ line j,
             match line, is_mine b (i, j) with
             | Some text, Some true => Some (text ++ ["|"; "X"]%char)
             | Some text, Some false => Some (text ++ ["|"; " "]%char)
             | _, _ => None
             end)
          (Some []) (range 0 (width b))
  with
  | Some text => Some (text ++ ["|"%char])
  | None => None
  end.

(** [print]: the lines written to the standard output. *)
Definition print (b : t) : option (list (list ascii)) :=
  match
    foldl (λ out i,
             match out, print_row b i with
             | Some lines, Some row => Some (lines ++ [rule b; row])
             | _, _ => None
             end)
          (Some []) (range 0 (height b))
  with
  | Some lines => Some (lines ++ [rule b])
  | None => None
  end.

End Minesweeper.

(** ** Sentences *)
Module Sentence.

Record t := mk {
  cells : gset cell;
  count : Z
}.

(** [__eq__]: structural equality on cell-set and count. *)
Definition eqb (s o : t) : bool :=
  bool_decide (cells s = cells o) && bool_decide (count s = count o).

Definition known_mines (s : t) : option (gset cell) :=
  if bool_decide (Z.of_nat (size (cells s)) = count s)
     && negb (bool_decide (count s = 0))
  then Some (cells s) else None.

Definition known_safes (s : t) : option (gset cell) :=
  if bool_decide (count s = 0)
     && negb (bool_decide (Z.of_nat (size (cells s)) = 0))
  then Some (cells s) else None.

Definition mark_mine (c : cell) (s : t) : t :=
  if bool_decide (c ∈ cells s)
  then mk (cells s ∖ {[c]}) (count s - 1)
  else s.

Definition mark_safe (c : cell) (s : t) : t :=
  if bool_decide (c ∈ cells s)
  then mk (cells s ∖ {[c]}) (count s)
  else s.

End Sentence.

(** ** The agent *)
Module MinesweeperAI.

Record t := mk {
  height : Z;
  width : Z;
  moves_made : gset cell;
  mines : gset cell;
  safes : gset cell;
  knowledge : list Sentence.t
}.

(** [__init__]. *)
Definition init (h w : Z) : t := mk h w ∅ ∅ ∅ [].

Definition set_knowledge (k : list Sentence.t) (ai : t) : t :=
  mk (height ai) (width ai) (moves_made ai) (mines ai) (safes ai) k.

Definition mark_mine (c : cell) (ai : t) : t :=
  mk (height ai) (width ai) (moves_made ai)
     ({[c]} ∪ mines ai) (safes ai)
     (Sentence.mark_mine c <$> knowledge ai).

Definition mark_safe (c : cell) (ai : t) : t :=
  mk (height ai) (width ai) (moves_made ai)
     (mines ai) ({[c]} ∪ safes ai)
     (Sentence.mark_safe c <$> knowledge ai).

(** *** [add_knowledge], up to the call of [update_knowledge] *)

(** Body of the double loop that builds [neighbor_cells] and adjusts
    [count]. *)
Definition neighbor_step (ai : t) (c : cell)
    (acc : gset cell * Z) (ij : cell) : gset cell * Z :=
  if bool_decide (ij = c) then acc
  else if bool_decide (ij ∈ mines ai) then (acc.1, acc.2 - 1)
  else if bool_decide (ij ∉ safes ai) then ({[ij]} ∪ acc.1, acc.2)
  else acc.

Definition neighbor_loop (ai : t) (c : cell) (count : Z) : gset cell * Z :=
  foldl (λ acc i,
           foldl (λ acc j, neighbor_step ai c acc (i, j))
                 acc
                 (range (Z.max 0 (c.2 - 1)) (Z.min (height ai) (c.2 + 2))))
        (∅, count)
        (range (Z.max 0 (c.1 - 1)) (Z.min (width ai) (c.1 + 2))).

(** Steps 1 to 3 of [add_knowledge]: record the move, mark the cell
    safe, append the new sentence. *)
Definition add_sentence (c : cell) (count : Z) (ai : t) : t :=
  let ai1 := mk (height ai) (width ai) ({[c]} ∪ moves_made ai)
                (mines ai) (safes ai) (knowledge ai) in
  let ai2 := mark_safe c ai1 in
  let nb := neighbor_loop ai2 c count in
  set_knowledge (knowledge ai2 ++ [Sentence.mk nb.1 nb.2]) ai2.

(** *** [update_knowledge] *)

(** [sentence.mark_safe(cell)] on the sentence object the first loop is
    visiting, which is the [i]-th element of the shared list. *)
Definition sentence_mark_safe (i : nat) (c : cell) (ai : t) : t :=
  set_knowledge (alter (Sentence.mark_safe c) i (knowledge ai)) ai.

Definition sentence_mark_mine (i : nat) (c : cell) (ai : t) : t :=
  set_knowledge (alter (Sentence.mark_mine c) i (knowledge ai)) ai.

(** The two [if] blocks of the first loop, for the sentence at index
    [i].  The loop over the copied set visits its elements in the order
    of [elements]. *)
Definition resolve_safes (i : nat) (ai : t) : t * bool :=
  match knowledge ai !! i with
  | Some sentence =>
      match Sentence.known_safes sentence with
      | Some known_safes =>
          (foldl (λ ai c, sentence_mark_safe i c (mark_safe c ai))
                 ai (elements known_safes), true)
      | None => (ai, false)
      end
  | None => (ai, false)
  end.

Definition resolve_mines (i : nat) (ai : t) : t * bool :=
  match knowledge ai !! i with
  | Some sentence =>
      match Sentence.known_mines sentence with
      | Some known_mines =>
          (foldl (λ ai c, sentence_mark_mine i c (mark_mine c ai))
                 ai (elements known_mines), true)
      | None => (ai, false)
      end
  | None => (ai, false)
  end.

Definition visit (acc : t * bool) (i : nat) : t * bool :=
  let r1 := resolve_safes i acc.1 in
  let r2 := resolve_mines i r1.1 in
  (r2.1, acc.2 || r1.2 || r2.2).

(** First loop: [for sentence in self.knowledge]. *)
Definition mark_known (ai : t) : t * bool :=
  foldl visit (ai, false) (seq 0 (length (knowledge ai))).

(** [list.remove(x)]: drops the first element equal to [x].  Python
    raises [ValueError] when there is none; the only call removes a
    sentence equal to one of the list, and the list is returned as it is
    otherwise. *)
Fixpoint list_remove (x : Sentence.t) (l : list Sentence.t) : list Sentence.t :=
  match l with
  | [] => []
  | y :: l' => if Sentence.eqb y x then l' else y :: list_remove x l'
  end.

(** Second loop: the first sentence of the copy with no cells is
    removed from the knowledge base, then the loop breaks. *)
Definition remove_empty (ai : t) : t :=
  match List.find (λ s, bool_decide (size (Sentence.cells s) = 0%nat))
                  (knowledge ai) with
  | Some sentence => set_knowledge (list_remove sentence (knowledge ai)) ai
  | None => ai
  end.

(** Body of the third (double) loop; [acc] is [self.knowledge] and the
    flag [knowledge_changed]. *)
Definition infer_pair (acc : list Sentence.t * bool)
    (sentence1 sentence2 : Sentence.t) : list Sentence.t * bool :=
  if negb (Sentence.eqb sentence1 sentence2) then
    if bool_decide (Sentence.cells sentence1 ⊂ Sentence.cells sentence2) then
      let new_sentence :=
        Sentence.mk (Sentence.cells sentence2 ∖ Sentence.cells sentence1)
                    (Sentence.count sentence2 - Sentence.count sentence1) in
      if negb (existsb (Sentence.eqb new_sentence) acc.1)
      then (acc.1 ++ [new_sentence], true)
      else acc
    else acc
  else acc.

Definition infer_subsets (k : list Sentence.t) (changed : bool)
    : list Sentence.t * bool :=
  foldl (λ acc sentence1,
           foldl (λ acc sentence2, infer_pair acc sentence1 sentence2) acc k)
        (k, changed) k.

(** One execution of the body of [update_knowledge], up to the test of
    [knowledge_changed]. *)
Definition pass (ai : t) : t * bool :=
  let r := mark_known ai in
  let ai2 := remove_empty r.1 in
  let k := infer_subsets (knowledge ai2) r.2 in
  (set_knowledge k.1 ai2, k.2).

(** [update_knowledge] calls itself while [knowledge_changed]; [depth]
    bounds the recursion depth and [None] means the bound was hit. *)
Fixpoint update_knowledge (depth : nat) (ai : t) : option t :=
  match depth with
  | O => None
  | S d =>
      let r := pass ai in
      if r.2 then update_knowledge d r.1 else Some r.1
  end.

Definition add_knowledge (depth : nat) (c : cell) (count : Z) (ai : t)
    : option t :=
  update_knowledge depth (add_sentence c count ai).

(** *** Moves *)

(** The cells in the order of [for i in range(self.width): for j in
    range(self.height)]. *)
Definition scan (ai : t) : list cell :=
  i ← range 0 (width ai); j ← range 0 (height ai); [(i, j)].

Definition make_safe_move (ai : t) : option cell :=
  List.find (λ ij, bool_decide (ij ∉ moves_made ai)
                   && bool_decide (ij ∈ safes ai))
            (scan ai).

Definition unknown_cells (ai : t) : list cell :=
  List.filter (λ ij, bool_decide (ij ∉ moves_made ai)
                     && bool_decide (ij ∉ mines ai))
              (scan ai).

(** [random.choice(l)] returns [l[k]] for a drawn index [k < len(l)];
    the draw is the argument [rnd], reduced modulo the length. *)
Definition make_random_move (rnd : nat) (ai : t) : option cell :=
  let l := unknown_cells ai in
  if bool_decide (0 < length l)%nat
  then l !! (rnd `mod` length l)%nat
  else None.

End MinesweeperAI.

(** ** Vocabulary of the properties *)

(** [x] is one of the eight cells around [c]. *)
Definition adjacent (c x : cell) : Prop :=
  x ≠ c ∧ c.1 - 1 ≤ x.1 ≤ c.1 + 1 ∧ c.2 - 1 ≤ x.2 ≤ c.2 + 1.

(** A cell of an [h]-by-[w] board: row index in [0, h), column index in
    [0, w). *)
Definition on_board (h w : Z) (x : cell) : Prop :=
  0 ≤ x.1 < h ∧ 0 ≤ x.2 < w.

Global Instance adjacent_dec c x : Decision (adjacent c x) :=
  ltac:(unfold adjacent; apply _).

Global Instance on_board_dec h w x : Decision (on_board h w x) :=
  ltac:(unfold on_board; apply _).

(** The three-by-three block of cells centred on [c]. *)
Definition block (c : cell) : list cell :=
  i ← range (c.1 - 1) (c.1 + 2); j ← range (c.2 - 1) (c.2 + 2); [(i, j)].

(** The 8-adjacent cells of [c] that lie on the [h]-by-[w] board. *)
Definition neighbors (h w : Z) (c : cell) : gset cell :=
  list_to_set (filter (λ x, adjacent c x ∧ on_board h w x) (block c)).

(** All cells of an [h]-by-[w] board, row by row. *)
Definition board_cells (h w : Z) : list cell :=
  i ← range 0 h; j ← range 0 w; [(i, j)].

(** The mined cells of a board. *)
Definition mine_set (b : Minesweeper.t) : gset cell :=
  list_to_set
    (filter (λ x, Minesweeper.board_at b x.1 x.2 = true)
            (board_cells (Minesweeper.height b) (Minesweeper.width b))).

(** A sentence is true of a mine layout [M] when its count is the number
    of its cells that are mined in [M]. *)
Definition true_of (M : gset cell) (s : Sentence.t) : Prop :=
  Sentence.count s = Z.of_nat (size (Sentence.cells s ∩ M)).

(** The bound [0 <= count <= |cells|]. *)
Definition count_in_range (s : Sentence.t) : Prop :=
  0 ≤ Sentence.count s ≤ Z.of_nat (size (Sentence.cells s)).

(** The sentence subset resolution derives from [s1] and [s2]. *)
Definition derived (s1 s2 : Sentence.t) : Sentence.t :=
  Sentence.mk (Sentence.cells s2 ∖ Sentence.cells s1)
              (Sentence.count s2 - Sentence.count s1).

(** No sentence mentions a cell whose status is already known. *)
Definition no_resolved_cell (ai : MinesweeperAI.t) : Prop :=
  ∀ s, s ∈ MinesweeperAI.knowledge ai →
       Sentence.cells s ## (MinesweeperAI.safes ai ∪ MinesweeperAI.mines ai).

(** The public operations of the agent. *)
Inductive op : Type :=
  | MarkMine (c : cell)
  | MarkSafe (c : cell)
  | AddKnowledge (c : cell) (count : Z)
  | MakeSafeMove
  | MakeRandomMove (rnd : nat).

(** Effect of one operation: the next state and the returned move, if
    any.  [None] when [add_knowledge] exceeds the recursion depth. *)
Definition run_op (depth : nat) (o : op) (ai : MinesweeperAI.t)
    : option (MinesweeperAI.t * option cell) :=
  match o with
  | MarkMine c => Some (MinesweeperAI.mark_mine c ai, None)
  | MarkSafe c => Some (MinesweeperAI.mark_safe c ai, None)
  | AddKnowledge c count =>
      match MinesweeperAI.add_knowledge depth c count ai with
      | Some ai' => Some (ai', None)
      | None => None
      end
  | MakeSafeMove => Some (ai, MinesweeperAI.make_safe_move ai)
  | MakeRandomMove rnd => Some (ai, MinesweeperAI.make_random_move rnd ai)
  end.

(** States reachable from a fresh agent by operations satisfying [P]. *)
Inductive reachable (P : op → Prop) (h w : Z) : MinesweeperAI.t → Prop :=
  | reachable_init : reachable P h w (MinesweeperAI.init h w)
  | reachable_step ai depth o ai' r :
      reachable P h w ai → P o →
      run_op depth o ai = Some (ai', r) →
      reachable P h w ai'.

Definition any_op (o : op) : Prop := True.

(** The operation agrees with the board [b]: only mined cells are marked
    as mines, only unmined cells are marked safe or revealed, and a
    revealed cell comes with the count the board reports. *)
Definition agrees (b : Minesweeper.t) (o : op) : Prop :=
  match o with
  | MarkMine c => c ∈ mine_set b
  | MarkSafe c => c ∉ mine_set b
  | AddKnowledge c count =>
      (c ∉ mine_set b) ∧ count = Minesweeper.nearby_mines b c
  | MakeSafeMove | MakeRandomMove _ => True
  end.

(** Union of the cell-sets of a knowledge base. *)
Definition all_cells (k : list Sentence.t) : gset cell :=
  ⋃ (Sentence.cells <$> k).

(** The distinct non-empty cell-sets of a knowledge base. *)
Definition cell_sets (k : list Sentence.t) : gset (gset cell) :=
  list_to_set (filter (λ X, X ≠ ∅) (Sentence.cells <$> k)).

(** All subsets of the set of the elements of a list. *)
Fixpoint subsets (l : list cell) : list (gset cell) :=
  match l with
  | [] => [∅]
  | x :: l' => subsets l' ++ (({[x]} ∪.) <$> subsets l')
  end.

Definition powerset (X : gset cell) : gset (gset cell) :=
  list_to_set (subsets (elements X)).

(** Effect of marking every cell of [X] on one sentence. *)
Definition remove_safes (X : gset cell) (s : Sentence.t) : Sentence.t :=
  Sentence.mk (Sentence.cells s ∖ X) (Sentence.count s).

Definition remove_mines (X : gset cell) (s : Sentence.t) : Sentence.t :=
  Sentence.mk (Sentence.cells s ∖ X)
              (Sentence.count s - Z.of_nat (size (Sentence.cells s ∩ X))).

(** Effect of marking every cell of [X] on the agent. *)
Definition mark_safes (X : gset cell) (ai : MinesweeperAI.t) : MinesweeperAI.t :=
  MinesweeperAI.mk (MinesweeperAI.height ai) (MinesweeperAI.width ai)
    (MinesweeperAI.moves_made ai) (MinesweeperAI.mines ai)
    (X ∪ MinesweeperAI.safes ai)
    (remove_safes X <$> MinesweeperAI.knowledge ai).

Definition mark_mines (X : gset cell) (ai : MinesweeperAI.t) : MinesweeperAI.t :=
  MinesweeperAI.mk (MinesweeperAI.height ai) (MinesweeperAI.width ai)
    (MinesweeperAI.moves_made ai) (X ∪ MinesweeperAI.mines ai)
    (MinesweeperAI.safes ai)
    (remove_mines X <$> MinesweeperAI.knowledge ai).

(** One conclusion of the first loop of [update_knowledge]: a sentence of
    the knowledge base resolves and all its cells are marked. *)
Inductive resolve_step : relation MinesweeperAI.t :=
  | resolve_step_safes ai s X :
      s ∈ MinesweeperAI.knowledge ai →
      Sentence.known_safes s = Some X →
      resolve_step ai (mark_safes X ai)
  | resolve_step_mines ai s X :
      s ∈ MinesweeperAI.knowledge ai →
      Sentence.known_mines s = Some X →
      resolve_step ai (mark_mines X ai).

(** The nested list of a board has [height] rows of [width] entries. *)
Definition rectangular (b : Minesweeper.t) : Prop :=
  length (Minesweeper.board b) = Z.to_nat (Minesweeper.height b)
  ∧ Forall (λ row, length row = Z.to_nat (Minesweeper.width b))
           (Minesweeper.board b).

(** The cells a list of draws of [random.randrange] points at. *)
Definition drawn (h w : Z) (draws : list (Z * Z)) : gset cell :=
  list_to_set ((λ d, (d.1 `mod` h, d.2 `mod` w)) <$> draws).

(** Rows first, then columns: the order in which the double loops visit
    the cells. *)
Definition scanned_before (x y : cell) : Prop :=
  x.1 < y.1 ∨ (x.1 = y.1 ∧ x.2 ≤ y.2).

(** A knowledge base the first and third loops of [update_knowledge]
    leave as it is: no sentence has a conclusion, and every sentence
    subset resolution derives is there. *)
Definition saturated (k : list Sentence.t) : Prop :=
  (∀ s, s ∈ k → Sentence.known_safes s = None ∧ Sentence.known_mines s = None)
  ∧ (∀ s1 s2, s1 ∈ k → s2 ∈ k →
       Sentence.cells s1 ⊂ Sentence.cells s2 → derived s1 s2 ∈ k).

(** ** Auxiliary notions of the proofs *)

(** The cells of a double loop over two ranges. *)
Definition grid (a1 b1 a2 b2 : Z) : list cell :=
  i ← range a1 b1; j ← range a2 b2; [(i, j)].

(** The first loop performs a sequence of resolutions; its flag tells
    whether there was at least one. *)
Definition resolved (ai : MinesweeperAI.t) (r : MinesweeperAI.t * bool) : Prop :=
  rtc resolve_step ai r.1
  ∧ (r.2 = false → r.1 = ai)
  ∧ (r.2 = true → tc resolve_step ai r.1).

(** The knowledge base after the clean-up loop: at most one sentence was
    dropped, the first one without cells. *)
Definition cleaned (k k' : list Sentence.t) : Prop :=
  ((∀ s, s ∈ k → Sentence.cells s ≠ ∅) ∧ k' = k)
  ∨ (∃ k1 s k2, k = k1 ++ s :: k2 ∧ Sentence.cells s = ∅
       ∧ (∀ y, y ∈ k1 → Sentence.cells y ≠ ∅) ∧ k' = k1 ++ k2).

(** [added] is a list of sentences the third loop may have appended to
    [k]: distinct, absent from [k], each derived from a pair of [k]. *)
Definition inferred (k added : list Sentence.t) : Prop :=
  NoDup added
  ∧ ∀ x, x ∈ added →
      (x ∉ k) ∧ ∃ s1 s2, s1 ∈ k ∧ s2 ∈ k
                 ∧ Sentence.cells s1 ⊂ Sentence.cells s2 ∧ x = derived s1 s2.

Definition infer_result (k : list Sentence.t) (ch : bool)
    (acc : list Sentence.t * bool) : Prop :=
  ∃ added, acc.1 = k ++ added
           ∧ acc.2 = match added with [] => ch | _ => true end
           ∧ inferred k added.

(** [ai'] has the board size of [ai] and all its recorded moves, safe
    cells and mines. *)
Definition grows (ai ai' : MinesweeperAI.t) : Prop :=
  MinesweeperAI.height ai' = MinesweeperAI.height ai
  ∧ MinesweeperAI.width ai' = MinesweeperAI.width ai
  ∧ MinesweeperAI.moves_made ai ⊆ MinesweeperAI.moves_made ai'
  ∧ MinesweeperAI.safes ai ⊆ MinesweeperAI.safes ai'
  ∧ MinesweeperAI.mines ai ⊆ MinesweeperAI.mines ai'.

(** Every sentence of the knowledge base is true of the layout [M]. *)
Definition all_true (M : gset cell) (ai : MinesweeperAI.t) : Prop :=
  ∀ s, s ∈ MinesweeperAI.knowledge ai → true_of M s.

(** Everything the agent records is true of the layout [M]. *)
Definition sound (M : gset cell) (ai : MinesweeperAI.t) : Prop :=
  all_true M ai
  ∧ MinesweeperAI.safes ai ## M
  ∧ MinesweeperAI.mines ai ⊆ M.

(** The state of the loop that places the mines: the board is
    rectangular, it is [True] exactly at the cells found so far, and these
    are cells of the board. *)
Definition placed (h w : Z) (found : gset cell) (rows : list (list bool)) : Prop :=
  rectangular (Minesweeper.mk h w rows)
  ∧ (∀ x, on_board h w x →
          Minesweeper.board_at (Minesweeper.mk h w rows) x.1 x.2 = true ↔ x ∈ found)
  ∧ (∀ x, x ∈ found → on_board h w x).

(** The two characters [print] writes for a cell, and the line it writes
    for row [i] of a rectangular board. *)
Definition cell_text (v : bool) : list ascii :=
  if v then ["|"; "X"]%char else ["|"; " "]%char.

Definition row_text (b : Minesweeper.t) (i : Z) : list ascii :=
  (range 0 (Minesweeper.width b) ≫= λ j, cell_text (Minesweeper.board_at b i j))
    ++ ["|"%char].

(** The cell [x] is recorded as safe, or a sentence that holds it says
    that none of its cells is mined; and the same for mines, with a
    sentence that says that all its cells are mined. *)
Definition pending_safe (x : cell) (ai : MinesweeperAI.t) : Prop :=
  x ∈ MinesweeperAI.safes ai
  ∨ ∃ s, s ∈ MinesweeperAI.knowledge ai ∧ x ∈ Sentence.cells s
         ∧ Sentence.count s = 0.

Definition pending_mine (x : cell) (ai : MinesweeperAI.t) : Prop :=
  x ∈ MinesweeperAI.mines ai
  ∨ ∃ s, s ∈ MinesweeperAI.knowledge ai ∧ x ∈ Sentence.cells s
         ∧ Sentence.count s = Z.of_nat (size (Sentence.cells s)).

(** ** Runs of operations *)

(** A sequence of operations, each with the same recursion bound. *)
Fixpoint run_ops (depth : nat) (ops : list op) (ai : MinesweeperAI.t)
    : option MinesweeperAI.t :=
  match ops with
  | [] => Some ai
  | o :: ops' =>
      match run_op depth o ai with
      | Some r => run_ops depth ops' r.1
      | None => None
      end
  end.

(** The driver reveals the cell [c] of the board [b]. *)
Definition reveal (b : Minesweeper.t) (c : cell) : op :=
  AddKnowledge c (Minesweeper.nearby_mines b c).

(** ** States and boards of the examples *)

(** The agent after [mark_safe((1, 1))], [add_knowledge((0, 0), 4)],
    [add_knowledge((0, 0), 7)] and [mark_safe((1, 2))] on a fresh
    three-by-three agent. *)
Definition two_counts : MinesweeperAI.t :=
  MinesweeperAI.mk 3 3 {[ (0, 0) ]} ∅ {[ (0, 0); (1, 1); (1, 2) ]}
    [Sentence.mk {[ (0, 1); (1, 0) ]} 4; Sentence.mk {[ (0, 1); (1, 0) ]} 7].

(** Knowledge bases that keep growing: two sentences on the same pair of
    cells with counts 4 and 7, and sentences on either cell alone whose
    counts are 2 modulo 3. *)
Definition growing (k : list Sentence.t) : Prop :=
  (∀ s, s ∈ k →
        (Sentence.cells s = {[ (0, 1); (1, 0) ]}
         ∧ (Sentence.count s = 4 ∨ Sentence.count s = 7))
        ∨ ((Sentence.cells s = {[ (0, 1) ]} ∨ Sentence.cells s = {[ (1, 0) ]})
           ∧ ∃ q, Sentence.count s = 3 * q + 2))
  ∧ Sentence.mk {[ (0, 1); (1, 0) ]} 4 ∈ k
  ∧ Sentence.mk {[ (0, 1); (1, 0) ]} 7 ∈ k
  ∧ ∃ n, Sentence.mk {[ (0, 1) ]} n ∈ k.

(** Three by three, mines at [(0, 1)] and [(2, 1)]. *)
Definition board_two_mines : Minesweeper.t :=
  Minesweeper.mk 3 3
    [[false; true; false]; [false; false; false]; [false; true; false]].

(** Two rows, three columns, no mine. *)
Definition board_no_mine : Minesweeper.t :=
  Minesweeper.mk 2 3 [[false; false; false]; [false; false; false]].

(** One row, two columns, a mine at [(0, 1)]. *)
Definition board_one_row : Minesweeper.t :=
  Minesweeper.mk 1 2 [[false; true]].

(** Two rows, three columns, mines at [(0, 1)], [(1, 1)] and [(1, 2)]. *)
Definition board_three_mines : Minesweeper.t :=
  Minesweeper.mk 2 3 [[false; true; false]; [false; true; true]].

Ltac by_computation := apply (bool_decide_unpack _); vm_compute; exact I.

Ltac simpl_agent :=
  cbn [MinesweeperAI.height MinesweeperAI.width MinesweeperAI.moves_made
       MinesweeperAI.mines MinesweeperAI.safes MinesweeperAI.knowledge
       MinesweeperAI.set_knowledge mark_safes mark_mines fst snd] in *.

(** * Properties *)

(** ** Sentences *)

Lemma sentence_eqb_eq s o : Sentence.eqb s o = true ↔ s = o.
Proof.
  unfold Sentence.eqb. rewrite andb_true_iff, !bool_decide_eq_true.
  destruct s, o; simpl. split; [intros [-> ->]; done | by inversion 1].
Qed.

Lemma sentence_eqb_neq s o : Sentence.eqb s o = false ↔ s ≠ o.
Proof.
  rewrite <- sentence_eqb_eq. destruct (Sentence.eqb s o); split; congruence.
Qed.

Lemma existsb_eqb_elem_of x (k : list Sentence.t) :
  existsb (Sentence.eqb x) k = true ↔ x ∈ k.
Proof.
  rewrite existsb_exists. split.
  - intros (y & Hy & ->%sentence_eqb_eq). by apply list_elem_of_In.
  - intros Hx. exists x. split; [by apply list_elem_of_In | by apply sentence_eqb_eq].
Qed.

Lemma size_zero_iff (X : gset cell) : size X = 0%nat ↔ X = ∅.
Proof. rewrite size_empty_iff. by unfold_leibniz. Qed.

Lemma known_mines_Some s X :
  Sentence.known_mines s = Some X ↔
  X = Sentence.cells s ∧ Z.of_nat (size (Sentence.cells s)) = Sentence.count s
  ∧ Sentence.count s ≠ 0.
Proof.
  unfold Sentence.known_mines.
  destruct (decide (Z.of_nat (size (Sentence.cells s)) = Sentence.count s)) as [E1|E1];
    destruct (decide (Sentence.count s = 0)) as [E2|E2];
    rewrite ?(bool_decide_eq_true_2 _ E1), ?(bool_decide_eq_false_2 _ E1),
            ?(bool_decide_eq_true_2 _ E2), ?(bool_decide_eq_false_2 _ E2);
    simpl; (split; [intros ?; simplify_eq | intros (-> & ? & ?)]); done.
Qed.

Lemma known_safes_Some s X :
  Sentence.known_safes s = Some X ↔
  X = Sentence.cells s ∧ Sentence.count s = 0 ∧ Sentence.cells s ≠ ∅.
Proof.
  unfold Sentence.known_safes. rewrite <- size_zero_iff.
  destruct (decide (Z.of_nat (size (Sentence.cells s)) = 0)) as [E1|E1];
    destruct (decide (Sentence.count s = 0)) as [E2|E2];
    rewrite ?(bool_decide_eq_true_2 _ E1), ?(bool_decide_eq_false_2 _ E1),
            ?(bool_decide_eq_true_2 _ E2), ?(bool_decide_eq_false_2 _ E2);
    simpl; (split; [intros ?; simplify_eq | intros (-> & ? & ?)]);
    try done; try lia; split_and!; try done; lia.
Qed.

(** C8.  [known_mines] returns the whole cell-set exactly when the count
    equals the number of cells and is not zero, and [None] otherwise (so
    never for the empty sentence with count 0); [known_safes] returns the
    whole cell-set exactly when the count is zero and there is at least
    one cell, and [None] otherwise. *)
Theorem known_mines_known_safes_spec (s : Sentence.t) :
  (Sentence.known_mines s =
     if decide (Z.of_nat (size (Sentence.cells s)) = Sentence.count s
                ∧ Sentence.count s ≠ 0)
     then Some (Sentence.cells s) else None)
  ∧ Sentence.known_mines (Sentence.mk ∅ 0) = None
  ∧ (Sentence.known_safes s =
       if decide (Sentence.count s = 0 ∧ size (Sentence.cells s) ≠ 0%nat)
       then Some (Sentence.cells s) else None).
Proof.
  split_and!.
  - case_decide as H.
    + apply known_mines_Some. tauto.
    + destruct (Sentence.known_mines s) eqn:E; [|done].
      apply known_mines_Some in E. tauto.
  - done.
  - case_decide as H.
    + apply known_safes_Some. rewrite <- size_zero_iff. tauto.
    + destruct (Sentence.known_safes s) eqn:E; [|done].
      apply known_safes_Some in E. rewrite <- size_zero_iff in E. tauto.
Qed.

(** ** Loops as folds *)

Lemma foldl_invariant {A B} (P : A → Prop) (f : A → B → A) (l : list B) a :
  P a → (∀ a x, x ∈ l → P a → P (f a x)) → P (foldl f a l).
Proof.
  revert a. induction l as [|x l IH]; intros a Ha Hf; simpl; [done|].
  apply IH.
  - apply Hf; [left | done].
  - intros a' y Hy. apply Hf. by right.
Qed.

Lemma foldl_bind {A B C} (g : A → C → A) (f : B → list C) (l : list B) a :
  foldl g a (l ≫= f) = foldl (λ a x, foldl g a (f x)) a l.
Proof.
  revert a. induction l as [|x l IH]; intros a; simpl; [done|].
  by rewrite foldl_app, IH.
Qed.

(** ** Marking cells in sentences *)

Lemma sentence_mark_safe_remove c s :
  Sentence.mark_safe c s = remove_safes {[c]} s.
Proof.
  unfold Sentence.mark_safe, remove_safes. case_bool_decide; [done|].
  destruct s as [cs n]; simpl in *. f_equal. set_solver.
Qed.

Lemma sentence_mark_mine_remove c s :
  Sentence.mark_mine c s = remove_mines {[c]} s.
Proof.
  unfold Sentence.mark_mine, remove_mines. case_bool_decide as Hc.
  - f_equal. replace (Sentence.cells s ∩ {[c]}) with ({[c]} : gset cell)
      by set_solver.
    rewrite size_singleton. lia.
  - destruct s as [cs n]; simpl in *. f_equal; [set_solver|].
    replace (cs ∩ {[c]}) with (∅ : gset cell) by set_solver.
    rewrite size_empty. lia.
Qed.

Lemma remove_safes_empty s : remove_safes ∅ s = s.
Proof. destruct s as [cs n]. unfold remove_safes; simpl. f_equal. set_solver. Qed.

Lemma remove_mines_empty s : remove_mines ∅ s = s.
Proof.
  destruct s as [cs n]. unfold remove_mines; simpl. f_equal; [set_solver|].
  replace (cs ∩ ∅) with (∅ : gset cell) by set_solver. rewrite size_empty. lia.
Qed.

Lemma remove_safes_twice X Y s :
  remove_safes Y (remove_safes X s) = remove_safes (X ∪ Y) s.
Proof. unfold remove_safes; simpl. f_equal. set_solver. Qed.

Lemma remove_mines_twice X Y s :
  remove_mines Y (remove_mines X s) = remove_mines (X ∪ Y) s.
Proof.
  unfold remove_mines; simpl. f_equal; [set_solver|].
  replace (Sentence.cells s ∩ (X ∪ Y))
    with ((Sentence.cells s ∩ X) ∪ ((Sentence.cells s ∖ X) ∩ Y)).
  - rewrite (size_union (Sentence.cells s ∩ X) ((Sentence.cells s ∖ X) ∩ Y))
      by set_solver. lia.
  - apply set_eq. intros x. destruct (decide (x ∈ X)); set_solver.
Qed.

Lemma mark_safe_mark_safes c ai :
  MinesweeperAI.mark_safe c ai = mark_safes {[c]} ai.
Proof.
  unfold MinesweeperAI.mark_safe, mark_safes. f_equal.
  apply list_fmap_ext. intros ? s _. apply sentence_mark_safe_remove.
Qed.

Lemma mark_mine_mark_mines c ai :
  MinesweeperAI.mark_mine c ai = mark_mines {[c]} ai.
Proof.
  unfold MinesweeperAI.mark_mine, mark_mines. f_equal.
  apply list_fmap_ext. intros ? s _. apply sentence_mark_mine_remove.
Qed.

Lemma mark_safes_empty ai : mark_safes ∅ ai = ai.
Proof.
  destruct ai. unfold mark_safes; simpl. f_equal; [set_solver|].
  rewrite <- (list_fmap_id knowledge) at 2.
  apply list_fmap_ext. intros ? s _. apply remove_safes_empty.
Qed.

Lemma mark_mines_empty ai : mark_mines ∅ ai = ai.
Proof.
  destruct ai. unfold mark_mines; simpl. f_equal; [set_solver|].
  rewrite <- (list_fmap_id knowledge) at 2.
  apply list_fmap_ext. intros ? s _. apply remove_mines_empty.
Qed.

Lemma mark_safes_twice X Y ai :
  mark_safes Y (mark_safes X ai) = mark_safes (X ∪ Y) ai.
Proof.
  unfold mark_safes; simpl. f_equal; [set_solver|].
  rewrite <- list_fmap_compose.
  apply list_fmap_ext. intros ? s _. apply remove_safes_twice.
Qed.

Lemma mark_mines_twice X Y ai :
  mark_mines Y (mark_mines X ai) = mark_mines (X ∪ Y) ai.
Proof.
  unfold mark_mines; simpl. f_equal; [set_solver|].
  rewrite <- list_fmap_compose.
  apply list_fmap_ext. intros ? s _. apply remove_mines_twice.
Qed.

(** [sentence.mark_safe(cell)] after [self.mark_safe(cell)] finds the cell
    already gone from the visited sentence. *)
Lemma alter_fmap_idemp (f : Sentence.t → Sentence.t) i (l : list Sentence.t) :
  (∀ s, f (f s) = f s) → alter f i (f <$> l) = f <$> l.
Proof.
  intros Hf. revert i. induction l as [|s l IH]; intros [|i]; simpl; try done.
  - unfold alter; simpl. by rewrite Hf.
  - unfold alter in *; simpl. by rewrite IH.
Qed.

Lemma sentence_mark_safe_after i c ai :
  MinesweeperAI.sentence_mark_safe i c (MinesweeperAI.mark_safe c ai)
  = MinesweeperAI.mark_safe c ai.
Proof.
  unfold MinesweeperAI.sentence_mark_safe, MinesweeperAI.set_knowledge,
    MinesweeperAI.mark_safe; simpl. f_equal.
  apply alter_fmap_idemp. intros s.
  rewrite !sentence_mark_safe_remove, remove_safes_twice. f_equal. set_solver.
Qed.

Lemma sentence_mark_mine_after i c ai :
  MinesweeperAI.sentence_mark_mine i c (MinesweeperAI.mark_mine c ai)
  = MinesweeperAI.mark_mine c ai.
Proof.
  unfold MinesweeperAI.sentence_mark_mine, MinesweeperAI.set_knowledge,
    MinesweeperAI.mark_mine; simpl. f_equal.
  apply alter_fmap_idemp. intros s.
  unfold Sentence.mark_mine at 1. rewrite bool_decide_eq_false_2; [done|].
  rewrite sentence_mark_mine_remove. unfold remove_mines; simpl. set_solver.
Qed.

Lemma mark_safe_loop i (l : list cell) ai :
  foldl (λ ai c, MinesweeperAI.sentence_mark_safe i c (MinesweeperAI.mark_safe c ai))
        ai l
  = mark_safes (list_to_set l) ai.
Proof.
  revert ai. induction l as [|c l IH]; intros ai; simpl.
  - by rewrite mark_safes_empty.
  - by rewrite IH, sentence_mark_safe_after, mark_safe_mark_safes, mark_safes_twice.
Qed.

Lemma mark_mine_loop i (l : list cell) ai :
  foldl (λ ai c, MinesweeperAI.sentence_mark_mine i c (MinesweeperAI.mark_mine c ai))
        ai l
  = mark_mines (list_to_set l) ai.
Proof.
  revert ai. induction l as [|c l IH]; intros ai; simpl.
  - by rewrite mark_mines_empty.
  - by rewrite IH, sentence_mark_mine_after, mark_mine_mark_mines, mark_mines_twice.
Qed.

(** ** The first loop of [update_knowledge] *)

Lemma resolve_safes_cases i ai :
  MinesweeperAI.resolve_safes i ai = (ai, false)
  ∨ (∃ s X, MinesweeperAI.knowledge ai !! i = Some s
            ∧ Sentence.known_safes s = Some X
            ∧ MinesweeperAI.resolve_safes i ai = (mark_safes X ai, true)).
Proof.
  unfold MinesweeperAI.resolve_safes.
  destruct (MinesweeperAI.knowledge ai !! i) as [s|] eqn:Hi; [|by left].
  destruct (Sentence.known_safes s) as [X|] eqn:HX; [|by left].
  right. exists s, X. split_and!; [done..|].
  by rewrite mark_safe_loop, list_to_set_elements_L.
Qed.

Lemma resolve_mines_cases i ai :
  MinesweeperAI.resolve_mines i ai = (ai, false)
  ∨ (∃ s X, MinesweeperAI.knowledge ai !! i = Some s
            ∧ Sentence.known_mines s = Some X
            ∧ MinesweeperAI.resolve_mines i ai = (mark_mines X ai, true)).
Proof.
  unfold MinesweeperAI.resolve_mines.
  destruct (MinesweeperAI.knowledge ai !! i) as [s|] eqn:Hi; [|by left].
  destruct (Sentence.known_mines s) as [X|] eqn:HX; [|by left].
  right. exists s, X. split_and!; [done..|].
  by rewrite mark_mine_loop, list_to_set_elements_L.
Qed.

Lemma visit_resolved ai acc i :
  resolved ai acc → resolved ai (MinesweeperAI.visit acc i).
Proof.
  intros (Hrtc & Hf & Ht). unfold MinesweeperAI.visit.
  destruct acc as [ai0 ch]. cbn [fst snd] in *.
  destruct (resolve_safes_cases i ai0) as [E1|(s1 & X1 & Hs1 & HX1 & E1)];
    rewrite E1; cbn [fst snd].
  - destruct (resolve_mines_cases i ai0) as [E2|(s2 & X2 & Hs2 & HX2 & E2)];
      rewrite E2; cbn [fst snd].
    + rewrite !orb_false_r. done.
    + assert (resolve_step ai0 (mark_mines X2 ai0)) as Hstep.
      { eapply resolve_step_mines; [by eapply list_elem_of_lookup_2|done]. }
      rewrite orb_true_r. split_and!; [|done|intros _].
      * eapply rtc_r; done.
      * eapply tc_rtc_l; [done|by apply tc_once].
  - assert (resolve_step ai0 (mark_safes X1 ai0)) as Hstep1.
    { eapply resolve_step_safes; [by eapply list_elem_of_lookup_2|done]. }
    destruct (resolve_mines_cases i (mark_safes X1 ai0))
      as [E2|(s2 & X2 & Hs2 & HX2 & E2)]; rewrite E2; cbn [fst snd].
    + rewrite orb_false_r, orb_true_r. split_and!; [|done|intros _].
      * eapply rtc_r; done.
      * eapply tc_rtc_l; [done|by apply tc_once].
    + assert (resolve_step (mark_safes X1 ai0) (mark_mines X2 (mark_safes X1 ai0)))
        as Hstep2.
      { eapply resolve_step_mines; [by eapply list_elem_of_lookup_2|done]. }
      rewrite orb_true_r. split_and!; [|done|intros _].
      * eapply rtc_r; [eapply rtc_r|]; done.
      * eapply tc_rtc_l; [done|]. eapply tc_l; [done|by apply tc_once].
Qed.

Lemma mark_known_resolved ai : resolved ai (MinesweeperAI.mark_known ai).
Proof.
  unfold MinesweeperAI.mark_known. apply foldl_invariant.
  - split_and!; simpl; [done|done|done].
  - intros acc i _. apply visit_resolved.
Qed.

Lemma mark_known_nothing ai :
  (∀ s, s ∈ MinesweeperAI.knowledge ai →
        Sentence.known_safes s = None ∧ Sentence.known_mines s = None) →
  MinesweeperAI.mark_known ai = (ai, false).
Proof.
  intros Hnone. unfold MinesweeperAI.mark_known.
  apply (foldl_invariant (λ acc, acc = (ai, false))); [done|].
  intros acc i _ ->. unfold MinesweeperAI.visit; cbn [fst snd].
  destruct (resolve_safes_cases i ai) as [E1|(s1 & X1 & Hs1 & HX1 & E1)].
  - rewrite E1; cbn [fst snd].
    destruct (resolve_mines_cases i ai) as [E2|(s2 & X2 & Hs2 & HX2 & E2)].
    + by rewrite E2.
    + apply list_elem_of_lookup_2, Hnone in Hs2. naive_solver.
  - apply list_elem_of_lookup_2, Hnone in Hs1. naive_solver.
Qed.

(** ** The clean-up loop *)

Lemma find_list_remove (p : Sentence.t → bool) (k : list Sentence.t) :
  match List.find p k with
  | Some s => ∃ k1 k2, k = k1 ++ s :: k2 ∧ p s = true
                ∧ (∀ y, y ∈ k1 → p y = false)
                ∧ MinesweeperAI.list_remove s k = k1 ++ k2
  | None => ∀ y, y ∈ k → p y = false
  end.
Proof.
  induction k as [|y k IH]; simpl.
  - intros y Hy. by apply elem_of_nil in Hy.
  - destruct (p y) eqn:Hpy.
    + exists [], k. split_and!; [done|done| |].
      * intros z Hz. by apply elem_of_nil in Hz.
      * simpl. by rewrite (proj2 (sentence_eqb_eq y y) eq_refl).
    + destruct (List.find p k) as [s|].
      * destruct IH as (k1 & k2 & -> & Hps & Hk1 & Hrm).
        exists (y :: k1), k2. split_and!; [done|done| |].
        -- intros z [->|Hz]%elem_of_cons; auto.
        -- destruct (Sentence.eqb y s) eqn:E.
           ++ apply sentence_eqb_eq in E. congruence.
           ++ simpl. by rewrite Hrm.
      * intros z [->|Hz]%elem_of_cons; auto.
Qed.

Lemma remove_empty_spec ai :
  ((∀ s, s ∈ MinesweeperAI.knowledge ai → Sentence.cells s ≠ ∅)
   ∧ MinesweeperAI.remove_empty ai = ai)
  ∨ (∃ k1 s k2, MinesweeperAI.knowledge ai = k1 ++ s :: k2
       ∧ Sentence.cells s = ∅
       ∧ (∀ y, y ∈ k1 → Sentence.cells y ≠ ∅)
       ∧ MinesweeperAI.remove_empty ai
         = MinesweeperAI.set_knowledge (k1 ++ k2) ai).
Proof.
  unfold MinesweeperAI.remove_empty.
  pose proof (find_list_remove
    (λ s, bool_decide (size (Sentence.cells s) = 0%nat))
    (MinesweeperAI.knowledge ai)) as H.
  destruct (List.find _ _) as [s|].
  - right. destruct H as (k1 & k2 & Hk & Hs & Hk1 & Hrm).
    exists k1, s, k2. split_and!; [done| | |by rewrite Hrm].
    + by apply bool_decide_eq_true, size_zero_iff in Hs.
    + intros y Hy. apply Hk1, bool_decide_eq_false in Hy.
      by rewrite size_zero_iff in Hy.
  - left. split; [|done]. intros s Hs. apply H, bool_decide_eq_false in Hs.
    by rewrite size_zero_iff in Hs.
Qed.

(** ** Subset resolution *)

Lemma foldl_prefix_invariant {A B} (P : list B → A → Prop)
    (f : A → B → A) (l : list B) a :
  P [] a → (∀ pre x a, x ∈ l → P pre a → P (pre ++ [x]) (f a x)) →
  P l (foldl f a l).
Proof.
  intros Ha Hf.
  assert (∀ l' pre a, (∀ x, x ∈ l' → x ∈ l) → P pre a →
            P (pre ++ l') (foldl f a l')) as Hgen.
  { induction l' as [|x l' IH]; intros pre a' Hsub HP; simpl.
    - by rewrite app_nil_r.
    - replace (pre ++ x :: l') with ((pre ++ [x]) ++ l')
        by (by rewrite <- app_assoc).
      apply IH.
      + intros y Hy. apply Hsub. by right.
      + apply Hf; [apply Hsub; left | done]. }
  apply (Hgen l [] a); auto.
Qed.

Lemma infer_pair_spec k ch s1 s2 acc :
  s1 ∈ k → s2 ∈ k → infer_result k ch acc →
  infer_result k ch (MinesweeperAI.infer_pair acc s1 s2)
  ∧ (∀ x, x ∈ acc.1 → x ∈ (MinesweeperAI.infer_pair acc s1 s2).1)
  ∧ (Sentence.cells s1 ⊂ Sentence.cells s2 →
     derived s1 s2 ∈ (MinesweeperAI.infer_pair acc s1 s2).1).
Proof.
  intros Hs1 Hs2 (added & Hacc1 & Hacc2 & Hnd & Hadded).
  unfold MinesweeperAI.infer_pair. fold (derived s1 s2).
  destruct (Sentence.eqb s1 s2) eqn:Heq; simpl.
  { apply sentence_eqb_eq in Heq as ->.
    split_and!; [by exists added|done|]. intros [_ []]. done. }
  case_bool_decide as Hsub; [|split_and!; [by exists added|done|done]].
  destruct (existsb _ _) eqn:Hex; simpl.
  { apply existsb_eqb_elem_of in Hex.
    split_and!; [by exists added|done|done]. }
  assert (derived s1 s2 ∉ acc.1) as Hnew.
  { intros Hin%existsb_eqb_elem_of. congruence. }
  rewrite Hacc1 in Hnew. apply not_elem_of_app in Hnew as [Hnk Hna].
  split_and!.
  - exists (added ++ [derived s1 s2]). split_and!.
    + by rewrite Hacc1, <- app_assoc.
    + by destruct added.
    + split.
      * apply NoDup_app. split_and!; [done| |apply NoDup_singleton].
        intros x Hx ->%list_elem_of_singleton. done.
      * intros x [Hx| ->%list_elem_of_singleton]%elem_of_app; [by apply Hadded|].
        split; [done|]. by exists s1, s2.
  - intros x Hx. apply elem_of_app. by left.
  - intros _. apply elem_of_app. right. by apply list_elem_of_singleton.
Qed.

(** The third loop appends to [k] exactly the derived sentences that are
    not there yet, each once, and raises the flag when it appends. *)
Lemma infer_subsets_spec k ch :
  infer_result k ch (MinesweeperAI.infer_subsets k ch)
  ∧ ∀ s1 s2, s1 ∈ k → s2 ∈ k →
      Sentence.cells s1 ⊂ Sentence.cells s2 →
      derived s1 s2 ∈ (MinesweeperAI.infer_subsets k ch).1.
Proof.
  unfold MinesweeperAI.infer_subsets.
  pose (covers (done1 : list Sentence.t) acc :=
          ∀ a b, a ∈ done1 → b ∈ k →
                 Sentence.cells a ⊂ Sentence.cells b →
                 derived a b ∈ (acc : list Sentence.t * bool).1).
  enough (infer_result k ch
            (foldl (λ acc s1, foldl (λ acc s2, MinesweeperAI.infer_pair acc s1 s2) acc k)
                   (k, ch) k)
          ∧ covers k
              (foldl (λ acc s1, foldl (λ acc s2, MinesweeperAI.infer_pair acc s1 s2) acc k)
                     (k, ch) k)) as [H1 H2].
  { split; [done|]. intros s1 s2 Hs1 Hs2 Hsub. by apply H2. }
  apply (foldl_prefix_invariant (λ pre acc, infer_result k ch acc ∧ covers pre acc)).
  { split.
    - exists []. split_and!; simpl; [by rewrite app_nil_r|done|]. split.
      + apply NoDup_nil_2.
      + intros x Hx. by apply elem_of_nil in Hx.
    - intros a b Ha. by apply elem_of_nil in Ha. }
  intros pre1 s1 acc Hs1 [Hres Hcov].
  enough (infer_result k ch (foldl (λ acc s2, MinesweeperAI.infer_pair acc s1 s2) acc k)
          ∧ covers pre1 (foldl (λ acc s2, MinesweeperAI.infer_pair acc s1 s2) acc k)
          ∧ covers [s1] (foldl (λ acc s2, MinesweeperAI.infer_pair acc s1 s2) acc k))
    as (H1 & H2 & H3).
  { split; [done|]. intros a b [Ha|Ha]%elem_of_app; [by apply H2|by apply H3]. }
  pose (covers1 (done2 : list Sentence.t) acc :=
          ∀ b, b ∈ done2 → Sentence.cells s1 ⊂ Sentence.cells b →
               derived s1 b ∈ (acc : list Sentence.t * bool).1).
  enough (infer_result k ch (foldl (λ acc s2, MinesweeperAI.infer_pair acc s1 s2) acc k)
          ∧ covers pre1 (foldl (λ acc s2, MinesweeperAI.infer_pair acc s1 s2) acc k)
          ∧ covers1 k (foldl (λ acc s2, MinesweeperAI.infer_pair acc s1 s2) acc k))
    as (H1 & H2 & H3).
  { split_and!; [done..|]. intros a b ->%list_elem_of_singleton. by apply H3. }
  apply (foldl_prefix_invariant
           (λ pre acc, infer_result k ch acc ∧ covers pre1 acc ∧ covers1 pre acc)).
  { split_and!; [done..|]. intros b Hb. by apply elem_of_nil in Hb. }
  intros pre2 s2 acc' Hs2 (Hres' & Hcov' & Hcov1).
  destruct (infer_pair_spec k ch s1 s2 acc' Hs1 Hs2 Hres') as (H1 & H2 & H3).
  split_and!; [done| |].
  - intros a b Ha Hb Hsub. apply H2. by apply Hcov'.
  - intros b [Hb| ->%list_elem_of_singleton]%elem_of_app Hsub.
    + apply H2. by apply Hcov1.
    + by apply H3.
Qed.

(** ** One pass of [update_knowledge] *)

Lemma pass_spec ai :
  ∃ ai1 ch1 k2 added,
    MinesweeperAI.mark_known ai = (ai1, ch1)
    ∧ resolved ai (ai1, ch1)
    ∧ cleaned (MinesweeperAI.knowledge ai1) k2
    ∧ inferred k2 added
    ∧ (∀ s1 s2, s1 ∈ k2 → s2 ∈ k2 →
         Sentence.cells s1 ⊂ Sentence.cells s2 → derived s1 s2 ∈ k2 ++ added)
    ∧ MinesweeperAI.pass ai
      = (MinesweeperAI.set_knowledge (k2 ++ added) ai1,
         match added with [] => ch1 | _ => true end).
Proof.
  pose proof (mark_known_resolved ai) as Hres.
  destruct (MinesweeperAI.mark_known ai) as [ai1 ch1] eqn:Hmk.
  unfold MinesweeperAI.pass. rewrite Hmk. cbn [fst snd].
  set (ai2 := MinesweeperAI.remove_empty ai1).
  destruct (infer_subsets_spec (MinesweeperAI.knowledge ai2) ch1)
    as [(added & Hk & Hch & Hinf) Hclosed].
  exists ai1, ch1, (MinesweeperAI.knowledge ai2), added.
  split_and!; [done|done| |done| |].
  - subst ai2. destruct (remove_empty_spec ai1)
      as [[Hne ->]|(k1 & s & k2 & Hk1 & Hs & Hne & ->)].
    + by left.
    + right. by exists k1, s, k2.
  - intros s1 s2 Hs1 Hs2 Hsub. rewrite <- Hk. by apply Hclosed.
  - destruct (MinesweeperAI.infer_subsets _ _) as [k3 ch3]; simpl in *.
    subst k3 ch3. f_equal.
    subst ai2. destruct (remove_empty_spec ai1)
      as [[Hne ->]|(k1 & s & k2 & Hk1 & Hs & Hne & ->)]; reflexivity.
Qed.

Lemma cleaned_elem_of k k' s : cleaned k k' → s ∈ k' → s ∈ k.
Proof.
  intros [[_ ->]|(k1 & s0 & k2 & -> & _ & _ & ->)]; [done|].
  rewrite !elem_of_app, elem_of_cons. tauto.
Qed.

Lemma cleaned_elem_of_inv k k' s :
  cleaned k k' → s ∈ k → Sentence.cells s ≠ ∅ → s ∈ k'.
Proof.
  intros [[_ ->]|(k1 & s0 & k2 & -> & Hs0 & _ & ->)]; [done|].
  rewrite !elem_of_app, elem_of_cons. intros [?|[->|?]]; tauto.
Qed.

(** A property of agent states is kept by a pass when it is kept by each
    resolution, by dropping sentences and by appending derived sentences. *)
Lemma pass_preserves (P : MinesweeperAI.t → Prop) :
  (∀ ai ai', resolve_step ai ai' → P ai → P ai') →
  (∀ ai k', (∀ s, s ∈ k' → s ∈ MinesweeperAI.knowledge ai) →
            P ai → P (MinesweeperAI.set_knowledge k' ai)) →
  (∀ ai s1 s2, s1 ∈ MinesweeperAI.knowledge ai →
               s2 ∈ MinesweeperAI.knowledge ai →
               Sentence.cells s1 ⊂ Sentence.cells s2 → P ai →
               P (MinesweeperAI.set_knowledge
                    (MinesweeperAI.knowledge ai ++ [derived s1 s2]) ai)) →
  ∀ ai, P ai → P (MinesweeperAI.pass ai).1.
Proof.
  intros Hstep Hdrop Happ ai HP.
  destruct (pass_spec ai) as (ai1 & ch1 & k2 & added & Hmk & Hres & Hcl & Hinf & _ & ->).
  cbn [fst].
  assert (P ai1) as HP1.
  { destruct Hres as [Hrtc _]. cbn [fst] in Hrtc.
    clear Hmk Hcl Hinf. induction Hrtc; eauto. }
  assert (P (MinesweeperAI.set_knowledge k2 ai1)) as HP2.
  { apply Hdrop; [|done]. intros s. by apply cleaned_elem_of. }
  destruct Hinf as [_ Hinf].
  revert Hinf. induction added as [|x added IH] using rev_ind; intros Hinf.
  - by rewrite app_nil_r.
  - rewrite app_assoc.
    destruct (Hinf x) as (_ & s1 & s2 & Hs1 & Hs2 & Hsub & ->).
    { apply elem_of_app. right. by apply list_elem_of_singleton. }
    apply (Happ (MinesweeperAI.set_knowledge (k2 ++ added) ai1) s1 s2);
      simpl; [apply elem_of_app; by left..|done|].
    apply IH. intros y Hy. apply Hinf, elem_of_app. by left.
Qed.

Lemma update_knowledge_S depth ai :
  MinesweeperAI.update_knowledge (S depth) ai
  = if (MinesweeperAI.pass ai).2
    then MinesweeperAI.update_knowledge depth (MinesweeperAI.pass ai).1
    else Some (MinesweeperAI.pass ai).1.
Proof. reflexivity. Qed.

Lemma update_knowledge_preserves (P : MinesweeperAI.t → Prop) :
  (∀ ai, P ai → P (MinesweeperAI.pass ai).1) →
  ∀ depth ai ai', MinesweeperAI.update_knowledge depth ai = Some ai' →
                  P ai → P ai'.
Proof.
  intros Hpass. induction depth as [|d IH]; intros ai ai' Hrun HP; [done|].
  rewrite update_knowledge_S in Hrun.
  destruct (MinesweeperAI.pass ai).2 eqn:Hch.
  - eapply IH; [done|]. by apply Hpass.
  - injection Hrun as <-. by apply Hpass.
Qed.

(** ** Monotone growth of the recorded facts *)

Lemma grows_refl ai : grows ai ai.
Proof. by unfold grows. Qed.

Lemma grows_trans ai1 ai2 ai3 : grows ai1 ai2 → grows ai2 ai3 → grows ai1 ai3.
Proof.
  unfold grows. intros (-> & -> & ? & ? & ?) (-> & -> & ? & ? & ?).
  split_and!; [done|done|set_solver..].
Qed.

Lemma resolve_step_grows ai ai' : resolve_step ai ai' → grows ai ai'.
Proof.
  destruct 1; unfold grows, mark_safes, mark_mines; simpl;
    split_and!; set_solver.
Qed.

Lemma pass_grows_from ai0 ai : grows ai0 ai → grows ai0 (MinesweeperAI.pass ai).1.
Proof.
  revert ai. apply pass_preserves.
  - intros ai ai' Hstep H. eapply grows_trans; [done|by apply resolve_step_grows].
  - intros ai k' _ H. done.
  - intros ai s1 s2 _ _ _ H. done.
Qed.

Lemma update_knowledge_grows depth ai ai' :
  MinesweeperAI.update_knowledge depth ai = Some ai' → grows ai ai'.
Proof.
  intros Hrun.
  apply (update_knowledge_preserves (grows ai) (pass_grows_from ai) depth ai ai');
    [done|apply grows_refl].
Qed.

Lemma mark_mine_grows c ai : grows ai (MinesweeperAI.mark_mine c ai).
Proof. unfold grows; simpl. split_and!; set_solver. Qed.

Lemma mark_safe_grows c ai : grows ai (MinesweeperAI.mark_safe c ai).
Proof. unfold grows; simpl. split_and!; set_solver. Qed.

Lemma add_sentence_grows c n ai : grows ai (MinesweeperAI.add_sentence c n ai).
Proof. unfold grows; simpl. split_and!; set_solver. Qed.

Create HintDb grows.
#[local] Hint Resolve grows_refl mark_mine_grows mark_safe_grows
  add_sentence_grows : grows.

Lemma run_op_grows depth o ai ai' r :
  run_op depth o ai = Some (ai', r) → grows ai ai'.
Proof.
  intros Hrun. destruct o as [c|c|c n| |rnd]; simpl in Hrun;
    try (injection Hrun as <- _; auto with grows; fail).
  destruct (MinesweeperAI.add_knowledge depth c n ai) as [ai2|] eqn:E; [|done].
  injection Hrun as <- _. unfold MinesweeperAI.add_knowledge in E.
  eapply grows_trans; [|by eapply update_knowledge_grows]. auto with grows.
Qed.

(** C10.  Every public operation only adds to [moves_made], [safes] and
    [mines]: each of the three sets before the operation is included in
    the set after it. *)
Theorem public_operations_monotone depth o ai ai' r :
  run_op depth o ai = Some (ai', r) →
  MinesweeperAI.moves_made ai ⊆ MinesweeperAI.moves_made ai'
  ∧ MinesweeperAI.safes ai ⊆ MinesweeperAI.safes ai'
  ∧ MinesweeperAI.mines ai ⊆ MinesweeperAI.mines ai'.
Proof.
  intros Hrun. by destruct (run_op_grows _ _ _ _ _ Hrun) as (_ & _ & ? & ? & ?).
Qed.

(** ** Sentences never mention resolved cells *)

Lemma resolve_step_no_resolved ai ai' :
  resolve_step ai ai' → no_resolved_cell ai → no_resolved_cell ai'.
Proof.
  unfold no_resolved_cell.
  destruct 1 as [ai s X Hs HX|ai s X Hs HX]; intros H s' Hs'; simpl in *;
    apply list_elem_of_fmap in Hs' as (s0 & -> & Hs0); apply H in Hs0;
    simpl; set_solver.
Qed.

Lemma pass_no_resolved ai :
  no_resolved_cell ai → no_resolved_cell (MinesweeperAI.pass ai).1.
Proof.
  revert ai. apply pass_preserves.
  - apply resolve_step_no_resolved.
  - intros ai k' Hk' H s Hs. simpl in *. apply H. by apply Hk'.
  - intros ai s1 s2 Hs1 Hs2 Hsub H s Hs. simpl in *.
    apply elem_of_app in Hs as [Hs| ->%list_elem_of_singleton]; [by apply H|].
    apply H in Hs2. simpl. set_solver.
Qed.

(** ** Ranges and grids *)

Lemma elem_of_range a b x : x ∈ range a b ↔ a ≤ x < b.
Proof. unfold range. rewrite elem_of_seqZ. lia. Qed.

Lemma NoDup_range a b : NoDup (range a b).
Proof. apply NoDup_seqZ. Qed.

Lemma elem_of_grid a1 b1 a2 b2 (x : cell) :
  x ∈ grid a1 b1 a2 b2 ↔ a1 ≤ x.1 < b1 ∧ a2 ≤ x.2 < b2.
Proof.
  unfold grid. rewrite list_elem_of_bind. split.
  - intros (i & (j & ->%list_elem_of_singleton & Hj%elem_of_range)%list_elem_of_bind
              & Hi%elem_of_range). done.
  - intros [H1 H2]. exists x.1. split; [|by apply elem_of_range].
    apply list_elem_of_bind. exists x.2. split; [|by apply elem_of_range].
    destruct x. by apply list_elem_of_singleton.
Qed.

Lemma NoDup_grid a1 b1 a2 b2 : NoDup (grid a1 b1 a2 b2).
Proof.
  unfold grid. apply NoDup_bind; [| |apply NoDup_range].
  - intros i1 i2 x _ _
      (j1 & ->%list_elem_of_singleton & _)%list_elem_of_bind
      (j2 & [= -> _]%list_elem_of_singleton & _)%list_elem_of_bind. done.
  - intros i _. apply NoDup_bind; [| |apply NoDup_range].
    + intros j1 j2 x _ _ ->%list_elem_of_singleton [= ->]%list_elem_of_singleton.
      done.
    + intros j _. apply NoDup_singleton.
Qed.

Lemma foldl_grid {A} (g : A → cell → A) a a1 b1 a2 b2 :
  foldl (λ acc i, foldl (λ acc j, g acc (i, j)) acc (range a2 b2)) a (range a1 b1)
  = foldl g a (grid a1 b1 a2 b2).
Proof.
  unfold grid. rewrite foldl_bind.
  generalize (range a1 b1) as l. intros l. revert a.
  induction l as [|i l IH]; intros a; simpl; [done|].
  rewrite <- IH. f_equal. rewrite foldl_bind.
  generalize (range a2 b2) as l2. intros l2. clear. revert a.
  induction l2 as [|j l2 IH]; intros a; simpl; [done|]. by rewrite IH.
Qed.

Lemma elem_of_neighbors h w c x :
  x ∈ neighbors h w c ↔ adjacent c x ∧ on_board h w x.
Proof.
  unfold neighbors. rewrite elem_of_list_to_set, list_elem_of_filter.
  change (block c) with (grid (c.1 - 1) (c.1 + 2) (c.2 - 1) (c.2 + 2)).
  rewrite elem_of_grid. unfold adjacent. intuition lia.
Qed.

Lemma elem_of_board_cells h w x : x ∈ board_cells h w ↔ on_board h w x.
Proof. change (board_cells h w) with (grid 0 h 0 w). by rewrite elem_of_grid. Qed.

Lemma elem_of_mine_set b x :
  x ∈ mine_set b ↔
  on_board (Minesweeper.height b) (Minesweeper.width b) x
  ∧ Minesweeper.board_at b x.1 x.2 = true.
Proof.
  unfold mine_set.
  rewrite elem_of_list_to_set, list_elem_of_filter, elem_of_board_cells. tauto.
Qed.

(** ** The new sentence of [add_knowledge] *)

Lemma neighbor_fold_spec ai c (l : list cell) acc :
  foldl (MinesweeperAI.neighbor_step ai c) acc l
  = (list_to_set (filter (λ x, x ≠ c ∧ (x ∉ MinesweeperAI.mines ai)
                               ∧ x ∉ MinesweeperAI.safes ai) l) ∪ acc.1,
     acc.2 - Z.of_nat (length (filter (λ x, x ≠ c ∧ x ∈ MinesweeperAI.mines ai) l))).
Proof.
  revert acc. induction l as [|x l IH]; intros [N n]; simpl.
  - f_equal; [set_solver|lia].
  - rewrite IH. unfold MinesweeperAI.neighbor_step. rewrite !filter_cons.
    case_bool_decide as Hc; simpl.
    { rewrite !decide_False by tauto. done. }
    case_bool_decide as Hm; simpl.
    { rewrite decide_False by tauto. rewrite decide_True by tauto.
      simpl. f_equal. lia. }
    case_bool_decide as Hs; simpl.
    + rewrite decide_True by tauto. rewrite decide_False by tauto.
      simpl. f_equal. set_solver.
    + rewrite !decide_False by tauto. done.
Qed.

(** The cells the double loop of [add_knowledge] visits: around [c],
    first component below [width], second component below [height]. *)
Lemma neighbor_loop_spec ai c n :
  MinesweeperAI.neighbor_loop ai c n
  = (neighbors (MinesweeperAI.width ai) (MinesweeperAI.height ai) c
       ∖ MinesweeperAI.mines ai ∖ MinesweeperAI.safes ai,
     n - Z.of_nat (size (neighbors (MinesweeperAI.width ai) (MinesweeperAI.height ai) c
                          ∩ MinesweeperAI.mines ai))).
Proof.
  unfold MinesweeperAI.neighbor_loop.
  rewrite (foldl_grid (MinesweeperAI.neighbor_step ai c)), neighbor_fold_spec.
  simpl. f_equal.
  - apply set_eq. intros x.
    rewrite elem_of_union, elem_of_list_to_set, list_elem_of_filter, elem_of_grid,
      !elem_of_difference, elem_of_neighbors.
    unfold adjacent, on_board. set_solver by lia.
  - f_equal. f_equal.
    match goal with
    | |- length ?l = _ => rewrite <- (size_list_to_set (C:=gset cell) l)
    end.
    + f_equal. apply set_eq. intros x.
      rewrite elem_of_list_to_set, list_elem_of_filter, elem_of_grid,
        elem_of_intersection, elem_of_neighbors.
      unfold adjacent, on_board. intuition lia.
    + apply NoDup_filter, NoDup_grid.
Qed.

Lemma add_sentence_spec c n ai :
  MinesweeperAI.add_sentence c n ai
  = MinesweeperAI.mk
      (MinesweeperAI.height ai) (MinesweeperAI.width ai)
      ({[c]} ∪ MinesweeperAI.moves_made ai)
      (MinesweeperAI.mines ai)
      ({[c]} ∪ MinesweeperAI.safes ai)
      ((Sentence.mark_safe c <$> MinesweeperAI.knowledge ai)
         ++ [Sentence.mk
               (neighbors (MinesweeperAI.width ai) (MinesweeperAI.height ai) c
                  ∖ MinesweeperAI.mines ai ∖ ({[c]} ∪ MinesweeperAI.safes ai))
               (n - Z.of_nat (size (neighbors (MinesweeperAI.width ai)
                                      (MinesweeperAI.height ai) c
                                    ∩ MinesweeperAI.mines ai)))]).
Proof.
  unfold MinesweeperAI.add_sentence. rewrite neighbor_loop_spec. reflexivity.
Qed.

(** On a square board the new sentence is the one the specification
    describes: the in-bounds neighbours of the cell whose status is not
    known, with the count lowered by the number of known mines among the
    neighbours. *)
Lemma add_sentence_square c n ai :
  MinesweeperAI.height ai = MinesweeperAI.width ai →
  last (MinesweeperAI.knowledge (MinesweeperAI.add_sentence c n ai))
  = Some (Sentence.mk
            (neighbors (MinesweeperAI.height ai) (MinesweeperAI.width ai) c
               ∖ MinesweeperAI.safes (MinesweeperAI.add_sentence c n ai)
               ∖ MinesweeperAI.mines ai)
            (n - Z.of_nat (size (neighbors (MinesweeperAI.height ai)
                                   (MinesweeperAI.width ai) c
                                 ∩ MinesweeperAI.mines ai)))).
Proof.
  intros Hsq. rewrite add_sentence_spec; simpl. rewrite last_snoc, Hsq.
  do 2 f_equal. set_solver.
Qed.

(** C1.  On a board of height 1 and width 3, [add_knowledge((0, 0), 1)]
    on a fresh agent appends the sentence [{(1, 0)} = 1]: the cell
    [(1, 0)] is outside the board, and the only in-bounds neighbour of
    [(0, 0)], the cell [(0, 1)], is missing from it. *)
Theorem add_knowledge_sentence_nonsquare :
  MinesweeperAI.knowledge
    (MinesweeperAI.add_sentence (0, 0) 1 (MinesweeperAI.init 1 3))
  = [Sentence.mk {[ (1, 0) ]} 1]
  ∧ neighbors 1 3 (0, 0) = {[ (0, 1) ]}
  ∧ ¬ on_board 1 3 (1, 0).
Proof.
  split_and!.
  - by vm_compute.
  - by vm_compute.
  - unfold on_board; simpl. lia.
Qed.

(** ** The board's neighbour count *)

Lemma nearby_fold_spec b c (l : list cell) n :
  foldl (Minesweeper.nearby_step b c) n l
  = n + Z.of_nat (length (filter
          (λ x, x ≠ c ∧ on_board (Minesweeper.height b) (Minesweeper.width b) x
                ∧ Minesweeper.board_at b x.1 x.2 = true) l)).
Proof.
  revert n. induction l as [|x l IH]; intros n; simpl; [lia|].
  rewrite IH, filter_cons. unfold Minesweeper.nearby_step, Minesweeper.in_bounds.
  case_bool_decide as Hc; simpl.
  { rewrite decide_False by tauto. done. }
  destruct (decide (on_board (Minesweeper.height b) (Minesweeper.width b) x))
    as [Hb|Hb].
  - destruct Hb as [Hb1 Hb2].
    rewrite (bool_decide_eq_true_2 _ Hb1), (bool_decide_eq_true_2 _ Hb2); simpl.
    destruct (Minesweeper.board_at b x.1 x.2) eqn:Hm.
    + rewrite decide_True by (unfold on_board; tauto). simpl. lia.
    + rewrite decide_False by (intros (_ & _ & ?); done). done.
  - rewrite decide_False by tauto.
    unfold on_board in Hb.
    destruct (decide (0 ≤ x.1 < Minesweeper.height b)) as [H1|H1].
    + rewrite (bool_decide_eq_true_2 _ H1); simpl.
      rewrite bool_decide_eq_false_2 by tauto. done.
    + rewrite (bool_decide_eq_false_2 _ H1). done.
Qed.

Lemma nearby_mines_spec b c :
  Minesweeper.nearby_mines b c
  = Z.of_nat (size (neighbors (Minesweeper.height b) (Minesweeper.width b) c
                    ∩ mine_set b)).
Proof.
  unfold Minesweeper.nearby_mines.
  rewrite (foldl_grid (Minesweeper.nearby_step b c)), nearby_fold_spec.
  rewrite Z.add_0_l. f_equal.
  match goal with
  | |- length ?l = _ => rewrite <- (size_list_to_set (C:=gset cell) l)
  end.
  - f_equal. apply set_eq. intros x.
    rewrite elem_of_list_to_set, list_elem_of_filter, elem_of_grid,
      elem_of_intersection, elem_of_neighbors, elem_of_mine_set.
    unfold adjacent, on_board. intuition lia.
  - apply NoDup_filter, NoDup_grid.
Qed.

(** ** Knowledge that is true of a mine layout *)

Section layout.
Context (M : gset cell).

Lemma true_of_count_in_range s : true_of M s → count_in_range s.
Proof.
  unfold true_of, count_in_range. intros ->. split; [lia|].
  apply inj_le, subseteq_size. set_solver.
Qed.

Lemma true_of_same_cells s1 s2 :
  true_of M s1 → true_of M s2 → Sentence.cells s1 = Sentence.cells s2 → s1 = s2.
Proof.
  unfold true_of. destruct s1, s2; simpl. intros -> -> ->. done.
Qed.

Lemma known_safes_true_of s X :
  true_of M s → Sentence.known_safes s = Some X → X ## M.
Proof.
  unfold true_of. intros Ht (-> & H0 & _)%known_safes_Some.
  rewrite H0 in Ht.
  assert (size (Sentence.cells s ∩ M) = 0%nat) as Hsz%size_zero_iff by lia.
  set_solver.
Qed.

Lemma known_mines_true_of s X :
  true_of M s → Sentence.known_mines s = Some X → X ⊆ M.
Proof.
  unfold true_of. intros Ht (-> & Hn & _)%known_mines_Some.
  assert (Sentence.cells s ∩ M = Sentence.cells s) as Heq; [|set_solver].
  apply set_subseteq_size_eq; [set_solver|lia].
Qed.

Lemma remove_safes_true_of X s :
  X ## M → true_of M s → true_of M (remove_safes X s).
Proof.
  unfold true_of, remove_safes; simpl. intros HX ->. do 2 f_equal. set_solver.
Qed.

Lemma remove_mines_true_of X s :
  X ⊆ M → true_of M s → true_of M (remove_mines X s).
Proof.
  unfold true_of, remove_mines; simpl. intros HX ->.
  replace ((Sentence.cells s ∖ X) ∩ M)
    with ((Sentence.cells s ∩ M) ∖ (Sentence.cells s ∩ X)) by set_solver.
  rewrite (size_difference (Sentence.cells s ∩ M) (Sentence.cells s ∩ X))
    by set_solver.
  assert (size (Sentence.cells s ∩ X) ≤ size (Sentence.cells s ∩ M))%nat
    by (apply subseteq_size; set_solver).
  lia.
Qed.

Lemma derived_true_of s1 s2 :
  Sentence.cells s1 ⊂ Sentence.cells s2 →
  true_of M s1 → true_of M s2 → true_of M (derived s1 s2).
Proof.
  unfold true_of, derived; simpl. intros [Hsub _] -> ->.
  replace ((Sentence.cells s2 ∖ Sentence.cells s1) ∩ M)
    with ((Sentence.cells s2 ∩ M) ∖ (Sentence.cells s1 ∩ M)) by set_solver.
  rewrite (size_difference (Sentence.cells s2 ∩ M) (Sentence.cells s1 ∩ M))
    by set_solver.
  assert (size (Sentence.cells s1 ∩ M) ≤ size (Sentence.cells s2 ∩ M))%nat
    by (apply subseteq_size; set_solver).
  lia.
Qed.

(** The three mutations of a sentence keep it true, hence keep its count
    between zero and the number of its cells: marking a mined cell as a
    mine, marking an unmined cell as safe, and subset resolution
    ([derived_true_of]). *)
Lemma sentence_mark_mine_true_of c s :
  c ∈ M → true_of M s → true_of M (Sentence.mark_mine c s).
Proof.
  intros Hc Hs. rewrite sentence_mark_mine_remove.
  apply remove_mines_true_of; [set_solver|done].
Qed.

Lemma sentence_mark_safe_true_of c s :
  c ∉ M → true_of M s → true_of M (Sentence.mark_safe c s).
Proof.
  intros Hc Hs. rewrite sentence_mark_safe_remove.
  apply remove_safes_true_of; [set_solver|done].
Qed.

(** The conclusions drawn from true sentences are true, and rewriting
    the sentences with them keeps the sentences true. *)
Lemma resolve_step_all_true ai ai' :
  resolve_step ai ai' → all_true M ai → all_true M ai'.
Proof.
  destruct 1 as [ai s X Hs HX|ai s X Hs HX]; intros Hk.
  - pose proof (known_safes_true_of s X (Hk s Hs) HX) as HXM.
    intros s' (s0 & -> & Hs0)%list_elem_of_fmap.
    apply remove_safes_true_of; auto.
  - pose proof (known_mines_true_of s X (Hk s Hs) HX) as HXM.
    intros s' (s0 & -> & Hs0)%list_elem_of_fmap.
    apply remove_mines_true_of; auto.
Qed.

Lemma pass_all_true ai : all_true M ai → all_true M (MinesweeperAI.pass ai).1.
Proof.
  revert ai. apply pass_preserves.
  - apply resolve_step_all_true.
  - intros ai k' Hk' Hk s Hs. by apply Hk, Hk'.
  - intros ai s1 s2 Hs1 Hs2 Hsub Hk s.
    intros [Hs| ->%list_elem_of_singleton]%elem_of_app; [by apply Hk|].
    apply derived_true_of; auto.
Qed.

Lemma resolve_step_sound ai ai' :
  resolve_step ai ai' → sound M ai → sound M ai'.
Proof.
  intros Hstep (Hk & Hsafe & Hmine).
  split; [by eapply resolve_step_all_true|].
  destruct Hstep as [ai s X Hs HX|ai s X Hs HX]; simpl.
  - pose proof (known_safes_true_of s X (Hk s Hs) HX). set_solver.
  - pose proof (known_mines_true_of s X (Hk s Hs) HX). set_solver.
Qed.

Lemma pass_sound ai : sound M ai → sound M (MinesweeperAI.pass ai).1.
Proof.
  revert ai. apply pass_preserves.
  - apply resolve_step_sound.
  - intros ai k' Hk' (Hk & ? & ?). split_and!; simpl; [|done..].
    intros s Hs. by apply Hk, Hk'.
  - intros ai s1 s2 Hs1 Hs2 Hsub (Hk & ? & ?). split_and!; simpl; [|done..].
    intros s [Hs| ->%list_elem_of_singleton]%elem_of_app; [by apply Hk|].
    apply derived_true_of; auto.
Qed.

Lemma mark_safe_sound c ai :
  c ∉ M → sound M ai → sound M (MinesweeperAI.mark_safe c ai).
Proof.
  intros Hc (Hk & ? & ?). rewrite mark_safe_mark_safes.
  split_and!; simpl; [|set_solver|done].
  intros s' (s0 & -> & Hs0)%list_elem_of_fmap.
  apply remove_safes_true_of; [set_solver|auto].
Qed.

Lemma mark_mine_sound c ai :
  c ∈ M → sound M ai → sound M (MinesweeperAI.mark_mine c ai).
Proof.
  intros Hc (Hk & ? & ?). rewrite mark_mine_mark_mines.
  split_and!; simpl; [|done|set_solver].
  intros s' (s0 & -> & Hs0)%list_elem_of_fmap.
  apply remove_mines_true_of; [set_solver|auto].
Qed.

(** The sentence [add_knowledge] appends is true when the given count is
    the number of mines among the cells its loops visit. *)
Lemma add_sentence_sound c n ai :
  c ∉ M →
  n = Z.of_nat (size (neighbors (MinesweeperAI.width ai)
                        (MinesweeperAI.height ai) c ∩ M)) →
  sound M ai → sound M (MinesweeperAI.add_sentence c n ai).
Proof.
  intros Hc -> (Hk & Hsafe & Hmine). rewrite add_sentence_spec.
  set (N := neighbors (MinesweeperAI.width ai) (MinesweeperAI.height ai) c).
  split_and!; simpl; [|set_solver|done].
  intros s [(s0 & -> & Hs0)%list_elem_of_fmap| ->%list_elem_of_singleton]%elem_of_app.
  - rewrite sentence_mark_safe_remove.
    apply remove_safes_true_of; [set_solver|auto].
  - unfold true_of; simpl.
    replace ((N ∖ MinesweeperAI.mines ai ∖ ({[c]} ∪ MinesweeperAI.safes ai)) ∩ M)
      with ((N ∩ M) ∖ (N ∩ MinesweeperAI.mines ai)) by set_solver.
    rewrite (size_difference (N ∩ M) (N ∩ MinesweeperAI.mines ai)) by set_solver.
    assert (size (N ∩ MinesweeperAI.mines ai) ≤ size (N ∩ M))%nat
      by (apply subseteq_size; set_solver).
    lia.
Qed.

End layout.

(** ** Reachable states *)

Lemma reachable_size P h w ai :
  reachable P h w ai →
  MinesweeperAI.height ai = h ∧ MinesweeperAI.width ai = w.
Proof.
  induction 1 as [|ai depth o ai' r _ [IH1 IH2] _ Hrun]; [done|].
  apply run_op_grows in Hrun as (-> & -> & _). done.
Qed.

Lemma mark_no_resolved c ai :
  no_resolved_cell ai →
  no_resolved_cell (MinesweeperAI.mark_mine c ai)
  ∧ no_resolved_cell (MinesweeperAI.mark_safe c ai).
Proof.
  intros H. split; intros s (s0 & -> & Hs0)%list_elem_of_fmap; apply H in Hs0;
    [rewrite sentence_mark_mine_remove|rewrite sentence_mark_safe_remove];
    simpl; set_solver.
Qed.

Lemma add_sentence_no_resolved c n ai :
  no_resolved_cell ai → no_resolved_cell (MinesweeperAI.add_sentence c n ai).
Proof.
  intros H. rewrite add_sentence_spec. intros s; simpl.
  intros [(s0 & -> & Hs0)%list_elem_of_fmap| ->%list_elem_of_singleton]%elem_of_app.
  - apply H in Hs0. rewrite sentence_mark_safe_remove. simpl. set_solver.
  - simpl. set_solver.
Qed.

Lemma reachable_no_resolved P h w ai :
  reachable P h w ai → no_resolved_cell ai.
Proof.
  induction 1 as [|ai depth o ai' r _ IH _ Hrun].
  - intros s Hs. by apply elem_of_nil in Hs.
  - destruct o as [c|c|c n| |rnd]; simpl in Hrun.
    + injection Hrun as <- _. by apply mark_no_resolved.
    + injection Hrun as <- _. by apply mark_no_resolved.
    + destruct (MinesweeperAI.add_knowledge depth c n ai) as [ai2|] eqn:E; [|done].
      injection Hrun as <- _. unfold MinesweeperAI.add_knowledge in E.
      eapply (update_knowledge_preserves no_resolved_cell pass_no_resolved);
        [done|by apply add_sentence_no_resolved].
    + by injection Hrun as <- _.
    + by injection Hrun as <- _.
Qed.

Lemma reachable_sound b ai :
  Minesweeper.height b = Minesweeper.width b →
  reachable (agrees b) (Minesweeper.height b) (Minesweeper.width b) ai →
  sound (mine_set b) ai.
Proof.
  intros Hsq. induction 1 as [|ai depth o ai' r Hreach IH Hagree Hrun].
  - split_and!; simpl; [|set_solver..]. intros s Hs. by apply elem_of_nil in Hs.
  - apply reachable_size in Hreach as [Hh Hw].
    destruct o as [c|c|c n| |rnd]; simpl in Hrun, Hagree.
    + injection Hrun as <- _. by apply mark_mine_sound.
    + injection Hrun as <- _. by apply mark_safe_sound.
    + destruct (MinesweeperAI.add_knowledge depth c n ai) as [ai2|] eqn:E; [|done].
      injection Hrun as <- _. unfold MinesweeperAI.add_knowledge in E.
      destruct Hagree as [Hc ->].
      eapply (update_knowledge_preserves (sound (mine_set b)) (pass_sound _));
        [done|].
      apply add_sentence_sound; [done| |done].
      rewrite nearby_mines_spec, Hh, Hw. by rewrite Hsq.
    + by injection Hrun as <- _.
    + by injection Hrun as <- _.
Qed.

(** C2, as amended.  After any sequence of public operations no sentence
    of the knowledge base contains a cell recorded in [safes] or in
    [mines]; and when the board is square and the operations agree with
    its mine layout (mines are marked only on mined cells, cells are
    marked safe or revealed only when unmined, revealed cells come with
    the board's neighbour count), [safes] and [mines] are disjoint. *)
Theorem no_regression_invariant :
  (∀ h w ai, reachable any_op h w ai → no_resolved_cell ai)
  ∧ (∀ b ai, Minesweeper.height b = Minesweeper.width b →
       reachable (agrees b) (Minesweeper.height b) (Minesweeper.width b) ai →
       MinesweeperAI.safes ai ## MinesweeperAI.mines ai).
Proof.
  split.
  - intros h w ai. apply reachable_no_resolved.
  - intros b ai Hsq Hreach.
    destruct (reachable_sound b ai Hsq Hreach) as (_ & Hs & Hm). set_solver.
Qed.

(** C2, counterexample.  Nothing stops a caller from marking the same
    cell safe and then mine: after [mark_safe((0, 0))] and
    [mark_mine((0, 0))] on a fresh agent the cell is in both sets. *)
Lemma safes_mines_overlap :
  reachable any_op 8 8
    (MinesweeperAI.mark_mine (0, 0)
       (MinesweeperAI.mark_safe (0, 0) (MinesweeperAI.init 8 8)))
  ∧ ¬ (MinesweeperAI.safes
         (MinesweeperAI.mark_mine (0, 0)
            (MinesweeperAI.mark_safe (0, 0) (MinesweeperAI.init 8 8)))
       ## MinesweeperAI.mines
         (MinesweeperAI.mark_mine (0, 0)
            (MinesweeperAI.mark_safe (0, 0) (MinesweeperAI.init 8 8)))).
Proof.
  split.
  - eapply (reachable_step _ _ _ _ 0%nat (MarkMine (0, 0))); [|done|done].
    eapply (reachable_step _ _ _ _ 0%nat (MarkSafe (0, 0))); [|done|done].
    apply reachable_init.
  - simpl. set_solver.
Qed.

(** On a square board, with operations that agree with the board, every
    sentence of the knowledge base keeps its count between zero and the
    number of its cells. *)
Lemma reachable_count_in_range b ai s :
  Minesweeper.height b = Minesweeper.width b →
  reachable (agrees b) (Minesweeper.height b) (Minesweeper.width b) ai →
  s ∈ MinesweeperAI.knowledge ai → count_in_range s.
Proof.
  intros Hsq Hreach Hs.
  destruct (reachable_sound b ai Hsq Hreach) as (Hk & _ & _).
  eapply true_of_count_in_range. by apply Hk.
Qed.

(** ** Termination of [update_knowledge] on true knowledge *)

Lemma elem_of_all_cells k x :
  x ∈ all_cells k ↔ ∃ s, s ∈ k ∧ x ∈ Sentence.cells s.
Proof.
  unfold all_cells. rewrite elem_of_union_list. split.
  - intros (X & (s & -> & Hs)%list_elem_of_fmap & Hx). eauto.
  - intros (s & Hs & Hx). exists (Sentence.cells s). split; [|done].
    apply list_elem_of_fmap. eauto.
Qed.

Lemma elem_of_cell_sets k X :
  X ∈ cell_sets k ↔ X ≠ ∅ ∧ ∃ s, s ∈ k ∧ Sentence.cells s = X.
Proof.
  unfold cell_sets.
  rewrite elem_of_list_to_set, list_elem_of_filter, list_elem_of_fmap.
  naive_solver.
Qed.

Lemma elem_of_subsets (l : list cell) (X : gset cell) :
  X ⊆ list_to_set l → X ∈ subsets l.
Proof.
  revert X. induction l as [|x l IH]; intros X HX; simpl in *.
  - assert (X = ∅) as -> by set_solver. by apply list_elem_of_singleton.
  - apply elem_of_app. destruct (decide (x ∈ X)) as [Hx|Hx].
    + right. apply list_elem_of_fmap. exists (X ∖ {[x]}). split.
      * apply set_eq. intros y. destruct (decide (y = x)); set_solver.
      * apply IH. set_solver.
    + left. apply IH. set_solver.
Qed.

Lemma elem_of_powerset (X U : gset cell) : X ⊆ U → X ∈ powerset U.
Proof.
  intros HX. unfold powerset. apply elem_of_list_to_set, elem_of_subsets.
  by rewrite list_to_set_elements_L.
Qed.

Lemma cell_sets_powerset k : cell_sets k ⊆ powerset (all_cells k).
Proof.
  intros X (_ & s & Hs & <-)%elem_of_cell_sets. apply elem_of_powerset.
  intros x Hx. apply elem_of_all_cells. eauto.
Qed.

Lemma all_cells_remove (k : list Sentence.t) s (f : Sentence.t → Sentence.t) :
  s ∈ k → Sentence.cells s ≠ ∅ →
  (∀ s', Sentence.cells (f s') = Sentence.cells s' ∖ Sentence.cells s) →
  all_cells (f <$> k) ⊂ all_cells k.
Proof.
  intros Hs Hne Hf. apply set_choose_L in Hne as [x Hx]. split.
  - intros y (s' & (s0 & -> & Hs0)%list_elem_of_fmap & Hy)%elem_of_all_cells.
    rewrite Hf in Hy. apply elem_of_all_cells. exists s0. set_solver.
  - intros Hsub. assert (x ∈ all_cells (f <$> k)) as Hin.
    { apply Hsub, elem_of_all_cells. eauto. }
    apply elem_of_all_cells in Hin as (s' & (s0 & -> & Hs0)%list_elem_of_fmap & Hy).
    rewrite Hf in Hy. set_solver.
Qed.

Lemma resolve_step_all_cells ai ai' :
  resolve_step ai ai' →
  all_cells (MinesweeperAI.knowledge ai') ⊂ all_cells (MinesweeperAI.knowledge ai).
Proof.
  destruct 1 as [ai s X Hs HX|ai s X Hs HX]; simpl.
  - apply known_safes_Some in HX as (-> & _ & Hne).
    by apply (all_cells_remove _ s).
  - apply known_mines_Some in HX as (-> & Hsz & Hn).
    apply (all_cells_remove _ s); [done| |done].
    intros Hempty. rewrite Hempty, size_empty in Hsz. simpl in Hsz. lia.
Qed.

Lemma resolved_all_cells ai r :
  resolved ai r →
  all_cells (MinesweeperAI.knowledge r.1) ⊆ all_cells (MinesweeperAI.knowledge ai)
  ∧ (r.2 = true →
     all_cells (MinesweeperAI.knowledge r.1) ⊂ all_cells (MinesweeperAI.knowledge ai)).
Proof.
  intros (Hrtc & _ & Htc).
  assert (∀ x y, rtc resolve_step x y →
            all_cells (MinesweeperAI.knowledge y)
            ⊆ all_cells (MinesweeperAI.knowledge x)) as Hle.
  { induction 1 as [|x y z Hxy _ IH]; [done|].
    apply resolve_step_all_cells in Hxy as [Hxy _]. set_solver. }
  split; [by apply Hle|].
  intros Ht. apply Htc in Ht. clear Hrtc Htc.
  destruct Ht as [x y Hxy|x y z Hxy Hyz].
  - by apply resolve_step_all_cells.
  - apply resolve_step_all_cells in Hxy. apply tc_rtc, Hle in Hyz.
    set_solver.
Qed.

Lemma cleaned_all_cells k k' : cleaned k k' → all_cells k' = all_cells k.
Proof.
  intros [[_ ->]|(k1 & s0 & k2 & -> & Hs0 & _ & ->)]; [done|].
  apply set_eq. intros x. rewrite !elem_of_all_cells.
  setoid_rewrite elem_of_app. setoid_rewrite elem_of_cons. split.
  - intros (s & Hs & Hx). exists s. tauto.
  - intros (s & [Hs|[->|Hs]] & Hx); [exists s; tauto| |exists s; tauto].
    rewrite Hs0 in Hx. set_solver.
Qed.

Lemma cleaned_cell_sets k k' : cleaned k k' → cell_sets k' = cell_sets k.
Proof.
  intros Hcl. apply set_eq. intros X. rewrite !elem_of_cell_sets. split.
  - intros (HX & s & Hs & <-). split; [done|]. exists s. split; [|done].
    by eapply cleaned_elem_of.
  - intros (HX & s & Hs & <-). split; [done|]. exists s. split; [|done].
    by eapply cleaned_elem_of_inv.
Qed.

Lemma inferred_all_cells k added :
  inferred k added → all_cells (k ++ added) = all_cells k.
Proof.
  intros [_ Hinf]. apply set_eq. intros x. rewrite !elem_of_all_cells. split.
  - intros (s & [Hs|Hs]%elem_of_app & Hx); [eauto|].
    apply Hinf in Hs as (_ & s1 & s2 & Hs1 & Hs2 & _ & ->).
    exists s2. simpl in Hx. set_solver.
  - intros (s & Hs & Hx). exists s. split; [|done]. apply elem_of_app. by left.
Qed.

Lemma inferred_cell_sets M k added :
  (∀ s, s ∈ k → true_of M s) → inferred k added → added ≠ [] →
  cell_sets k ⊂ cell_sets (k ++ added).
Proof.
  intros Htrue [_ Hinf] Hne. split.
  - intros X (HX & s & Hs & <-)%elem_of_cell_sets. apply elem_of_cell_sets.
    split; [done|]. exists s. split; [|done]. apply elem_of_app. by left.
  - destruct added as [|x added]; [done|].
    destruct (Hinf x) as (Hxk & s1 & s2 & Hs1 & Hs2 & Hsub & ->); [by left|].
    intros Hsubset.
    assert (Sentence.cells (derived s1 s2) ∈ cell_sets k) as Hin.
    { apply Hsubset, elem_of_cell_sets. split.
      - simpl. destruct Hsub as [H1 H2]. intros Hempty. apply H2.
        intros y Hy. destruct (decide (y ∈ Sentence.cells s1)); [done|].
        set_solver.
      - exists (derived s1 s2). split; [|done]. apply elem_of_app. right. by left. }
    apply elem_of_cell_sets in Hin as (_ & s & Hs & Heq).
    apply Hxk. replace (derived s1 s2) with s; [done|].
    apply (true_of_same_cells M); [by apply Htrue| |done].
    apply derived_true_of; auto.
Qed.

(** A pass that raises its flag makes progress: either some cell leaves
    the knowledge base, or the cells stay and a new cell-set appears. *)
Lemma pass_progress M ai :
  all_true M ai → (MinesweeperAI.pass ai).2 = true →
  all_cells (MinesweeperAI.knowledge (MinesweeperAI.pass ai).1)
    ⊂ all_cells (MinesweeperAI.knowledge ai)
  ∨ (all_cells (MinesweeperAI.knowledge (MinesweeperAI.pass ai).1)
       = all_cells (MinesweeperAI.knowledge ai)
     ∧ cell_sets (MinesweeperAI.knowledge ai)
         ⊂ cell_sets (MinesweeperAI.knowledge (MinesweeperAI.pass ai).1)).
Proof.
  intros Htrue.
  destruct (pass_spec ai)
    as (ai1 & ch1 & k2 & added & Hmk & Hres & Hcl & Hinf & _ & ->).
  cbn [fst snd MinesweeperAI.knowledge MinesweeperAI.set_knowledge].
  intros Hch.
  rewrite (inferred_all_cells _ _ Hinf), (cleaned_all_cells _ _ Hcl).
  pose proof (resolved_all_cells _ _ Hres) as [Hle Hlt]. cbn [fst snd] in *.
  destruct ch1.
  - left. by apply Hlt.
  - right. destruct Hres as (_ & Heq & _). cbn [fst snd] in Heq.
    rewrite (Heq eq_refl) in *. split; [done|].
    rewrite <- (cleaned_cell_sets _ _ Hcl).
    apply (inferred_cell_sets M); [|done|].
    + intros s Hs. apply Htrue. by eapply cleaned_elem_of.
    + by destruct added.
Qed.

Lemma update_knowledge_terminates_measure M :
  ∀ n m ai,
    all_true M ai →
    size (all_cells (MinesweeperAI.knowledge ai)) = n →
    size (powerset (all_cells (MinesweeperAI.knowledge ai))
          ∖ cell_sets (MinesweeperAI.knowledge ai)) = m →
    ∃ depth ai0,
      MinesweeperAI.update_knowledge depth ai = Some (MinesweeperAI.pass ai0).1
      ∧ (MinesweeperAI.pass ai0).2 = false.
Proof.
  induction n as [n IHn] using lt_wf_ind.
  induction m as [m IHm] using lt_wf_ind.
  intros ai Htrue Hn Hm.
  destruct (MinesweeperAI.pass ai).2 eqn:Hch.
  - pose proof (pass_all_true M ai Htrue) as Htrue'.
    destruct (pass_progress M ai Htrue Hch) as [Hlt|[Heq Hlt]].
    + apply subset_size in Hlt.
      destruct (IHn _ ltac:(by rewrite <- Hn) _ _ Htrue' eq_refl eq_refl)
        as (d & ai0 & Hd & Hlast).
      exists (S d), ai0. by rewrite update_knowledge_S, Hch.
    + assert (size (powerset (all_cells (MinesweeperAI.knowledge (MinesweeperAI.pass ai).1))
                    ∖ cell_sets (MinesweeperAI.knowledge (MinesweeperAI.pass ai).1))
              < m)%nat as Hm'.
      { rewrite <- Hm, Heq. apply subset_size.
        destruct Hlt as [Hsub Hnsub]. split; [set_solver|].
        intros Hback. apply Hnsub. intros X HX.
        pose proof (cell_sets_powerset _ _ HX) as HP. rewrite Heq in HP.
        destruct (decide (X ∈ cell_sets (MinesweeperAI.knowledge ai)));
          [done|]. set_solver. }
      destruct (IHm _ Hm' _ Htrue' ltac:(by rewrite Heq) eq_refl)
        as (d & ai0 & Hd & Hlast).
      exists (S d), ai0. by rewrite update_knowledge_S, Hch.
  - exists 1%nat, ai. by rewrite update_knowledge_S, Hch.
Qed.

(** On a square board, from a state reached by operations that agree
    with the board, every further such operation returns. *)
Lemma agreeing_op_returns b ai o :
  Minesweeper.height b = Minesweeper.width b →
  reachable (agrees b) (Minesweeper.height b) (Minesweeper.width b) ai →
  agrees b o →
  ∃ depth ai' r, run_op depth o ai = Some (ai', r).
Proof.
  intros Hsq Hreach Hagree.
  destruct o as [c|c|c n| |rnd]; simpl; try (exists 0%nat; eauto; fail).
  destruct Hagree as [Hc ->].
  pose proof (reachable_sound b ai Hsq Hreach) as Hsound.
  apply reachable_size in Hreach as [Hh Hw].
  assert (sound (mine_set b)
            (MinesweeperAI.add_sentence c (Minesweeper.nearby_mines b c) ai))
    as (Htrue & _ & _).
  { apply add_sentence_sound; [done| |done].
    rewrite nearby_mines_spec, Hh, Hw. by rewrite Hsq. }
  destruct (update_knowledge_terminates_measure (mine_set b) _ _ _ Htrue
              eq_refl eq_refl) as (depth & ai0 & Hrun & _).
  exists depth, (MinesweeperAI.pass ai0).1, None.
  unfold MinesweeperAI.add_knowledge. by rewrite Hrun.
Qed.

(** C4, as amended.  When every sentence of the knowledge base is true of
    one mine layout, [update_knowledge] returns: some recursion depth is
    enough for it to reach a pass that changes nothing, and it returns
    the state after that pass. *)
Theorem update_knowledge_terminates M ai :
  all_true M ai →
  ∃ depth ai0,
    MinesweeperAI.update_knowledge depth ai = Some (MinesweeperAI.pass ai0).1
    ∧ (MinesweeperAI.pass ai0).2 = false.
Proof.
  intros Htrue. by eapply update_knowledge_terminates_measure.
Qed.

(** ** A knowledge base on which [update_knowledge] never stops *)

Lemma two_counts_reachable : reachable any_op 3 3 two_counts.
Proof.
  pose (st1 := MinesweeperAI.mark_safe (1, 1) (MinesweeperAI.init 3 3)).
  pose (st2 := MinesweeperAI.mk 3 3 {[ (0, 0) ]} ∅ {[ (0, 0); (1, 1) ]}
                 [Sentence.mk {[ (0, 1); (1, 0) ]} 4]).
  pose (st3 := MinesweeperAI.mk 3 3 {[ (0, 0) ]} ∅ {[ (0, 0); (1, 1) ]}
                 [Sentence.mk {[ (0, 1); (1, 0) ]} 4;
                  Sentence.mk {[ (0, 1); (1, 0) ]} 7]).
  assert (run_op 0 (MarkSafe (1, 1)) (MinesweeperAI.init 3 3) = Some (st1, None))
    as E1 by reflexivity.
  assert (run_op 1 (AddKnowledge (0, 0) 4) st1 = Some (st2, None))
    as E2 by (vm_compute; reflexivity).
  assert (run_op 1 (AddKnowledge (0, 0) 7) st2 = Some (st3, None))
    as E3 by (vm_compute; reflexivity).
  assert (run_op 0 (MarkSafe (1, 2)) st3 = Some (two_counts, None))
    as E4 by (vm_compute; reflexivity).
  eapply reachable_step; [|exact I|exact E4].
  eapply reachable_step; [|exact I|exact E3].
  eapply reachable_step; [|exact I|exact E2].
  eapply reachable_step; [|exact I|exact E1].
  apply reachable_init.
Qed.

Lemma known_safes_None s : Sentence.count s ≠ 0 → Sentence.known_safes s = None.
Proof.
  intros Hn. destruct (Sentence.known_safes s) eqn:E; [|done].
  apply known_safes_Some in E as (_ & E & _). done.
Qed.

Lemma known_mines_None s :
  Z.of_nat (size (Sentence.cells s)) ≠ Sentence.count s →
  Sentence.known_mines s = None.
Proof.
  intros Hn. destruct (Sentence.known_mines s) eqn:E; [|done].
  apply known_mines_Some in E as (_ & E & _). done.
Qed.

Lemma growing_no_conclusion k s :
  growing k → s ∈ k →
  Sentence.known_safes s = None ∧ Sentence.known_mines s = None
  ∧ Sentence.cells s ≠ ∅.
Proof.
  intros (Hk & _) Hs.
  destruct (Hk s Hs) as [[Hc Hn]|[Hc [q Hn]]].
  - assert (size (Sentence.cells s) = 2%nat) as Hsz by (by rewrite Hc).
    split_and!.
    + apply known_safes_None. lia.
    + apply known_mines_None. lia.
    + rewrite Hc. set_solver.
  - assert (size (Sentence.cells s) = 1%nat) as Hsz
      by (destruct Hc as [-> | ->]; apply size_singleton).
    split_and!.
    + apply known_safes_None. lia.
    + apply known_mines_None. lia.
    + destruct Hc as [-> | ->]; set_solver.
Qed.

Lemma growing_derived k s1 s2 :
  growing k → s1 ∈ k → s2 ∈ k →
  Sentence.cells s1 ⊂ Sentence.cells s2 →
  (Sentence.cells (derived s1 s2) = {[ (0, 1) ]}
   ∨ Sentence.cells (derived s1 s2) = {[ (1, 0) ]})
  ∧ ∃ q, Sentence.count (derived s1 s2) = 3 * q + 2.
Proof.
  intros (Hk & _) Hs1 Hs2 Hsub. simpl.
  destruct (Hk s1 Hs1) as [[Hc1 Hn1]|[Hc1 [q1 Hn1]]];
    destruct (Hk s2 Hs2) as [[Hc2 Hn2]|[Hc2 [q2 Hn2]]].
  - rewrite Hc1, Hc2 in Hsub. by destruct Hsub as [_ []].
  - exfalso. rewrite Hc1 in Hsub. destruct Hsub as [Hsub _].
    destruct Hc2 as [Hc2|Hc2]; rewrite Hc2 in Hsub.
    + specialize (Hsub (1, 0)). set_solver.
    + specialize (Hsub (0, 1)). set_solver.
  - rewrite Hc2, Hn1. split.
    + destruct Hc1 as [-> | ->]; [right|left]; vm_compute; reflexivity.
    + destruct Hn2 as [-> | ->]; [exists (- q1)|exists (1 - q1)]; lia.
  - exfalso. destruct Hsub as [Hsub Hnsub].
    destruct Hc1 as [Hc1|Hc1], Hc2 as [Hc2|Hc2]; rewrite Hc1, Hc2 in *;
      try (by apply Hnsub).
    + specialize (Hsub (0, 1)). set_solver.
    + specialize (Hsub (1, 0)). set_solver.
Qed.

Lemma single_01_strict : ({[ (0, 1) ]} : gset cell) ⊂ {[ (0, 1); (1, 0) ]}.
Proof. apply (bool_decide_unpack _). by vm_compute. Qed.

Lemma single_10_strict : ({[ (1, 0) ]} : gset cell) ⊂ {[ (0, 1); (1, 0) ]}.
Proof. apply (bool_decide_unpack _). by vm_compute. Qed.

Lemma growing_not_closed k :
  growing k →
  ¬ (∀ s1 s2, s1 ∈ k → s2 ∈ k →
              Sentence.cells s1 ⊂ Sentence.cells s2 → derived s1 s2 ∈ k).
Proof.
  intros (Hk & HB4 & HB7 & n & HA) Hclosed.
  assert (∀ m, Sentence.mk {[ (0, 1) ]} m ∈ k →
               Sentence.mk {[ (0, 1) ]} (m - 3) ∈ k) as Hdown.
  { intros m Hm.
    assert (Sentence.mk {[ (1, 0) ]} (7 - m) ∈ k) as Hb.
    { replace (Sentence.mk {[ (1, 0) ]} (7 - m))
        with (derived (Sentence.mk {[ (0, 1) ]} m)
                      (Sentence.mk {[ (0, 1); (1, 0) ]} 7)).
      - apply Hclosed; [done..|]. apply single_01_strict.
      - unfold derived; simpl. f_equal. }
    replace (Sentence.mk {[ (0, 1) ]} (m - 3))
      with (derived (Sentence.mk {[ (1, 0) ]} (7 - m))
                    (Sentence.mk {[ (0, 1); (1, 0) ]} 4)).
    - apply Hclosed; [done..|]. apply single_10_strict.
    - unfold derived; simpl. f_equal. lia. }
  assert (∀ i : nat, Sentence.mk {[ (0, 1) ]} (n - 3 * Z.of_nat i) ∈ k) as Hall.
  { induction i as [|i IH].
    - by replace (n - 3 * Z.of_nat 0) with n by lia.
    - replace (n - 3 * Z.of_nat (S i)) with (n - 3 * Z.of_nat i - 3) by lia.
      by apply Hdown. }
  pose (l := (λ i : nat, Sentence.mk {[ (0, 1) ]} (n - 3 * Z.of_nat i))
               <$> seq 0 (S (length k))).
  assert (length l ≤ length k)%nat as Hlen.
  { apply submseteq_length, NoDup_submseteq.
    - apply NoDup_fmap_2_strong; [|apply NoDup_seq].
      intros i j _ _ [= Hij]. lia.
    - intros x (i & -> & _)%list_elem_of_fmap. apply Hall. }
  unfold l in Hlen. rewrite length_fmap, length_seq in Hlen. lia.
Qed.

Lemma growing_pass ai :
  growing (MinesweeperAI.knowledge ai) →
  (MinesweeperAI.pass ai).2 = true
  ∧ growing (MinesweeperAI.knowledge (MinesweeperAI.pass ai).1).
Proof.
  intros Hg.
  destruct (pass_spec ai)
    as (ai1 & ch1 & k2 & added & Hmk & _ & Hcl & Hinf & Hclosed & ->).
  rewrite mark_known_nothing in Hmk.
  2:{ intros s Hs. destruct (growing_no_conclusion _ s Hg Hs) as (? & ? & _). done. }
  injection Hmk as <- <-.
  assert (k2 = MinesweeperAI.knowledge ai) as ->.
  { destruct Hcl as [[_ ->]|(k1 & s & k2' & Hk & Hs & _)]; [done|].
    destruct (growing_no_conclusion _ s Hg) as (_ & _ & Hne); [|done].
    rewrite Hk. apply elem_of_app. right. by left. }
  cbn [fst snd MinesweeperAI.knowledge MinesweeperAI.set_knowledge]. split.
  - destruct added as [|x added]; [|done]. exfalso.
    apply (growing_not_closed _ Hg). intros s1 s2 Hs1 Hs2 Hsub.
    specialize (Hclosed s1 s2 Hs1 Hs2 Hsub). by rewrite app_nil_r in Hclosed.
  - destruct Hg as (Hk & HB4 & HB7 & n & HA). split_and!.
    + intros s [Hs|Hs]%elem_of_app; [by apply Hk|].
      destruct Hinf as [_ Hinf].
      apply Hinf in Hs as (_ & s1 & s2 & Hs1 & Hs2 & Hsub & ->).
      right. apply (growing_derived (MinesweeperAI.knowledge ai)); [|done..].
      split_and!; [done..|by exists n].
    + apply elem_of_app. by left.
    + apply elem_of_app. by left.
    + exists n. apply elem_of_app. by left.
Qed.

Lemma growing_diverges depth ai :
  growing (MinesweeperAI.knowledge ai) →
  MinesweeperAI.update_knowledge depth ai = None.
Proof.
  revert ai. induction depth as [|d IH]; intros ai Hg; [done|].
  destruct (growing_pass ai Hg) as [Hch Hg'].
  rewrite update_knowledge_S, Hch. by apply IH.
Qed.

(** C4, counterexample.  The state [two_counts] is reached by public
    operations on a three-by-three board; [add_knowledge((0, 2), 2)] then
    never returns from [update_knowledge], whatever the recursion depth:
    each pass derives a sentence that was not there. *)
Lemma update_knowledge_diverges :
  reachable any_op 3 3 two_counts
  ∧ ∀ depth, MinesweeperAI.add_knowledge depth (0, 2) 2 two_counts = None.
Proof.
  split; [apply two_counts_reachable|].
  intros depth. unfold MinesweeperAI.add_knowledge. apply growing_diverges.
  assert (MinesweeperAI.knowledge (MinesweeperAI.add_sentence (0, 2) 2 two_counts)
          = [Sentence.mk {[ (0, 1); (1, 0) ]} 4;
             Sentence.mk {[ (0, 1); (1, 0) ]} 7;
             Sentence.mk {[ (0, 1) ]} 2]) as -> by (vm_compute; reflexivity).
  split_and!.
  - intros s [->|[->|[->|[]%elem_of_nil]%elem_of_cons]%elem_of_cons]%elem_of_cons;
      simpl; [left; auto..|right]. split; [by left|]. exists 0. lia.
  - by left.
  - right. by left.
  - exists 2. right. right. by left.
Qed.

Lemma run_ops_reachable P h w depth ops ai ai' :
  Forall P ops → reachable P h w ai →
  run_ops depth ops ai = Some ai' → reachable P h w ai'.
Proof.
  intros HP. revert ai. induction HP as [|o ops Ho _ IH]; intros ai Hreach Hrun;
    simpl in Hrun.
  - by injection Hrun as <-.
  - destruct (run_op depth o ai) as [[ai1 r]|] eqn:E; [|done].
    apply (IH ai1); [|done]. by eapply reachable_step.
Qed.

(** C5.  On the three-by-three board with mines at [(0, 1)] and [(2, 1)],
    revealing [(0, 0)], [(0, 2)], [(2, 0)], [(2, 2)], [(1, 1)] and
    [(1, 0)] with the board's counts makes six sentences empty in one
    pass; the clean-up loop removes one sentence per pass and only two
    passes run, so [update_knowledge] returns with four empty sentences
    in the knowledge base. *)
Theorem empty_sentences_survive :
  Forall (agrees board_two_mines)
    (reveal board_two_mines <$> [(0, 0); (0, 2); (2, 0); (2, 2); (1, 1); (1, 0)])
  ∧ (MinesweeperAI.knowledge <$>
       run_ops 2 (reveal board_two_mines
                    <$> [(0, 0); (0, 2); (2, 0); (2, 2); (1, 1); (1, 0)])
               (MinesweeperAI.init 3 3))
    = Some [Sentence.mk ∅ 0; Sentence.mk ∅ 0; Sentence.mk ∅ 0; Sentence.mk ∅ 0].
Proof.
  split.
  - repeat constructor; by_computation.
  - vm_compute. reflexivity.
Qed.

(** C6.  On the board with two rows, three columns and no mine, after
    revealing [(1, 0)], [(0, 0)], [(0, 1)] and [(1, 1)] with the board's
    counts, [make_safe_move] returns [(2, 0)], a cell with row index 2
    that is not on the board, although no cell of the board is both in
    [safes] and outside [moves_made].  And on a board with three rows and
    two columns, after [mark_safe((2, 0))] it returns no move although
    the board cell [(2, 0)] is safe and not played. *)
Theorem make_safe_move_off_board :
  Forall (agrees board_no_mine)
    (reveal board_no_mine <$> [(1, 0); (0, 0); (0, 1); (1, 1)])
  ∧ (∃ ai,
      run_ops 2 (reveal board_no_mine <$> [(1, 0); (0, 0); (0, 1); (1, 1)])
              (MinesweeperAI.init 2 3) = Some ai
      ∧ MinesweeperAI.make_safe_move ai = Some (2, 0)
      ∧ ¬ on_board 2 3 (2, 0)
      ∧ Forall (λ x, ¬ (x ∈ MinesweeperAI.safes ai
                        ∧ x ∉ MinesweeperAI.moves_made ai))
               (board_cells 2 3))
  ∧ MinesweeperAI.make_safe_move
      (MinesweeperAI.mark_safe (2, 0) (MinesweeperAI.init 3 2)) = None
  ∧ on_board 3 2 (2, 0)
  ∧ (2, 0) ∈ MinesweeperAI.safes
               (MinesweeperAI.mark_safe (2, 0) (MinesweeperAI.init 3 2))
  ∧ (2, 0) ∉ MinesweeperAI.moves_made
               (MinesweeperAI.mark_safe (2, 0) (MinesweeperAI.init 3 2)).
Proof.
  split_and!.
  - repeat constructor; by_computation.
  - eexists. split; [vm_compute; reflexivity|]. split_and!.
    + vm_compute. reflexivity.
    + by_computation.
    + by_computation.
  - vm_compute. reflexivity.
  - by_computation.
  - by_computation.
  - by_computation.
Qed.

(** C7.  On a board with one row and two columns the pool of a fresh
    agent is [(0, 0); (1, 0)]: it holds the off-board cell [(1, 0)] and
    misses the board cell [(0, 1)].  With a mine at [(0, 1)], after
    revealing [(0, 0)] with the board's count the agent records [(1, 0)]
    as a mine, and [make_random_move] returns no move although the board
    cell [(0, 1)] is neither in [moves_made] nor in [mines]. *)
Theorem make_random_move_misses_cell :
  MinesweeperAI.unknown_cells (MinesweeperAI.init 1 2) = [(0, 0); (1, 0)]
  ∧ board_cells 1 2 = [(0, 0); (0, 1)]
  ∧ agrees board_one_row (reveal board_one_row (0, 0))
  ∧ ∃ ai,
      run_ops 2 [reveal board_one_row (0, 0)] (MinesweeperAI.init 1 2) = Some ai
      ∧ (∀ rnd, MinesweeperAI.make_random_move rnd ai = None)
      ∧ on_board 1 2 (0, 1)
      ∧ ((0, 1) ∉ MinesweeperAI.moves_made ai)
      ∧ (0, 1) ∉ MinesweeperAI.mines ai.
Proof.
  split_and!.
  - vm_compute. reflexivity.
  - vm_compute. reflexivity.
  - split; [by_computation|done].
  - eexists. split; [vm_compute; reflexivity|]. split_and!.
    + intros rnd. unfold MinesweeperAI.make_random_move.
      replace (MinesweeperAI.unknown_cells _) with (@nil cell)
        by (vm_compute; reflexivity).
      done.
    + by_computation.
    + by_computation.
    + by_computation.
Qed.

(** C9.  On the board with two rows and three columns and mines at
    [(0, 1)], [(1, 1)] and [(1, 2)], revealing [(0, 2)] and [(0, 0)] with
    the board's counts 3 and 2 leaves the sentence [{(0, 1), (1, 1)} = 3],
    whose count exceeds its two cells, and subset resolution creates
    [{(1, 0)} = -1], whose count is negative. *)
Theorem count_leaves_range :
  Forall (agrees board_three_mines)
    (reveal board_three_mines <$> [(0, 2); (0, 0)])
  ∧ (MinesweeperAI.knowledge <$>
       run_ops 2 (reveal board_three_mines <$> [(0, 2); (0, 0)])
               (MinesweeperAI.init 2 3))
    = Some [Sentence.mk {[ (0, 1); (1, 1) ]} 3;
            Sentence.mk {[ (0, 1); (1, 0); (1, 1) ]} 2;
            Sentence.mk {[ (1, 0) ]} (-1)]
  ∧ ¬ count_in_range (Sentence.mk {[ (0, 1); (1, 1) ]} 3)
  ∧ ¬ count_in_range (Sentence.mk {[ (1, 0) ]} (-1)).
Proof.
  split_and!.
  - repeat constructor; by_computation.
  - vm_compute. reflexivity.
  - unfold count_in_range. change (¬ (0 ≤ 3 ≤ Z.of_nat 2)). lia.
  - unfold count_in_range; simpl. lia.
Qed.

(** ** Subset resolution, worked example *)

Lemma infer_pair_same acc s : MinesweeperAI.infer_pair acc s s = acc.
Proof.
  unfold MinesweeperAI.infer_pair.
  by rewrite (proj2 (sentence_eqb_eq s s) eq_refl).
Qed.

Lemma infer_pair_not_subset acc s1 s2 :
  ¬ Sentence.cells s1 ⊂ Sentence.cells s2 →
  MinesweeperAI.infer_pair acc s1 s2 = acc.
Proof.
  intros Hsub. unfold MinesweeperAI.infer_pair.
  rewrite (bool_decide_eq_false_2 _ Hsub). by destruct (negb _).
Qed.

Lemma infer_pair_new acc s1 s2 :
  Sentence.cells s1 ⊂ Sentence.cells s2 → derived s1 s2 ∉ acc.1 →
  MinesweeperAI.infer_pair acc s1 s2 = (acc.1 ++ [derived s1 s2], true).
Proof.
  intros Hsub Hnew. unfold MinesweeperAI.infer_pair. fold (derived s1 s2).
  assert (Sentence.eqb s1 s2 = false) as ->.
  { apply sentence_eqb_neq. intros ->. by destruct Hsub as [_ []]. }
  rewrite (bool_decide_eq_true_2 _ Hsub). simpl.
  assert (existsb (Sentence.eqb (derived s1 s2)) acc.1 = false) as ->; [|done].
  destruct (existsb _ _) eqn:E; [|done]. by apply existsb_eqb_elem_of in E.
Qed.

Lemma visit_nothing ai ch i s :
  MinesweeperAI.knowledge ai !! i = Some s →
  Sentence.known_safes s = None → Sentence.known_mines s = None →
  MinesweeperAI.visit (ai, ch) i = (ai, ch).
Proof.
  intros Hi Hs Hm.
  unfold MinesweeperAI.visit, MinesweeperAI.resolve_safes; cbn [fst snd].
  rewrite Hi, Hs; cbn [fst snd].
  unfold MinesweeperAI.resolve_mines. rewrite Hi, Hm; cbn [fst snd].
  by rewrite !orb_false_r.
Qed.

Lemma visit_mines ai ch i s X :
  MinesweeperAI.knowledge ai !! i = Some s →
  Sentence.known_safes s = None → Sentence.known_mines s = Some X →
  MinesweeperAI.visit (ai, ch) i = (mark_mines X ai, true).
Proof.
  intros Hi Hs Hm.
  unfold MinesweeperAI.visit, MinesweeperAI.resolve_safes; cbn [fst snd].
  rewrite Hi, Hs; cbn [fst snd].
  destruct (resolve_mines_cases i ai) as [E|(s' & X' & Hi' & Hm' & E)].
  - unfold MinesweeperAI.resolve_mines in E. rewrite Hi, Hm in E. done.
  - rewrite E; cbn [fst snd]. rewrite orb_true_r.
    rewrite Hi in Hi'. injection Hi' as <-. rewrite Hm in Hm'.
    by injection Hm' as <-.
Qed.

Lemma size_pair (a b : cell) : a ≠ b → size ({[ a; b ]} : gset cell) = 2%nat.
Proof. intros. rewrite size_union, !size_singleton by set_solver. done. Qed.

Lemma size_triple (a b c : cell) :
  a ≠ b → a ≠ c → b ≠ c → size ({[ a; b; c ]} : gset cell) = 3%nat.
Proof.
  intros Hab Hac Hbc. rewrite size_union by set_solver.
  rewrite (size_pair a b Hab), size_singleton. done.
Qed.

Lemma no_conclusion_pair (a b : cell) :
  a ≠ b →
  Sentence.known_safes (Sentence.mk {[ a; b ]} 1) = None
  ∧ Sentence.known_mines (Sentence.mk {[ a; b ]} 1) = None.
Proof.
  intros. split; [by apply known_safes_None|].
  apply known_mines_None. cbn [Sentence.cells Sentence.count].
  rewrite (size_pair a b) by done. lia.
Qed.

Lemma no_conclusion_triple (a b c : cell) :
  a ≠ b → a ≠ c → b ≠ c →
  Sentence.known_safes (Sentence.mk {[ a; b; c ]} 2) = None
  ∧ Sentence.known_mines (Sentence.mk {[ a; b; c ]} 2) = None.
Proof.
  intros. split; [by apply known_safes_None|].
  apply known_mines_None. cbn [Sentence.cells Sentence.count].
  rewrite (size_triple a b c) by done. lia.
Qed.

(** First pass: nothing resolves, [{c} = 1] is derived. *)
Lemma example_first_pass (a b c : cell) h w moves mines safes :
  a ≠ b → a ≠ c → b ≠ c →
  MinesweeperAI.pass
    (MinesweeperAI.mk h w moves mines safes
       [Sentence.mk {[ a; b ]} 1; Sentence.mk {[ a; b; c ]} 2])
  = (MinesweeperAI.mk h w moves mines safes
       [Sentence.mk {[ a; b ]} 1; Sentence.mk {[ a; b; c ]} 2;
        Sentence.mk {[ c ]} 1], true).
Proof.
  intros Hab Hac Hbc. unfold MinesweeperAI.pass.
  rewrite mark_known_nothing.
  2:{ intros s [->|[->|[]%elem_of_nil]%elem_of_cons]%elem_of_cons;
        [by apply no_conclusion_pair|by apply no_conclusion_triple]. }
  cbn [fst snd].
  assert (MinesweeperAI.remove_empty
            (MinesweeperAI.mk h w moves mines safes
               [Sentence.mk {[ a; b ]} 1; Sentence.mk {[ a; b; c ]} 2])
          = MinesweeperAI.mk h w moves mines safes
              [Sentence.mk {[ a; b ]} 1; Sentence.mk {[ a; b; c ]} 2]) as ->.
  { unfold MinesweeperAI.remove_empty.
    cbn [List.find MinesweeperAI.knowledge Sentence.cells].
    rewrite (size_pair a b), (size_triple a b c) by done. done. }
  unfold MinesweeperAI.infer_subsets.
  cbn [foldl MinesweeperAI.knowledge MinesweeperAI.set_knowledge].
  assert (derived (Sentence.mk {[ a; b ]} 1) (Sentence.mk {[ a; b; c ]} 2)
          = Sentence.mk {[ c ]} 1) as Hd.
  { unfold derived; simpl. f_equal. set_solver. }
  rewrite (infer_pair_same _ (Sentence.mk {[ a; b ]} 1)).
  rewrite (infer_pair_new _ (Sentence.mk {[ a; b ]} 1) (Sentence.mk {[ a; b; c ]} 2)).
  - rewrite (infer_pair_not_subset _ (Sentence.mk {[ a; b; c ]} 2)
               (Sentence.mk {[ a; b ]} 1)).
    + rewrite infer_pair_same, Hd. done.
    + cbn [Sentence.cells]. intros [Hsub _]. specialize (Hsub c). set_solver.
  - cbn [Sentence.cells].
    split; [set_solver|]. intros Hsub. specialize (Hsub c). set_solver.
  - rewrite Hd. cbn [fst].
    intros [Hin|[Hin|[]%elem_of_nil]%elem_of_cons]%elem_of_cons.
    + apply (f_equal Sentence.cells) in Hin. cbn [Sentence.cells] in Hin.
      assert (a ∈ ({[ c ]} : gset cell)) by (rewrite Hin; set_solver).
      set_solver.
    + apply (f_equal Sentence.count) in Hin. done.
Qed.

Lemma remove_mines_example (a b c : cell) :
  a ≠ c → b ≠ c →
  remove_mines {[ c ]}
    <$> [Sentence.mk {[ a; b ]} 1; Sentence.mk {[ a; b; c ]} 2;
         Sentence.mk {[ c ]} 1]
  = [Sentence.mk {[ a; b ]} 1; Sentence.mk {[ a; b ]} 1; Sentence.mk ∅ 0].
Proof.
  intros Hac Hbc. unfold remove_mines.
  cbn [fmap list_fmap Sentence.cells Sentence.count].
  assert ((({[ a; b ]} : gset cell) ∩ {[ c ]}) = ∅) as -> by set_solver.
  assert ((({[ a; b; c ]} : gset cell) ∩ {[ c ]}) = {[ c ]}) as -> by set_solver.
  assert ((({[ c ]} : gset cell) ∩ {[ c ]}) = {[ c ]}) as -> by set_solver.
  assert ((({[ a; b ]} : gset cell) ∖ {[ c ]}) = {[ a; b ]}) as -> by set_solver.
  assert ((({[ a; b; c ]} : gset cell) ∖ {[ c ]}) = {[ a; b ]}) as -> by set_solver.
  assert ((({[ c ]} : gset cell) ∖ {[ c ]}) = ∅) as -> by set_solver.
  rewrite size_empty, size_singleton. done.
Qed.

(** Second pass: [{c} = 1] resolves, [c] becomes a mine, the emptied
    sentence is removed. *)
Lemma example_second_pass (a b c : cell) h w moves mines safes :
  a ≠ b → a ≠ c → b ≠ c →
  MinesweeperAI.pass
    (MinesweeperAI.mk h w moves mines safes
       [Sentence.mk {[ a; b ]} 1; Sentence.mk {[ a; b; c ]} 2;
        Sentence.mk {[ c ]} 1])
  = (MinesweeperAI.mk h w moves ({[ c ]} ∪ mines) safes
       [Sentence.mk {[ a; b ]} 1; Sentence.mk {[ a; b ]} 1], true).
Proof.
  intros Hab Hac Hbc. unfold MinesweeperAI.pass.
  assert (MinesweeperAI.mark_known
            (MinesweeperAI.mk h w moves mines safes
               [Sentence.mk {[ a; b ]} 1; Sentence.mk {[ a; b; c ]} 2;
                Sentence.mk {[ c ]} 1])
          = (MinesweeperAI.mk h w moves ({[ c ]} ∪ mines) safes
               [Sentence.mk {[ a; b ]} 1; Sentence.mk {[ a; b ]} 1;
                Sentence.mk ∅ 0], true)) as ->.
  { unfold MinesweeperAI.mark_known.
    cbn [MinesweeperAI.knowledge length seq foldl].
    destruct (no_conclusion_pair a b Hab) as [H1 H2].
    destruct (no_conclusion_triple a b c Hab Hac Hbc) as [H3 H4].
    rewrite (visit_nothing _ _ 0%nat (Sentence.mk {[ a; b ]} 1)) by done.
    rewrite (visit_nothing _ _ 1%nat (Sentence.mk {[ a; b; c ]} 2)) by done.
    rewrite (visit_mines _ _ 2%nat (Sentence.mk {[ c ]} 1) {[ c ]}); [|done| |].
    - f_equal. unfold mark_mines.
      cbn [MinesweeperAI.height MinesweeperAI.width MinesweeperAI.moves_made
           MinesweeperAI.mines MinesweeperAI.safes MinesweeperAI.knowledge].
      by rewrite remove_mines_example.
    - by apply known_safes_None.
    - apply known_mines_Some. cbn [Sentence.cells Sentence.count].
      rewrite size_singleton. done. }
  cbn [fst snd].
  assert (MinesweeperAI.remove_empty
            (MinesweeperAI.mk h w moves ({[ c ]} ∪ mines) safes
               [Sentence.mk {[ a; b ]} 1; Sentence.mk {[ a; b ]} 1;
                Sentence.mk ∅ 0])
          = MinesweeperAI.mk h w moves ({[ c ]} ∪ mines) safes
              [Sentence.mk {[ a; b ]} 1; Sentence.mk {[ a; b ]} 1]) as ->.
  { unfold MinesweeperAI.remove_empty.
    cbn [List.find MinesweeperAI.knowledge Sentence.cells].
    rewrite (size_pair a b), size_empty by done.
    rewrite (bool_decide_eq_false_2 (2%nat = 0%nat)) by done.
    rewrite (bool_decide_eq_true_2 (0%nat = 0%nat)) by done.
    unfold MinesweeperAI.set_knowledge.
    cbn [MinesweeperAI.height MinesweeperAI.width MinesweeperAI.moves_made
         MinesweeperAI.mines MinesweeperAI.safes MinesweeperAI.knowledge
         MinesweeperAI.list_remove].
    assert (Sentence.eqb (Sentence.mk {[ a; b ]} 1) (Sentence.mk ∅ 0) = false)
      as ->.
    { apply sentence_eqb_neq. intros Heq. apply (f_equal Sentence.count) in Heq.
      done. }
    by rewrite (proj2 (sentence_eqb_eq _ _) eq_refl). }
  unfold MinesweeperAI.infer_subsets.
  cbn [foldl MinesweeperAI.knowledge MinesweeperAI.set_knowledge].
  by rewrite !infer_pair_same.
Qed.

(** Third pass: nothing changes. *)
Lemma example_third_pass (a b : cell) h w moves mines safes :
  a ≠ b →
  MinesweeperAI.pass
    (MinesweeperAI.mk h w moves mines safes
       [Sentence.mk {[ a; b ]} 1; Sentence.mk {[ a; b ]} 1])
  = (MinesweeperAI.mk h w moves mines safes
       [Sentence.mk {[ a; b ]} 1; Sentence.mk {[ a; b ]} 1], false).
Proof.
  intros Hab. unfold MinesweeperAI.pass.
  rewrite mark_known_nothing.
  2:{ intros s [->|[->|[]%elem_of_nil]%elem_of_cons]%elem_of_cons;
        by apply no_conclusion_pair. }
  cbn [fst snd].
  assert (MinesweeperAI.remove_empty
            (MinesweeperAI.mk h w moves mines safes
               [Sentence.mk {[ a; b ]} 1; Sentence.mk {[ a; b ]} 1])
          = MinesweeperAI.mk h w moves mines safes
              [Sentence.mk {[ a; b ]} 1; Sentence.mk {[ a; b ]} 1]) as ->.
  { unfold MinesweeperAI.remove_empty.
    cbn [List.find MinesweeperAI.knowledge Sentence.cells].
    rewrite (size_pair a b) by done. done. }
  unfold MinesweeperAI.infer_subsets.
  cbn [foldl MinesweeperAI.knowledge MinesweeperAI.set_knowledge].
  by rewrite !infer_pair_same.
Qed.

Lemma infer_subsets_exact k ch :
  ∃ added,
    MinesweeperAI.infer_subsets k ch
    = (k ++ added, match added with [] => ch | _ => true end)
    ∧ NoDup added
    ∧ ∀ x, x ∈ added ↔
        (x ∉ k) ∧ ∃ s1 s2, s1 ∈ k ∧ s2 ∈ k ∧ s1 ≠ s2
                   ∧ Sentence.cells s1 ⊂ Sentence.cells s2
                   ∧ x = derived s1 s2.
Proof.
  destruct (infer_subsets_spec k ch) as [(added & H1 & H2 & Hnd & Hadded) Hclosed].
  exists added. split_and!; [|done|].
  - destruct (MinesweeperAI.infer_subsets k ch); simpl in *. by subst.
  - intros x. split.
    + intros Hx. destruct (Hadded x Hx) as (Hxk & s1 & s2 & Hs1 & Hs2 & Hsub & ->).
      split; [done|]. exists s1, s2. split_and!; try done.
      intros ->. by destruct Hsub as [_ []].
    + intros (Hxk & s1 & s2 & Hs1 & Hs2 & _ & Hsub & ->).
      specialize (Hclosed s1 s2 Hs1 Hs2 Hsub). rewrite H1 in Hclosed.
      apply elem_of_app in Hclosed as [?|?]; done.
Qed.

(** C3.  In each pass, with [k] the knowledge base after the first two
    loops, the third loop appends to [k] the sentences [B.cells - A.cells
    = B.count - A.count] derived from the pairs of distinct sentences
    [A], [B] of [k] with [A.cells] strictly included in [B.cells]: every
    such sentence that is not in [k] is appended, once, and nothing else
    is.  In particular from [{a, b} = 1] and [{a, b, c} = 2] the first
    pass derives [{c} = 1], and [update_knowledge] returns with [c] in
    [mines]. *)
Theorem subset_resolution_spec :
  (∀ ai, ∃ added,
     let k := MinesweeperAI.knowledge
                (MinesweeperAI.remove_empty (MinesweeperAI.mark_known ai).1) in
     MinesweeperAI.knowledge (MinesweeperAI.pass ai).1 = k ++ added
     ∧ NoDup added
     ∧ ∀ x, x ∈ added ↔
         (x ∉ k) ∧ ∃ s1 s2, s1 ∈ k ∧ s2 ∈ k ∧ s1 ≠ s2
                    ∧ Sentence.cells s1 ⊂ Sentence.cells s2
                    ∧ x = derived s1 s2)
  ∧ (∀ (a b c : cell) h w moves mines safes,
       a ≠ b → a ≠ c → b ≠ c →
       let ai := MinesweeperAI.mk h w moves mines safes
                   [Sentence.mk {[ a; b ]} 1; Sentence.mk {[ a; b; c ]} 2] in
       Sentence.mk {[ c ]} 1 ∈ MinesweeperAI.knowledge (MinesweeperAI.pass ai).1
       ∧ ∃ ai', MinesweeperAI.update_knowledge 3 ai = Some ai'
                ∧ c ∈ MinesweeperAI.mines ai').
Proof.
  split.
  - intros ai. unfold MinesweeperAI.pass. cbn zeta.
    destruct (infer_subsets_exact
                (MinesweeperAI.knowledge
                   (MinesweeperAI.remove_empty (MinesweeperAI.mark_known ai).1))
                (MinesweeperAI.mark_known ai).2) as (added & -> & Hnd & Hadded).
    by exists added.
  - intros a b c h w moves mines safes Hab Hac Hbc ai. subst ai. split.
    + rewrite example_first_pass by done. simpl. set_solver.
    + eexists. split.
      * rewrite update_knowledge_S, example_first_pass by done. cbn [fst snd].
        rewrite update_knowledge_S, example_second_pass by done. cbn [fst snd].
        rewrite update_knowledge_S, example_third_pass by done. cbn [fst snd].
        reflexivity.
      * simpl. set_solver.
Qed.

(** The example of C3 on the cells [(0, 0)], [(0, 1)] and [(0, 2)]. *)
Lemma subset_resolution_spec_witness :
  ((0, 0) : cell) ≠ (0, 1) ∧ ((0, 0) : cell) ≠ (0, 2)
  ∧ ((0, 1) : cell) ≠ (0, 2)
  ∧ Sentence.mk {[ (0, 2) ]} 1
      ∈ MinesweeperAI.knowledge
          (MinesweeperAI.pass
             (MinesweeperAI.mk 3 3 ∅ ∅ ∅
                [Sentence.mk {[ (0, 0); (0, 1) ]} 1;
                 Sentence.mk {[ (0, 0); (0, 1); (0, 2) ]} 2])).1
  ∧ ∃ ai', MinesweeperAI.update_knowledge 3
             (MinesweeperAI.mk 3 3 ∅ ∅ ∅
                [Sentence.mk {[ (0, 0); (0, 1) ]} 1;
                 Sentence.mk {[ (0, 0); (0, 1); (0, 2) ]} 2]) = Some ai'
           ∧ (0, 2) ∈ MinesweeperAI.mines ai'.
Proof.
  assert (((0, 0) : cell) ≠ (0, 1)) as H1 by discriminate.
  assert (((0, 0) : cell) ≠ (0, 2)) as H2 by discriminate.
  assert (((0, 1) : cell) ≠ (0, 2)) as H3 by discriminate.
  split_and!; [done..| |].
  - exact (proj1 (proj2 subset_resolution_spec (0, 0) (0, 1) (0, 2) 3 3 ∅ ∅ ∅
                    H1 H2 H3)).
  - exact (proj2 (proj2 subset_resolution_spec (0, 0) (0, 1) (0, 2) 3 3 ∅ ∅ ∅
                    H1 H2 H3)).
Defined.

(** C10 on the first reveal of a three-by-three game without mines
    around the centre. *)
Lemma public_operations_monotone_witness :
  run_op 2 (AddKnowledge (1, 1) 0) (MinesweeperAI.init 3 3)
  = Some (MinesweeperAI.mk 3 3 {[ (1, 1) ]} ∅
            (list_to_set (board_cells 3 3)) [], None)
  ∧ MinesweeperAI.moves_made (MinesweeperAI.init 3 3) ⊆ {[ (1, 1) ]}
  ∧ MinesweeperAI.safes (MinesweeperAI.init 3 3) ⊆ list_to_set (board_cells 3 3)
  ∧ MinesweeperAI.mines (MinesweeperAI.init 3 3) ⊆ ∅.
Proof.
  assert (run_op 2 (AddKnowledge (1, 1) 0) (MinesweeperAI.init 3 3)
          = Some (MinesweeperAI.mk 3 3 {[ (1, 1) ]} ∅
                    (list_to_set (board_cells 3 3)) [], None)) as Hrun
    by (vm_compute; reflexivity).
  split; [exact Hrun|].
  exact (public_operations_monotone 2 (AddKnowledge (1, 1) 0)
           (MinesweeperAI.init 3 3) _ None Hrun).
Defined.

(** C4 on the knowledge base after revealing the corner [(0, 0)] of the
    board with mines at [(0, 1)] and [(2, 1)]. *)
Lemma update_knowledge_terminates_witness :
  all_true (mine_set board_two_mines)
    (MinesweeperAI.mk 3 3 {[ (0, 0) ]} ∅ {[ (0, 0) ]}
       [Sentence.mk {[ (0, 1); (1, 0); (1, 1) ]} 1])
  ∧ ∃ depth ai0,
      MinesweeperAI.update_knowledge depth
        (MinesweeperAI.mk 3 3 {[ (0, 0) ]} ∅ {[ (0, 0) ]}
           [Sentence.mk {[ (0, 1); (1, 0); (1, 1) ]} 1])
      = Some (MinesweeperAI.pass ai0).1
      ∧ (MinesweeperAI.pass ai0).2 = false.
Proof.
  assert (all_true (mine_set board_two_mines)
            (MinesweeperAI.mk 3 3 {[ (0, 0) ]} ∅ {[ (0, 0) ]}
               [Sentence.mk {[ (0, 1); (1, 0); (1, 1) ]} 1])) as Htrue.
  { intros s Hs. apply list_elem_of_singleton in Hs. subst s.
    unfold true_of. vm_compute. reflexivity. }
  split; [exact Htrue|].
  exact (update_knowledge_terminates _ _ Htrue).
Defined.

(** C2 after three reveals on the board with mines at [(0, 1)] and
    [(2, 1)]. *)
Lemma no_regression_invariant_witness :
  ∃ ai,
    run_ops 2 (reveal board_two_mines <$> [(0, 0); (0, 2); (2, 0)])
            (MinesweeperAI.init 3 3) = Some ai
    ∧ no_resolved_cell ai
    ∧ MinesweeperAI.safes ai ## MinesweeperAI.mines ai.
Proof.
  assert (Forall (agrees board_two_mines)
            (reveal board_two_mines <$> [(0, 0); (0, 2); (2, 0)])) as Hagree
    by (repeat constructor; by_computation).
  destruct (run_ops 2 (reveal board_two_mines <$> [(0, 0); (0, 2); (2, 0)])
                    (MinesweeperAI.init 3 3)) as [ai|] eqn:Hrun;
    [|vm_compute in Hrun; discriminate].
  exists ai. split; [done|]. split.
  - apply (proj1 no_regression_invariant 3 3).
    eapply run_ops_reachable; [|apply reachable_init|exact Hrun].
    apply Forall_forall. intros o _. exact I.
  - apply (proj2 no_regression_invariant board_two_mines ai); [reflexivity|].
    eapply run_ops_reachable; [exact Hagree|apply reachable_init|exact Hrun].
Defined.

(** ** Moves *)

Lemma find_first {A} (p : A → bool) (l : list A) :
  match List.find p l with
  | Some x => ∃ pre post, l = pre ++ x :: post ∧ p x = true
                ∧ ∀ y, y ∈ pre → p y = false
  | None => ∀ y, y ∈ l → p y = false
  end.
Proof.
  induction l as [|y l IH]; simpl.
  - intros y Hy. by apply elem_of_nil in Hy.
  - destruct (p y) eqn:Hpy.
    + exists [], l. split_and!; [done..|]. intros z Hz. by apply elem_of_nil in Hz.
    + destruct (List.find p l) as [x|].
      * destruct IH as (pre & post & -> & Hx & Hpre).
        exists (y :: pre), post. split_and!; [done..|].
        intros z [->|Hz]%elem_of_cons; auto.
      * intros z [->|Hz]%elem_of_cons; auto.
Qed.

Lemma elem_of_scan ai x :
  x ∈ MinesweeperAI.scan ai
  ↔ on_board (MinesweeperAI.width ai) (MinesweeperAI.height ai) x.
Proof.
  change (MinesweeperAI.scan ai)
    with (board_cells (MinesweeperAI.width ai) (MinesweeperAI.height ai)).
  apply elem_of_board_cells.
Qed.

(** [make_safe_move] returns the first cell in scanning order that is
    safe and not yet played, among the cells with first component below
    [width] and second component below [height]. *)
Lemma make_safe_move_spec ai :
  match MinesweeperAI.make_safe_move ai with
  | Some x =>
      ∃ pre post,
        board_cells (MinesweeperAI.width ai) (MinesweeperAI.height ai)
        = pre ++ x :: post
        ∧ x ∈ MinesweeperAI.safes ai ∧ (x ∉ MinesweeperAI.moves_made ai)
        ∧ ∀ y, y ∈ pre →
               ¬ (y ∈ MinesweeperAI.safes ai ∧ y ∉ MinesweeperAI.moves_made ai)
  | None =>
      ∀ y, on_board (MinesweeperAI.width ai) (MinesweeperAI.height ai) y →
           ¬ (y ∈ MinesweeperAI.safes ai ∧ y ∉ MinesweeperAI.moves_made ai)
  end.
Proof.
  unfold MinesweeperAI.make_safe_move.
  pose proof (find_first
    (λ ij, bool_decide (ij ∉ MinesweeperAI.moves_made ai)
           && bool_decide (ij ∈ MinesweeperAI.safes ai))
    (MinesweeperAI.scan ai)) as H.
  destruct (List.find _ _) as [x|].
  - destruct H as (pre & post & Hscan & Hx & Hpre).
    exists pre, post. split_and!.
    + done.
    + apply andb_true_iff in Hx as [_ Hx]. by apply bool_decide_eq_true in Hx.
    + apply andb_true_iff in Hx as [Hx _]. by apply bool_decide_eq_true in Hx.
    + intros y Hy [Hs Hm]. apply Hpre in Hy.
      apply andb_false_iff in Hy as [Hy|Hy]; apply bool_decide_eq_false in Hy; done.
  - intros y Hy%elem_of_scan [Hs Hm]. apply H in Hy.
    apply andb_false_iff in Hy as [Hy|Hy]; apply bool_decide_eq_false in Hy; done.
Qed.

(** On a square board [make_safe_move] returns no move exactly when no
    cell of the board is safe and not yet played. *)
Lemma make_safe_move_square ai :
  MinesweeperAI.height ai = MinesweeperAI.width ai →
  MinesweeperAI.make_safe_move ai = None
  ↔ ∀ y, on_board (MinesweeperAI.height ai) (MinesweeperAI.width ai) y →
         ¬ (y ∈ MinesweeperAI.safes ai ∧ y ∉ MinesweeperAI.moves_made ai).
Proof.
  intros Hsq. pose proof (make_safe_move_spec ai) as H. rewrite Hsq.
  destruct (MinesweeperAI.make_safe_move ai) as [x|].
  2:{ rewrite Hsq in H. by split. }
  destruct H as (pre & post & Hcells & Hs & Hm & _). split; [done|].
  intros Hnone. exfalso. apply (Hnone x); [|done].
  apply elem_of_board_cells. rewrite Hsq in Hcells. rewrite Hcells.
  apply elem_of_app. right. by left.
Qed.

Lemma elem_of_unknown_cells ai x :
  x ∈ MinesweeperAI.unknown_cells ai
  ↔ on_board (MinesweeperAI.width ai) (MinesweeperAI.height ai) x
    ∧ (x ∉ MinesweeperAI.moves_made ai) ∧ x ∉ MinesweeperAI.mines ai.
Proof.
  unfold MinesweeperAI.unknown_cells.
  rewrite list_elem_of_In, filter_In, <- list_elem_of_In, elem_of_scan,
    andb_true_iff, !bool_decide_eq_true. tauto.
Qed.

(** [make_random_move] returns a member of the pool of cells that are
    neither played nor known mines, and no move exactly when the pool is
    empty; every member of the pool is returned for some draw. *)
Lemma make_random_move_spec ai :
  (∀ rnd x, MinesweeperAI.make_random_move rnd ai = Some x →
            x ∈ MinesweeperAI.unknown_cells ai)
  ∧ (∀ rnd, MinesweeperAI.make_random_move rnd ai = None
            ↔ MinesweeperAI.unknown_cells ai = [])
  ∧ (∀ x, x ∈ MinesweeperAI.unknown_cells ai →
          ∃ rnd, MinesweeperAI.make_random_move rnd ai = Some x).
Proof.
  unfold MinesweeperAI.make_random_move.
  set (l := MinesweeperAI.unknown_cells ai). split_and!.
  - intros rnd x. case_bool_decide; [|done].
    intros Hx. by eapply list_elem_of_lookup_2.
  - intros rnd. case_bool_decide as Hlen.
    + split.
      * intros Hnone. apply lookup_ge_None in Hnone.
        pose proof (Nat.mod_upper_bound rnd (length l)). lia.
      * intros Hl. rewrite Hl in Hlen. simpl in Hlen. lia.
    + split; [|done]. intros _. destruct l; [done|simpl in Hlen; lia].
  - intros x (i & Hi)%list_elem_of_lookup_1.
    pose proof (lookup_lt_Some _ _ _ Hi) as Hlt.
    exists i. rewrite bool_decide_eq_true_2 by lia.
    by rewrite Nat.mod_small.
Qed.

(** ** The board: constructor, [won], [is_mine] and [nearby_mines] *)

Lemma index_nonneg {A} (l : list A) i :
  0 ≤ i → Minesweeper.index l i = l !! Z.to_nat i.
Proof. intros. unfold Minesweeper.index. by rewrite bool_decide_eq_true_2. Qed.

Lemma index_negative {A} (l : list A) i :
  i < 0 →
  Minesweeper.index l i
  = if bool_decide (- Z.of_nat (length l) ≤ i)
    then l !! Z.to_nat (Z.of_nat (length l) + i) else None.
Proof. intros. unfold Minesweeper.index. rewrite bool_decide_eq_false_2; [done|lia]. Qed.

Lemma index_is_Some {A} (l : list A) i :
  is_Some (Minesweeper.index l i)
  ↔ - Z.of_nat (length l) ≤ i < Z.of_nat (length l).
Proof.
  destruct (decide (0 ≤ i)).
  - rewrite index_nonneg by done. rewrite lookup_lt_is_Some. lia.
  - rewrite index_negative by lia. case_bool_decide.
    + rewrite lookup_lt_is_Some. lia.
    + split; [by intros [? ?]|lia].
Qed.

Lemma board_at_lookup b i j row :
  0 ≤ i → 0 ≤ j →
  Minesweeper.board b !! Z.to_nat i = Some row →
  row !! Z.to_nat j = Some (Minesweeper.board_at b i j) ∨
  (row !! Z.to_nat j = None ∧ Minesweeper.board_at b i j = false).
Proof.
  intros _ _ Hrow. unfold Minesweeper.board_at. rewrite Hrow.
  destruct (row !! Z.to_nat j); auto.
Qed.

Lemma rectangular_row b i :
  rectangular b → 0 ≤ i < Minesweeper.height b →
  ∃ row, Minesweeper.board b !! Z.to_nat i = Some row
         ∧ length row = Z.to_nat (Minesweeper.width b).
Proof.
  intros [Hlen Hrows] Hi.
  destruct (lookup_lt_is_Some_2 (Minesweeper.board b) (Z.to_nat i)) as [row Hrow];
    [lia|].
  exists row. split; [done|].
  rewrite Forall_forall in Hrows. apply Hrows. by eapply list_elem_of_lookup_2.
Qed.

Lemma is_mine_on_board b x :
  rectangular b →
  on_board (Minesweeper.height b) (Minesweeper.width b) x →
  Minesweeper.is_mine b x = Some (Minesweeper.board_at b x.1 x.2).
Proof.
  intros Hrect [Hi Hj].
  destruct (rectangular_row b x.1 Hrect Hi) as (row & Hrow & Hlen).
  unfold Minesweeper.is_mine, Minesweeper.board_at.
  rewrite index_nonneg by lia. rewrite Hrow.
  rewrite index_nonneg by lia.
  destruct (lookup_lt_is_Some_2 row (Z.to_nat x.2)) as [v Hv]; [lia|].
  by rewrite Hv.
Qed.

Lemma length_range a b : length (range a b) = Z.to_nat (b - a).
Proof. unfold range. by rewrite length_seqZ. Qed.

Lemma placed_empty h w : placed h w ∅ (Minesweeper.empty_board h w).
Proof.
  split; [split|split].
  - cbn. unfold Minesweeper.empty_board. rewrite length_fmap, length_range.
    f_equal. lia.
  - cbn. unfold Minesweeper.empty_board. rewrite Forall_fmap.
    apply Forall_forall. intros i _. cbn.
    rewrite length_fmap, length_range. f_equal. lia.
  - intros x _. split; [|set_solver].
    unfold Minesweeper.board_at, Minesweeper.empty_board. cbn.
    rewrite list_lookup_fmap.
    destruct (range 0 h !! Z.to_nat x.1); cbn; [|done].
    rewrite list_lookup_fmap.
    destruct (range 0 w !! Z.to_nat x.2); cbn; done.
  - set_solver.
Qed.

Lemma board_at_set_mine h w rows i j x :
  rectangular (Minesweeper.mk h w rows) →
  0 ≤ i < h → 0 ≤ j < w → 0 ≤ x.1 → 0 ≤ x.2 →
  Minesweeper.board_at (Minesweeper.mk h w (Minesweeper.set_mine rows i j)) x.1 x.2
  = if bool_decide (x = (i, j)) then true
    else Minesweeper.board_at (Minesweeper.mk h w rows) x.1 x.2.
Proof.
  intros Hrect Hi Hj Hx1 Hx2.
  destruct (rectangular_row _ i Hrect Hi) as (row & Hrow & Hlen). cbn in *.
  unfold Minesweeper.board_at, Minesweeper.set_mine. cbn.
  rewrite list_lookup_alter.
  destruct (decide (Z.to_nat i = Z.to_nat x.1)) as [Hi1|Hi1].
  - rewrite Hrow. cbn. rewrite <- Hi1, Hrow.
    rewrite list_lookup_insert.
    destruct (decide (Z.to_nat j = Z.to_nat x.2 ∧ (Z.to_nat j < length row)%nat))
      as [[Hj1 _]|Hj1].
    + rewrite bool_decide_eq_true_2; [done|].
      destruct x as [x1 x2]. cbn in *. f_equal; lia.
    + rewrite bool_decide_eq_false_2; [done|].
      intros ->. cbn in *. apply Hj1. split; [done|lia].
  - rewrite bool_decide_eq_false_2; [done|].
    intros ->. cbn in *. lia.
Qed.

Lemma placed_set_mine h w found rows i j :
  placed h w found rows → 0 ≤ i < h → 0 ≤ j < w →
  placed h w ({[(i, j)]} ∪ found) (Minesweeper.set_mine rows i j).
Proof.
  intros (Hrect & Hat & Hon) Hi Hj. split; [|split].
  - destruct Hrect as [Hlen Hrows]. cbn in *. split; cbn.
    + unfold Minesweeper.set_mine. by rewrite length_alter.
    + unfold Minesweeper.set_mine. apply Forall_alter; [done|].
      intros row _ Hrow. by rewrite length_insert.
  - intros x Hx. rewrite board_at_set_mine by (done || apply Hx).
    case_bool_decide as Heq.
    + subst x. set_solver.
    + rewrite Hat by done. set_solver.
  - intros x [Hx| Hx]%elem_of_union; [|by apply Hon].
    apply elem_of_singleton in Hx. subst x. by split.
Qed.

Lemma placed_mine_set h w found rows :
  placed h w found rows → mine_set (Minesweeper.mk h w rows) = found.
Proof.
  intros (_ & Hat & Hon). apply set_eq. intros x.
  rewrite elem_of_mine_set. cbn. split.
  - intros [Hx Hb]. by apply Hat.
  - intros Hx. split; [by apply Hon|]. apply Hat; [by apply Hon|done].
Qed.

Lemma place_mines_outcome h w m draws : ∀ found rows,
  placed h w found rows →
  match Minesweeper.place_mines h w m draws found rows with
  | Minesweeper.Built g =>
      Minesweeper.height (Minesweeper.field g) = h
      ∧ Minesweeper.width (Minesweeper.field g) = w
      ∧ placed h w (Minesweeper.mines g) (Minesweeper.board (Minesweeper.field g))
      ∧ Z.of_nat (size (Minesweeper.mines g)) = m
      ∧ Minesweeper.mines_found g = ∅
      ∧ found ⊆ Minesweeper.mines g
      ∧ Minesweeper.mines g ⊆ found ∪ drawn h w draws
  | Minesweeper.ValueError => (h ≤ 0 ∨ w ≤ 0) ∧ draws ≠ []
  | Minesweeper.IndexError => False
  | Minesweeper.Running => True
  end.
Proof.
  induction draws as [|d draws IH]; intros found rows Hp; cbn [Minesweeper.place_mines].
  - case_bool_decide; [|done]. cbn. split_and!; try done. set_solver.
  - case_bool_decide.
    { cbn. split_and!; try done. set_solver. }
    destruct (bool_decide (h ≤ 0) || bool_decide (w ≤ 0)) eqn:Hdim.
    { split; [|done].
      apply orb_true_iff in Hdim
        as [?%bool_decide_eq_true|?%bool_decide_eq_true]; auto. }
    apply orb_false_iff in Hdim as [Hh%bool_decide_eq_false Hw%bool_decide_eq_false].
    assert (0 ≤ d.1 `mod` h < h) as Hi by (apply Z.mod_pos_bound; lia).
    assert (0 ≤ d.2 `mod` w < w) as Hj by (apply Z.mod_pos_bound; lia).
    rewrite (is_mine_on_board (Minesweeper.mk h w rows) (d.1 `mod` h, d.2 `mod` w));
      [|apply Hp|by split].
    cbn [fst snd].
    assert (drawn h w (d :: draws) = {[(d.1 `mod` h, d.2 `mod` w)]} ∪ drawn h w draws)
      as Hdr by (unfold drawn; cbn; done).
    destruct (Minesweeper.board_at _ _ _) eqn:Hb.
    + specialize (IH found rows Hp).
      destruct (Minesweeper.place_mines h w m draws found rows); try done.
      * destruct IH as (?&?&?&?&?&?&?). split_and!; try done. set_solver.
      * destruct IH. split; [done|done].
    + specialize (IH _ _ (placed_set_mine h w found rows _ _ Hp Hi Hj)).
      destruct (Minesweeper.place_mines h w m draws _ _); try done.
      * destruct IH as (?&?&?&?&?&?&?). split_and!; try done; set_solver.
      * destruct IH. split; [done|done].
Qed.

Lemma length_bind_const {A B} (f : A → list B) (l : list A) n :
  (∀ x, length (f x) = n) → length (l ≫= f) = (length l * n)%nat.
Proof.
  intros Hf. induction l as [|x l IH]; [done|].
  change ((x :: l) ≫= f) with (f x ++ (l ≫= f)).
  rewrite length_app, IH, Hf. cbn. lia.
Qed.

Lemma length_grid a1 b1 a2 b2 :
  length (grid a1 b1 a2 b2) = (Z.to_nat (b1 - a1) * Z.to_nat (b2 - a2))%nat.
Proof.
  unfold grid.
  rewrite (length_bind_const _ _ (Z.to_nat (b2 - a2))).
  - by rewrite length_range.
  - intros i. rewrite (length_bind_const _ _ 1%nat) by done.
    rewrite length_range. lia.
Qed.

Lemma size_on_board (h w : Z) (X : gset cell) :
  (∀ x, x ∈ X → on_board h w x) →
  Z.of_nat (size X) ≤ Z.max 0 h * Z.max 0 w.
Proof.
  intros HX.
  assert (X ⊆ list_to_set (board_cells h w)) as Hsub.
  { intros x Hx. apply elem_of_list_to_set, elem_of_board_cells. by apply HX. }
  apply subseteq_size in Hsub.
  rewrite size_list_to_set in Hsub by apply (NoDup_grid 0 h 0 w).
  change (board_cells h w) with (grid 0 h 0 w) in Hsub.
  rewrite length_grid in Hsub. nia.
Qed.

Lemma drawn_on_board h w draws x :
  0 < h → 0 < w → x ∈ drawn h w draws → on_board h w x.
Proof.
  intros Hh Hw. unfold drawn. rewrite elem_of_list_to_set, list_elem_of_fmap.
  intros (d & -> & _). split; cbn; apply Z.mod_pos_bound; lia.
Qed.

Lemma place_mines_returns h w m draws : ∀ found rows,
  placed h w found rows → 0 < h → 0 < w →
  Z.of_nat (size found) ≤ m ≤ Z.of_nat (size (found ∪ drawn h w draws)) →
  ∃ g, Minesweeper.place_mines h w m draws found rows = Minesweeper.Built g.
Proof.
  intros found rows Hp Hh Hw. revert found rows Hp.
  induction draws as [|d draws IH]; intros found rows Hp Hm;
    cbn [Minesweeper.place_mines].
  - case_bool_decide; [by eexists|].
    assert (found ∪ drawn h w [] = found) as Heq by (unfold drawn; set_solver).
    rewrite Heq in Hm. lia.
  - case_bool_decide as Hsize; [by eexists|].
    rewrite bool_decide_eq_false_2, bool_decide_eq_false_2 by lia. cbn [orb].
    assert (0 ≤ d.1 `mod` h < h) as Hi by (apply Z.mod_pos_bound; lia).
    assert (0 ≤ d.2 `mod` w < w) as Hj by (apply Z.mod_pos_bound; lia).
    rewrite (is_mine_on_board (Minesweeper.mk h w rows) (d.1 `mod` h, d.2 `mod` w));
      [|apply Hp|by split].
    cbn [fst snd].
    assert (drawn h w (d :: draws) = {[(d.1 `mod` h, d.2 `mod` w)]} ∪ drawn h w draws)
      as Hdr by (unfold drawn; cbn; done).
    destruct Hp as (Hrect & Hat & Hon).
    destruct (Minesweeper.board_at _ _ _) eqn:Hb.
    + apply IH; [done|].
      apply (Hat (_, _)) in Hb; [|by split].
      assert (found ∪ drawn h w (d :: draws) = found ∪ drawn h w draws) as Heq
        by (rewrite Hdr; set_solver).
      by rewrite <- Heq.
    + assert ((d.1 `mod` h, d.2 `mod` w) ∉ found) as Hnot.
      { intros Hin. apply (Hat (_, _)) in Hin; [|by split]. cbn in Hin. congruence. }
      apply IH; [by apply placed_set_mine|].
      rewrite (size_union {[(d.1 `mod` h, d.2 `mod` w)]} found) by set_solver.
      rewrite size_singleton.
      assert ({[(d.1 `mod` h, d.2 `mod` w)]} ∪ found ∪ drawn h w draws
              = found ∪ drawn h w (d :: draws)) as Heq
        by (rewrite Hdr; set_solver).
      rewrite Heq. lia.
Qed.

(** X1.  When [Minesweeper(height, width, mines)] returns, the object has
    the given height and width, its board is a nested list of [height]
    rows of [width] entries, [self.mines] holds exactly [mines] cells, all
    of them on the board and all of them among the cells that were drawn,
    the board is [True] exactly at the cells of [self.mines] (as [is_mine]
    reads it, and as the set of the mined cells of the board), and
    [mines_found] is empty. *)
Theorem constructor_builds_wanted_board h w m draws g :
  Minesweeper.init h w m draws = Minesweeper.Built g →
  Minesweeper.height (Minesweeper.field g) = h
  ∧ Minesweeper.width (Minesweeper.field g) = w
  ∧ rectangular (Minesweeper.field g)
  ∧ Z.of_nat (size (Minesweeper.mines g)) = m
  ∧ (∀ x, x ∈ Minesweeper.mines g → on_board h w x)
  ∧ (∀ x, on_board h w x →
          Minesweeper.is_mine (Minesweeper.field g) x
          = Some (bool_decide (x ∈ Minesweeper.mines g)))
  ∧ mine_set (Minesweeper.field g) = Minesweeper.mines g
  ∧ Minesweeper.mines g ⊆ drawn h w draws
  ∧ Minesweeper.mines_found g = ∅.
Proof.
  intros Hinit. unfold Minesweeper.init in Hinit.
  pose proof (place_mines_outcome h w m draws _ _ (placed_empty h w)) as Hout.
  rewrite Hinit in Hout.
  destruct g as [[h' w' rows] mines found]. cbn in *.
  destruct Hout as (-> & -> & Hp & Hsize & Hfound & _ & Hsub).
  split_and!; try done.
  - apply Hp.
  - apply Hp.
  - intros x Hx. rewrite is_mine_on_board; [|apply Hp|done]. f_equal.
    destruct Hp as (_ & Hat & _). specialize (Hat x Hx). cbn in Hat.
    destruct (Minesweeper.board_at _ _ _).
    + symmetry. apply bool_decide_eq_true. by apply Hat.
    + symmetry. apply bool_decide_eq_false. intros Hin. apply Hat in Hin. done.
  - by apply placed_mine_set.
  - set_solver.
Qed.

Lemma constructor_builds_wanted_board_witness :
  Minesweeper.init 2 3 2 [(4, 5); (0, 2); (3, 1)]
  = Minesweeper.Built
      (Minesweeper.Game
         (Minesweeper.mk 2 3 [[false; false; true]; [false; true; false]])
         {[ (0, 2); (1, 1) ]} ∅)
  ∧ mine_set (Minesweeper.mk 2 3 [[false; false; true]; [false; true; false]])
    = {[ (0, 2); (1, 1) ]}.
Proof.
  assert (Minesweeper.init 2 3 2 [(4, 5); (0, 2); (3, 1)]
          = Minesweeper.Built
              (Minesweeper.Game
                 (Minesweeper.mk 2 3 [[false; false; true]; [false; true; false]])
                 {[ (0, 2); (1, 1) ]} ∅)) as Hrun
    by (vm_compute; reflexivity).
  split; [exact Hrun|].
  exact (proj1 (proj2 (proj2 (proj2 (proj2 (proj2 (proj2
           (constructor_builds_wanted_board _ _ _ _ _ Hrun)))))))).
Defined.

(** X2.  The constructor returns exactly when no mine is wanted, or height
    and width are positive, [mines] is not negative and the draws of
    [random.randrange] hit at least [mines] distinct cells. *)
Theorem constructor_returns_iff h w m draws :
  (∃ g, Minesweeper.init h w m draws = Minesweeper.Built g)
  ↔ m = 0 ∨ (0 < h ∧ 0 < w ∧ 0 ≤ m ≤ Z.of_nat (size (drawn h w draws))).
Proof.
  split.
  - intros [g Hinit]. unfold Minesweeper.init in Hinit.
    pose proof (place_mines_outcome h w m draws _ _ (placed_empty h w)) as Hout.
    rewrite Hinit in Hout.
    destruct Hout as (_ & _ & (_ & _ & Hon) & Hsize & _ & _ & Hsub).
    destruct (decide (m = 0)) as [|Hm]; [by left|right].
    assert (∃ x, x ∈ Minesweeper.mines g) as [x Hx].
    { apply set_choose_L. intros Hempty. rewrite Hempty, size_empty in Hsize. lia. }
    destruct (Hon x Hx) as [Hx1 Hx2].
    split_and!; try lia.
    apply subseteq_size in Hsub.
    assert (∅ ∪ drawn h w draws = drawn h w draws) as Heq by set_solver.
    rewrite Heq in Hsub. lia.
  - intros [->|(Hh & Hw & Hm)].
    + unfold Minesweeper.init. destruct draws; cbn; by eexists.
    + apply place_mines_returns; [apply placed_empty|done..|].
      assert (∅ ∪ drawn h w draws = drawn h w draws) as Heq by set_solver.
      rewrite Heq, size_empty. lia.
Qed.

(** X3.  With positive height and width, a wanted number of mines that is
    negative or larger than [height * width] is never reached: whatever is
    drawn, and however often, the loop of the constructor is still
    running. *)
Theorem constructor_never_returns h w m draws :
  0 < h → 0 < w → m < 0 ∨ h * w < m →
  Minesweeper.init h w m draws = Minesweeper.Running.
Proof.
  intros Hh Hw Hm.
  pose proof (place_mines_outcome h w m draws _ _ (placed_empty h w)) as Hout.
  fold (Minesweeper.init h w m draws) in Hout.
  destruct (Minesweeper.init h w m draws) as [g| | |]; [|lia|done..].
  destruct Hout as (_ & _ & (_ & _ & Hon) & Hsize & _).
  pose proof (size_on_board h w _ Hon). lia.
Qed.

Lemma constructor_never_returns_witness :
  Minesweeper.init 2 2 5 [(0, 0); (0, 1); (1, 0); (1, 1); (0, 0); (7, 9)]
  = Minesweeper.Running.
Proof.
  apply (constructor_never_returns 2 2 5); lia.
Defined.

(** X4.  The constructor never reads or writes the board out of range: it
    returns, or is still drawing, or [random.randrange] raises
    [ValueError]; and the latter happens exactly when height or width is
    not positive, the wanted number of mines is not 0, and a draw is
    made. *)
Theorem constructor_outcomes h w m draws :
  ((∃ g, Minesweeper.init h w m draws = Minesweeper.Built g)
   ∨ Minesweeper.init h w m draws = Minesweeper.ValueError
   ∨ Minesweeper.init h w m draws = Minesweeper.Running)
  ∧ (Minesweeper.init h w m draws = Minesweeper.ValueError
     ↔ (h ≤ 0 ∨ w ≤ 0) ∧ m ≠ 0 ∧ draws ≠ []).
Proof.
  pose proof (place_mines_outcome h w m draws _ _ (placed_empty h w)) as Hout.
  fold (Minesweeper.init h w m draws) in Hout.
  split.
  - destruct (Minesweeper.init h w m draws) as [g| | |];
      [by left; exists g|auto|done|auto].
  - split.
    + intros Hv. rewrite Hv in Hout. destruct Hout as [Hdim Hdraws].
      split_and!; [done| |done]. intros ->.
      unfold Minesweeper.init in Hv. by destruct draws.
    + intros (Hdim & Hm & Hdraws). unfold Minesweeper.init.
      destruct draws as [|d draws]; [done|]. cbn [Minesweeper.place_mines].
      rewrite size_empty. rewrite bool_decide_eq_false_2 by (cbn; lia).
      destruct Hdim.
      * by rewrite (bool_decide_eq_true_2 (h ≤ 0)).
      * rewrite (bool_decide_eq_true_2 (w ≤ 0)) by done. by rewrite orb_true_r.
Qed.

(** X5.  A game that was just built is won ([won()] is [True]) exactly
    when it was built with no mine. *)
Theorem fresh_game_won_iff_no_mines h w m draws g :
  Minesweeper.init h w m draws = Minesweeper.Built g →
  Minesweeper.won g = true ↔ m = 0.
Proof.
  intros Hinit. unfold Minesweeper.init in Hinit.
  pose proof (place_mines_outcome h w m draws _ _ (placed_empty h w)) as Hout.
  rewrite Hinit in Hout.
  destruct Hout as (_ & _ & _ & Hsize & Hfound & _).
  unfold Minesweeper.won. rewrite bool_decide_eq_true, Hfound.
  split.
  - intros Hempty. rewrite <- Hempty, size_empty in Hsize. lia.
  - intros ->. symmetry. apply size_zero_iff. lia.
Qed.

Lemma fresh_game_won_iff_no_mines_witness :
  Minesweeper.init 2 3 0 [(4, 5)]
  = Minesweeper.Built
      (Minesweeper.Game
         (Minesweeper.mk 2 3 [[false; false; false]; [false; false; false]]) ∅ ∅)
  ∧ Minesweeper.won
      (Minesweeper.Game
         (Minesweeper.mk 2 3 [[false; false; false]; [false; false; false]]) ∅ ∅)
    = true.
Proof.
  assert (Minesweeper.init 2 3 0 [(4, 5)]
          = Minesweeper.Built
              (Minesweeper.Game
                 (Minesweeper.mk 2 3 [[false; false; false]; [false; false; false]])
                 ∅ ∅)) as Hrun
    by (vm_compute; reflexivity).
  split; [exact Hrun|].
  exact (proj2 (fresh_game_won_iff_no_mines _ _ _ _ _ Hrun) eq_refl).
Defined.

Lemma size_neighbors h w c : (size (neighbors h w c) ≤ 8)%nat.
Proof.
  assert (neighbors h w c ⊆ list_to_set (block c) ∖ {[c]}) as Hsub.
  { intros x [Hadj _]%elem_of_neighbors.
    apply elem_of_difference. split; [|destruct Hadj; set_solver].
    apply elem_of_list_to_set.
    apply (elem_of_grid (c.1 - 1) (c.1 + 2) (c.2 - 1) (c.2 + 2)).
    destruct Hadj as (_ & ? & ?). lia. }
  apply subseteq_size in Hsub.
  assert (c ∈ block c) as Hc
    by (apply (elem_of_grid (c.1 - 1) (c.1 + 2) (c.2 - 1) (c.2 + 2)); lia).
  rewrite (size_difference (list_to_set (block c)) {[c]}) in Hsub by set_solver.
  rewrite size_singleton in Hsub.
  rewrite size_list_to_set in Hsub
    by apply (NoDup_grid (c.1 - 1) (c.1 + 2) (c.2 - 1) (c.2 + 2)).
  change (block c) with (grid (c.1 - 1) (c.1 + 2) (c.2 - 1) (c.2 + 2)) in Hsub.
  rewrite length_grid in Hsub.
  replace (c.1 + 2 - (c.1 - 1)) with 3 in Hsub by lia.
  replace (c.2 + 2 - (c.2 - 1)) with 3 in Hsub by lia.
  cbn in Hsub. lia.
Qed.

(** X6.  On a board the constructor built, [nearby_mines(cell)] is the
    number of the cells of [self.mines] among the up to eight cells
    around [cell] that lie on the board, for every [cell], on the board or
    not; it lies between 0 and 8 and does not exceed the number of
    mines. *)
Theorem nearby_mines_on_built_board h w m draws g c :
  Minesweeper.init h w m draws = Minesweeper.Built g →
  Minesweeper.nearby_mines (Minesweeper.field g) c
  = Z.of_nat (size (neighbors h w c ∩ Minesweeper.mines g))
  ∧ 0 ≤ Minesweeper.nearby_mines (Minesweeper.field g) c ≤ Z.min 8 m.
Proof.
  intros Hinit. unfold Minesweeper.init in Hinit.
  pose proof (place_mines_outcome h w m draws _ _ (placed_empty h w)) as Hout.
  rewrite Hinit in Hout.
  destruct g as [[h' w' rows] mines found]. cbn in *.
  destruct Hout as (-> & -> & Hp & Hsize & _).
  rewrite nearby_mines_spec. cbn.
  rewrite (placed_mine_set _ _ _ _ Hp).
  split; [done|].
  pose proof (size_neighbors h w c).
  assert (size (neighbors h w c ∩ mines) ≤ size (neighbors h w c))%nat
    by (apply subseteq_size; set_solver).
  assert (size (neighbors h w c ∩ mines) ≤ size mines)%nat
    by (apply subseteq_size; set_solver).
  lia.
Qed.

Lemma nearby_mines_on_built_board_witness :
  Minesweeper.init 2 3 2 [(4, 5); (0, 2); (3, 1)]
  = Minesweeper.Built
      (Minesweeper.Game
         (Minesweeper.mk 2 3 [[false; false; true]; [false; true; false]])
         {[ (0, 2); (1, 1) ]} ∅)
  ∧ 0 ≤ Minesweeper.nearby_mines
          (Minesweeper.mk 2 3 [[false; false; true]; [false; true; false]]) (0, 1)
      ≤ Z.min 8 2.
Proof.
  assert (Minesweeper.init 2 3 2 [(4, 5); (0, 2); (3, 1)]
          = Minesweeper.Built
              (Minesweeper.Game
                 (Minesweeper.mk 2 3 [[false; false; true]; [false; true; false]])
                 {[ (0, 2); (1, 1) ]} ∅)) as Hrun
    by (vm_compute; reflexivity).
  split; [exact Hrun|].
  exact (proj2 (nearby_mines_on_built_board _ _ _ _ _ (0, 1) Hrun)).
Defined.

Lemma index_mod {A} (l : list A) n i :
  length l = Z.to_nat n →
  Minesweeper.index l i
  = if bool_decide (- n ≤ i < n) then l !! Z.to_nat (i `mod` n) else None.
Proof.
  intros Hlen. destruct (decide (0 ≤ i)) as [Hi|Hi].
  - rewrite index_nonneg by done. case_bool_decide as Hr.
    + by rewrite Z.mod_small by lia.
    + apply lookup_ge_None. lia.
  - rewrite index_negative by lia. case_bool_decide as Hr.
    + rewrite bool_decide_eq_true_2 by lia. do 2 f_equal.
      assert (i `mod` n = i + n) as ->; [|lia].
      symmetry. apply (Z.mod_unique_pos i n (-1)); lia.
    + case_bool_decide; [|done]. lia.
Qed.

(** X7.  [is_mine] has no bounds test and follows Python's indexing: on a
    board of [height] rows of [width] entries it raises [IndexError]
    exactly when the row index is outside [-height, height) or the column
    index outside [-width, width), and a negative index counts from the
    end, so that [is_mine((-1, -1))] is the last cell of the last row. *)
Theorem is_mine_python_indexing b i j :
  rectangular b →
  Minesweeper.is_mine b (i, j)
  = if bool_decide (- Minesweeper.height b ≤ i < Minesweeper.height b
                    ∧ - Minesweeper.width b ≤ j < Minesweeper.width b)
    then Some (Minesweeper.board_at b (i `mod` Minesweeper.height b)
                                      (j `mod` Minesweeper.width b))
    else None.
Proof.
  intros [Hlen Hrows]. unfold Minesweeper.is_mine. cbn [fst snd].
  rewrite (index_mod _ _ _ Hlen).
  destruct (decide (- Minesweeper.height b ≤ i < Minesweeper.height b)) as [Hi|Hi].
  - rewrite (bool_decide_eq_true_2 _ Hi).
    assert (0 ≤ i `mod` Minesweeper.height b < Minesweeper.height b) as Him
      by (apply Z.mod_pos_bound; lia).
    destruct (rectangular_row b _ (conj Hlen Hrows) Him) as (row & Hrow & Hrlen).
    rewrite Hrow. rewrite (index_mod _ _ _ Hrlen).
    unfold Minesweeper.board_at. rewrite Hrow.
    case_bool_decide as Hj.
    + rewrite bool_decide_eq_true_2 by done.
      assert (0 ≤ j `mod` Minesweeper.width b < Minesweeper.width b) as Hjm
        by (apply Z.mod_pos_bound; lia).
      destruct (lookup_lt_is_Some_2 row (Z.to_nat (j `mod` Minesweeper.width b)))
        as [v Hv]; [lia|].
      by rewrite Hv.
    + rewrite bool_decide_eq_false_2; [done|]. tauto.
  - rewrite (bool_decide_eq_false_2 _ Hi).
    rewrite bool_decide_eq_false_2; [done|]. tauto.
Qed.

Lemma is_mine_python_indexing_witness :
  rectangular board_one_row
  ∧ Minesweeper.is_mine board_one_row (-1, -1) = Some true
  ∧ Minesweeper.is_mine board_one_row (0, 2) = None.
Proof.
  assert (rectangular board_one_row) as Hrect.
  { split; [reflexivity|]. repeat constructor. }
  split_and!; [exact Hrect| |].
  - exact (is_mine_python_indexing board_one_row (-1) (-1) Hrect).
  - exact (is_mine_python_indexing board_one_row 0 2 Hrect).
Defined.

(** ** The text [print] writes *)

Lemma bind_snoc {A B} (f : A → list B) (l : list A) x :
  (l ++ [x]) ≫= f = (l ≫= f) ++ f x.
Proof.
  rewrite bind_app. f_equal. change ([x] ≫= f) with (f x ++ []).
  by rewrite app_nil_r.
Qed.

Lemma lookup_bind_const {A B} (f : A → list B) (l : list A) n k r x :
  (∀ y, length (f y) = n) → l !! k = Some x → (r < n)%nat →
  (l ≫= f) !! (k * n + r)%nat = f x !! r.
Proof.
  intros Hf. revert k. induction l as [|y l IH]; intros k Hk Hr; [done|].
  change ((y :: l) ≫= f) with (f y ++ (l ≫= f)).
  destruct k as [|k]; cbn in Hk.
  - injection Hk as ->. cbn. rewrite lookup_app_l; [done|]. by rewrite Hf.
  - rewrite lookup_app_r by (rewrite Hf; lia).
    rewrite Hf. rewrite <- (IH k Hk Hr). f_equal. lia.
Qed.

Lemma lookup_range a b (k : nat) :
  (k < Z.to_nat (b - a))%nat → range a b !! k = Some (a + Z.of_nat k).
Proof. intros Hk. unfold range. apply lookup_seqZ. lia. Qed.

Lemma print_row_spec b i :
  rectangular b → 0 ≤ i < Minesweeper.height b →
  Minesweeper.print_row b i = Some (row_text b i).
Proof.
  intros Hrect Hi. unfold Minesweeper.print_row, row_text.
  match goal with
  | |- match foldl ?g ?a ?l with _ => _ end = _ =>
      assert (foldl g a l
              = Some (l ≫= λ j, cell_text (Minesweeper.board_at b i j))) as ->;
        [|done]
  end.
  apply (foldl_prefix_invariant
           (λ pre acc,
              acc = Some (pre ≫= λ j, cell_text (Minesweeper.board_at b i j)))).
  { done. }
  intros pre j acc Hj%elem_of_range ->.
  rewrite (is_mine_on_board b (i, j)); [|done|split; cbn; [done|lia]].
  rewrite bind_snoc. cbn [fst snd]. by destruct (Minesweeper.board_at b i j).
Qed.

Lemma print_spec b :
  rectangular b →
  Minesweeper.print b
  = Some ((range 0 (Minesweeper.height b) ≫= λ i, [Minesweeper.rule b; row_text b i])
            ++ [Minesweeper.rule b]).
Proof.
  intros Hrect. unfold Minesweeper.print.
  match goal with
  | |- match foldl ?g ?a ?l with _ => _ end = _ =>
      assert (foldl g a l = Some (l ≫= λ i, [Minesweeper.rule b; row_text b i])) as ->;
        [|done]
  end.
  apply (foldl_prefix_invariant
           (λ pre acc, acc = Some (pre ≫= λ i, [Minesweeper.rule b; row_text b i]))).
  { done. }
  intros pre i acc Hi%elem_of_range ->.
  rewrite print_row_spec by (done || lia). by rewrite bind_snoc.
Qed.

Lemma length_rule b :
  length (Minesweeper.rule b) = (2 * Z.to_nat (Minesweeper.width b) + 1)%nat.
Proof.
  unfold Minesweeper.rule. rewrite length_app. cbn [length].
  induction (Z.to_nat (Minesweeper.width b)) as [|n IH]; [done|].
  cbn [replicate concat]. rewrite length_app. cbn [length]. lia.
Qed.

Lemma length_cell_text v : length (cell_text v) = 2%nat.
Proof. by destruct v. Qed.

Lemma length_row_text b i :
  length (row_text b i) = (2 * Z.to_nat (Minesweeper.width b) + 1)%nat.
Proof.
  unfold row_text. rewrite length_app.
  rewrite (length_bind_const _ _ 2) by (intros; apply length_cell_text).
  rewrite length_range. cbn [length]. lia.
Qed.

Lemma lookup_row_text b i j :
  0 ≤ j < Minesweeper.width b →
  row_text b i !! (2 * Z.to_nat j + 1)%nat
  = Some (if Minesweeper.board_at b i j then "X" else " ")%char.
Proof.
  intros Hj. unfold row_text.
  rewrite lookup_app_l.
  2:{ rewrite (length_bind_const _ _ 2) by (intros; apply length_cell_text).
      rewrite length_range. lia. }
  replace (2 * Z.to_nat j + 1)%nat with (Z.to_nat j * 2 + 1)%nat by lia.
  rewrite (lookup_bind_const _ _ 2 _ _ j);
    [|intros; apply length_cell_text| |lia].
  - by destruct (Minesweeper.board_at b i j).
  - rewrite lookup_range by lia. f_equal. lia.
Qed.

(** X8.  On a board of [height] rows of [width] entries, [print] writes
    [2 * height + 1] lines of [2 * width + 1] characters each: the lines
    at even positions are the rule of dashes, and the character at
    position [2 * j + 1] of the line at position [2 * i + 1] is [X] when
    the cell [(i, j)] is mined and a blank when it is not. *)
Theorem print_shows_board b :
  rectangular b →
  ∃ lines,
    Minesweeper.print b = Some lines
    ∧ length lines = (2 * Z.to_nat (Minesweeper.height b) + 1)%nat
    ∧ (∀ line, line ∈ lines →
               length line = (2 * Z.to_nat (Minesweeper.width b) + 1)%nat)
    ∧ (∀ k, (k ≤ Z.to_nat (Minesweeper.height b))%nat →
            lines !! (2 * k)%nat = Some (Minesweeper.rule b))
    ∧ ∀ i j, 0 ≤ i < Minesweeper.height b → 0 ≤ j < Minesweeper.width b →
             ∃ line, lines !! (2 * Z.to_nat i + 1)%nat = Some line
                     ∧ line !! (2 * Z.to_nat j + 1)%nat
                       = Some (if Minesweeper.board_at b i j then "X" else " ")%char.
Proof.
  intros Hrect. eexists. split; [by apply print_spec|].
  assert (length (range 0 (Minesweeper.height b)
                    ≫= λ i, [Minesweeper.rule b; row_text b i])
          = (2 * Z.to_nat (Minesweeper.height b))%nat) as Hlen.
  { rewrite (length_bind_const _ _ 2) by done. rewrite length_range. lia. }
  split_and!.
  - rewrite length_app, Hlen. cbn. lia.
  - intros line [Hin|Hin]%elem_of_app.
    + apply list_elem_of_bind in Hin as (i & Hin & _).
      apply elem_of_cons in Hin as [->|Hin]; [apply length_rule|].
      apply list_elem_of_singleton in Hin as ->. apply length_row_text.
    + apply list_elem_of_singleton in Hin as ->. apply length_rule.
  - intros k Hk.
    destruct (decide (k = Z.to_nat (Minesweeper.height b))) as [->|Hne].
    + rewrite lookup_app_r by lia. rewrite Hlen.
      by replace (2 * Z.to_nat (Minesweeper.height b)
                  - 2 * Z.to_nat (Minesweeper.height b))%nat with 0%nat by lia.
    + rewrite lookup_app_l by lia.
      replace (2 * k)%nat with (k * 2 + 0)%nat by lia.
      rewrite (lookup_bind_const _ _ 2 _ _ (0 + Z.of_nat k)); [done|done| |lia].
      apply lookup_range. lia.
  - intros i j Hi Hj. exists (row_text b i). split; [|by apply lookup_row_text].
    rewrite lookup_app_l by lia.
    replace (2 * Z.to_nat i + 1)%nat with (Z.to_nat i * 2 + 1)%nat by lia.
    rewrite (lookup_bind_const _ _ 2 _ _ i); [done|done| |lia].
    rewrite lookup_range by lia. f_equal. lia.
Qed.

Lemma print_shows_board_witness :
  rectangular board_one_row
  ∧ ∃ lines,
      Minesweeper.print board_one_row = Some lines
      ∧ length lines = (2 * Z.to_nat (Minesweeper.height board_one_row) + 1)%nat.
Proof.
  assert (rectangular board_one_row) as Hrect.
  { split; [reflexivity|]. repeat constructor. }
  split; [exact Hrect|].
  destruct (print_shows_board board_one_row Hrect) as (lines & Hprint & Hlen & _).
  exists lines. split; [exact Hprint|exact Hlen].
Defined.

(** ** Sentences and mine layouts *)

Lemma size_remove_elem (X M : gset cell) c :
  c ∈ X → c ∈ M → size (X ∩ M) = S (size ((X ∖ {[c]}) ∩ M)).
Proof.
  intros HX HM.
  assert (X ∩ M = {[c]} ∪ (X ∖ {[c]}) ∩ M) as ->.
  { apply set_eq. intros x. destruct (decide (x = c)); set_solver. }
  rewrite (size_union {[c]} ((X ∖ {[c]}) ∩ M)) by set_solver.
  by rewrite size_singleton.
Qed.

Lemma size_remove_other (X M : gset cell) c :
  c ∉ M → (X ∖ {[c]}) ∩ M = X ∩ M.
Proof. set_solver. Qed.

(** X9.  For a sentence that is true of a mine layout and a cell of the
    sentence: after [mark_mine(cell)] the sentence is true of the layout
    exactly when the cell is mined, and after [mark_safe(cell)] exactly
    when it is not. *)
Theorem sentence_marking_truth M s c :
  true_of M s → c ∈ Sentence.cells s →
  (true_of M (Sentence.mark_mine c s) ↔ c ∈ M)
  ∧ (true_of M (Sentence.mark_safe c s) ↔ c ∉ M).
Proof.
  unfold true_of, Sentence.mark_mine, Sentence.mark_safe. intros Ht Hc.
  rewrite !bool_decide_eq_true_2 by done. cbn.
  destruct (decide (c ∈ M)) as [HM|HM].
  - rewrite Ht, (size_remove_elem _ M c Hc HM). split; split; try done; lia.
  - rewrite Ht, (size_remove_other _ M c HM). split; split; try done; lia.
Qed.

Lemma sentence_marking_truth_witness :
  true_of {[ (0, 1) ]} (Sentence.mk {[ (0, 0); (0, 1) ]} 1)
  ∧ true_of {[ (0, 1) ]}
      (Sentence.mark_mine (0, 1) (Sentence.mk {[ (0, 0); (0, 1) ]} 1))
  ∧ ¬ true_of {[ (0, 1) ]}
        (Sentence.mark_safe (0, 1) (Sentence.mk {[ (0, 0); (0, 1) ]} 1)).
Proof.
  assert (true_of {[ (0, 1) ]} (Sentence.mk {[ (0, 0); (0, 1) ]} 1)) as Ht
    by (unfold true_of; vm_compute; reflexivity).
  assert ((0, 1) ∈ Sentence.cells (Sentence.mk {[ (0, 0); (0, 1) ]} 1)) as Hc
    by (cbn; set_solver).
  assert (((0, 1) : cell) ∈ ({[ (0, 1) ]} : gset cell)) as HM by set_solver.
  pose proof (sentence_marking_truth _ _ _ Ht Hc) as [Hmine Hsafe].
  split_and!; [exact Ht|by apply Hmine|].
  intros Hs. by apply Hsafe in Hs.
Defined.

Lemma subset_of_size (X : gset cell) (n : nat) :
  (n ≤ size X)%nat → ∃ Y, Y ⊆ X ∧ size Y = n.
Proof.
  intros Hn. exists (list_to_set (take n (elements X))). split.
  - intros x Hx%elem_of_list_to_set. apply elem_of_elements.
    by eapply subseteq_take.
  - rewrite size_list_to_set.
    + rewrite length_take. unfold size, set_size in Hn. cbn in *. lia.
    + pose proof (NoDup_elements X) as Hnd.
      rewrite <- (take_drop n (elements X)) in Hnd.
      by apply NoDup_app in Hnd as (? & _).
Qed.

(** X10.  For a sentence with at least one cell and
    [0 <= count <= len(cells)]: [known_mines] returns the cells exactly
    when every mine layout of which the sentence is true mines all of
    them, and [known_safes] returns the cells exactly when every such
    layout mines none of them. *)
Theorem sentence_conclusions_exact s :
  count_in_range s → Sentence.cells s ≠ ∅ →
  (Sentence.known_mines s = Some (Sentence.cells s)
   ↔ ∀ M, true_of M s → Sentence.cells s ⊆ M)
  ∧ (Sentence.known_safes s = Some (Sentence.cells s)
     ↔ ∀ M, true_of M s → Sentence.cells s ## M).
Proof.
  intros [Hlo Hhi] Hne.
  destruct (subset_of_size (Sentence.cells s) (Z.to_nat (Sentence.count s)))
    as (Y & HY & HsizeY); [lia|].
  assert (true_of Y s) as HtY.
  { unfold true_of. assert (Sentence.cells s ∩ Y = Y) as -> by set_solver. lia. }
  assert (size (Sentence.cells s) ≠ 0%nat) as Hsz by by rewrite size_zero_iff.
  split; split.
  - intros Hk M Ht. by eapply known_mines_true_of.
  - intros Hall. apply known_mines_Some. split; [done|].
    specialize (Hall Y HtY).
    assert (Y = Sentence.cells s) as HYeq by set_solver.
    rewrite HYeq in HsizeY. lia.
  - intros Hk M Ht. by eapply known_safes_true_of.
  - intros Hall. apply known_safes_Some. split; [done|]. split; [|done].
    specialize (Hall Y HtY).
    assert (Y = ∅) as HYeq by set_solver.
    rewrite HYeq, size_empty in HsizeY. lia.
Qed.

Lemma sentence_conclusions_exact_witness :
  count_in_range (Sentence.mk {[ (0, 0); (0, 1) ]} 2)
  ∧ ∀ M, true_of M (Sentence.mk {[ (0, 0); (0, 1) ]} 2) →
         ({[ (0, 0); (0, 1) ]} : gset cell) ⊆ M.
Proof.
  assert (count_in_range (Sentence.mk {[ (0, 0); (0, 1) ]} 2)) as Hr
    by (unfold count_in_range; vm_compute; split; discriminate).
  assert (Sentence.cells (Sentence.mk {[ (0, 0); (0, 1) ]} 2) ≠ ∅) as Hne
    by (cbn; set_solver).
  split; [exact Hr|].
  apply (proj1 (proj1 (sentence_conclusions_exact _ Hr Hne))).
  vm_compute. reflexivity.
Defined.

(** ** Marking on the agent *)

Lemma remove_safes_mines_comm X Y s :
  X ## Y → remove_safes X (remove_mines Y s) = remove_mines Y (remove_safes X s).
Proof.
  intros HXY. unfold remove_safes, remove_mines; cbn. f_equal; [set_solver|].
  do 3 f_equal. set_solver.
Qed.

Lemma mark_safes_mines_comm X Y ai :
  X ## Y → mark_safes X (mark_mines Y ai) = mark_mines Y (mark_safes X ai).
Proof.
  intros HXY. unfold mark_safes, mark_mines; cbn. f_equal.
  rewrite <- !list_fmap_compose. apply list_fmap_ext. intros _ s _. cbn.
  by apply remove_safes_mines_comm.
Qed.

(** X11.  After the agent's [mark_safe(c)] or [mark_mine(c)] no sentence
    of the knowledge base mentions [c]; marking a cell twice is marking it
    once; two cells can be marked safe, or marked as mines, in either
    order; and marking one cell safe and a different cell as a mine gives
    the same state in either order. *)
Theorem agent_marking_effects c c' ai :
  (∀ s, s ∈ MinesweeperAI.knowledge (MinesweeperAI.mark_safe c ai) →
        c ∉ Sentence.cells s)
  ∧ (∀ s, s ∈ MinesweeperAI.knowledge (MinesweeperAI.mark_mine c ai) →
          c ∉ Sentence.cells s)
  ∧ MinesweeperAI.mark_safe c (MinesweeperAI.mark_safe c ai)
    = MinesweeperAI.mark_safe c ai
  ∧ MinesweeperAI.mark_mine c (MinesweeperAI.mark_mine c ai)
    = MinesweeperAI.mark_mine c ai
  ∧ MinesweeperAI.mark_safe c (MinesweeperAI.mark_safe c' ai)
    = MinesweeperAI.mark_safe c' (MinesweeperAI.mark_safe c ai)
  ∧ MinesweeperAI.mark_mine c (MinesweeperAI.mark_mine c' ai)
    = MinesweeperAI.mark_mine c' (MinesweeperAI.mark_mine c ai)
  ∧ (c ≠ c' →
     MinesweeperAI.mark_safe c (MinesweeperAI.mark_mine c' ai)
     = MinesweeperAI.mark_mine c' (MinesweeperAI.mark_safe c ai)).
Proof.
  rewrite !mark_safe_mark_safes, !mark_mine_mark_mines.
  rewrite ?mark_safe_mark_safes, ?mark_mine_mark_mines.
  rewrite !mark_safes_twice, !mark_mines_twice.
  split_and!.
  - intros s. cbn. rewrite list_elem_of_fmap. intros (s0 & -> & _). cbn. set_solver.
  - intros s. cbn. rewrite list_elem_of_fmap. intros (s0 & -> & _). cbn. set_solver.
  - f_equal. set_solver.
  - f_equal. set_solver.
  - f_equal. set_solver.
  - f_equal. set_solver.
  - intros Hne. apply mark_safes_mines_comm. set_solver.
Qed.

(** X12.  The loops of [update_knowledge] over the copied set of known
    safes or known mines give the same state for every order in which
    Python may enumerate the set: two enumerations with the same elements
    (repeated or not) end in the same agent state. *)
Theorem marking_order_irrelevant i (l l' : list cell) ai :
  (∀ x, x ∈ l ↔ x ∈ l') →
  foldl (λ ai c, MinesweeperAI.sentence_mark_safe i c (MinesweeperAI.mark_safe c ai))
        ai l
  = foldl (λ ai c, MinesweeperAI.sentence_mark_safe i c (MinesweeperAI.mark_safe c ai))
          ai l'
  ∧ foldl (λ ai c, MinesweeperAI.sentence_mark_mine i c (MinesweeperAI.mark_mine c ai))
          ai l
    = foldl (λ ai c, MinesweeperAI.sentence_mark_mine i c (MinesweeperAI.mark_mine c ai))
            ai l'.
Proof.
  intros Hl. rewrite !mark_safe_loop, !mark_mine_loop.
  assert (list_to_set l = (list_to_set l' : gset cell)) as ->; [|done].
  apply set_eq. intros x. rewrite !elem_of_list_to_set. apply Hl.
Qed.

Lemma marking_order_irrelevant_witness :
  foldl (λ ai c, MinesweeperAI.sentence_mark_mine 0 c (MinesweeperAI.mark_mine c ai))
        (MinesweeperAI.mk 2 2 ∅ ∅ ∅ [Sentence.mk {[ (0, 0); (0, 1) ]} 2])
        [(0, 0); (0, 1)]
  = foldl (λ ai c, MinesweeperAI.sentence_mark_mine 0 c (MinesweeperAI.mark_mine c ai))
          (MinesweeperAI.mk 2 2 ∅ ∅ ∅ [Sentence.mk {[ (0, 0); (0, 1) ]} 2])
          [(0, 1); (0, 0); (0, 1)].
Proof.
  apply (marking_order_irrelevant 0 [(0, 0); (0, 1)] [(0, 1); (0, 0); (0, 1)]).
  intros x. rewrite !elem_of_cons, !elem_of_nil. tauto.
Defined.

(** ** [add_knowledge] *)

(** X13.  Steps 1 to 3 of [add_knowledge(cell, count)] on any board: the
    cell is added to [moves_made] and to [safes] and removed from every
    sentence; the appended sentence holds the cells [(i, j)] around
    [cell] with [0 <= i < width] and [0 <= j < height] that are neither
    known mines nor known safes, and its count is [count] less the number
    of known mines around [cell] within the same bounds. *)
Theorem add_knowledge_new_sentence c n ai :
  ∃ cells,
    MinesweeperAI.add_sentence c n ai
    = MinesweeperAI.mk
        (MinesweeperAI.height ai) (MinesweeperAI.width ai)
        ({[c]} ∪ MinesweeperAI.moves_made ai)
        (MinesweeperAI.mines ai)
        ({[c]} ∪ MinesweeperAI.safes ai)
        ((Sentence.mark_safe c <$> MinesweeperAI.knowledge ai)
           ++ [Sentence.mk cells
                 (n - Z.of_nat (size (neighbors (MinesweeperAI.width ai)
                                        (MinesweeperAI.height ai) c
                                      ∩ MinesweeperAI.mines ai)))])
    ∧ ∀ x, x ∈ cells ↔
           adjacent c x
           ∧ 0 ≤ x.1 < MinesweeperAI.width ai
           ∧ 0 ≤ x.2 < MinesweeperAI.height ai
           ∧ (x ∉ MinesweeperAI.mines ai) ∧ x ∉ MinesweeperAI.safes ai.
Proof.
  eexists. split; [apply add_sentence_spec|].
  intros x. rewrite !elem_of_difference, elem_of_neighbors.
  unfold on_board, adjacent. set_solver.
Qed.

(** ** What [add_knowledge] touches *)

Lemma all_cells_app k1 k2 : all_cells (k1 ++ k2) = all_cells k1 ∪ all_cells k2.
Proof.
  apply set_eq. intros x. rewrite elem_of_union, !elem_of_all_cells.
  setoid_rewrite elem_of_app. naive_solver.
Qed.

Lemma all_cells_subseteq k k' :
  (∀ s, s ∈ k' → s ∈ k) → all_cells k' ⊆ all_cells k.
Proof. intros Hk x. rewrite !elem_of_all_cells. naive_solver. Qed.

Lemma pass_confined (mm U : gset cell) ai :
  MinesweeperAI.moves_made ai = mm
  ∧ MinesweeperAI.safes ai ∪ MinesweeperAI.mines ai
      ∪ all_cells (MinesweeperAI.knowledge ai) ⊆ U →
  MinesweeperAI.moves_made (MinesweeperAI.pass ai).1 = mm
  ∧ MinesweeperAI.safes (MinesweeperAI.pass ai).1
      ∪ MinesweeperAI.mines (MinesweeperAI.pass ai).1
      ∪ all_cells (MinesweeperAI.knowledge (MinesweeperAI.pass ai).1) ⊆ U.
Proof.
  revert ai.
  apply (pass_preserves (λ ai,
    MinesweeperAI.moves_made ai = mm
    ∧ MinesweeperAI.safes ai ∪ MinesweeperAI.mines ai
        ∪ all_cells (MinesweeperAI.knowledge ai) ⊆ U)).
  - intros ai ai' Hstep [Hmm HU].
    pose proof (resolve_step_all_cells _ _ Hstep) as [Hsub _].
    destruct Hstep as [ai s X Hs HX|ai s X Hs HX]; simpl_agent.
    + apply known_safes_Some in HX as (-> & _).
      assert (Sentence.cells s ⊆ all_cells (MinesweeperAI.knowledge ai))
        by (intros x Hx; apply elem_of_all_cells; eauto).
      split; [done|]. set_solver.
    + apply known_mines_Some in HX as (-> & _).
      assert (Sentence.cells s ⊆ all_cells (MinesweeperAI.knowledge ai))
        by (intros x Hx; apply elem_of_all_cells; eauto).
      split; [done|]. set_solver.
  - intros ai k' Hk' [Hmm HU]. simpl_agent. split; [done|].
    pose proof (all_cells_subseteq _ _ Hk'). set_solver.
  - intros ai s1 s2 Hs1 Hs2 Hsub [Hmm HU]. simpl_agent. split; [done|].
    rewrite all_cells_app.
    assert (all_cells [derived s1 s2] ⊆ all_cells (MinesweeperAI.knowledge ai)).
    { intros x (s & Hs & Hx)%elem_of_all_cells.
      apply list_elem_of_singleton in Hs. subst s. cbn in Hx.
      apply elem_of_all_cells. exists s2. set_solver. }
    set_solver.
Qed.

(** X14.  When [add_knowledge(cell, count)] returns, height and width are
    unchanged, [moves_made] has gained [cell] and nothing else, [cell] is
    in [safes], and every cell that is in [safes], in [mines] or in a
    sentence was so before, or is [cell], or is one of the cells around
    [cell] within the bounds of the loops. *)
Theorem add_knowledge_frame depth c n ai ai' :
  MinesweeperAI.add_knowledge depth c n ai = Some ai' →
  MinesweeperAI.height ai' = MinesweeperAI.height ai
  ∧ MinesweeperAI.width ai' = MinesweeperAI.width ai
  ∧ MinesweeperAI.moves_made ai' = {[c]} ∪ MinesweeperAI.moves_made ai
  ∧ c ∈ MinesweeperAI.safes ai'
  ∧ MinesweeperAI.safes ai' ∪ MinesweeperAI.mines ai'
      ∪ all_cells (MinesweeperAI.knowledge ai')
    ⊆ {[c]} ∪ MinesweeperAI.safes ai ∪ MinesweeperAI.mines ai
        ∪ all_cells (MinesweeperAI.knowledge ai)
        ∪ neighbors (MinesweeperAI.width ai) (MinesweeperAI.height ai) c.
Proof.
  unfold MinesweeperAI.add_knowledge. intros Hup.
  pose proof (update_knowledge_grows _ _ _ Hup) as (Hh & Hw & _ & Hsafes & _).
  pose proof (update_knowledge_preserves _
                (pass_confined ({[c]} ∪ MinesweeperAI.moves_made ai)
                   ({[c]} ∪ MinesweeperAI.safes ai ∪ MinesweeperAI.mines ai
                      ∪ all_cells (MinesweeperAI.knowledge ai)
                      ∪ neighbors (MinesweeperAI.width ai)
                          (MinesweeperAI.height ai) c))
                _ _ _ Hup) as Hconf.
  rewrite add_sentence_spec in Hh, Hw, Hsafes, Hconf. simpl_agent.
  destruct Hconf as [Hmm HU].
  - split; [done|]. rewrite all_cells_app.
    assert (all_cells (Sentence.mark_safe c <$> MinesweeperAI.knowledge ai)
            ⊆ all_cells (MinesweeperAI.knowledge ai)) as H1.
    { intros x (s & Hs & Hx)%elem_of_all_cells.
      apply list_elem_of_fmap in Hs as (s0 & -> & Hs0).
      rewrite sentence_mark_safe_remove in Hx. cbn in Hx.
      apply elem_of_all_cells. exists s0. set_solver. }
    assert (∀ X n', all_cells [Sentence.mk X n'] = X) as H2.
    { intros X n'. apply set_eq. intros x. rewrite elem_of_all_cells.
      setoid_rewrite list_elem_of_singleton. split; [by intros (s & -> & ?)|].
      intros Hx. by eexists (Sentence.mk X n'). }
    rewrite H2. set_solver.
  - split_and!; [done|done|done|set_solver|done].
Qed.

Lemma add_knowledge_frame_witness :
  MinesweeperAI.add_knowledge 2 (1, 1) 0 (MinesweeperAI.init 3 3)
  = Some (MinesweeperAI.mk 3 3 {[ (1, 1) ]} ∅ (list_to_set (board_cells 3 3)) [])
  ∧ MinesweeperAI.moves_made
      (MinesweeperAI.mk 3 3 {[ (1, 1) ]} ∅ (list_to_set (board_cells 3 3)) [])
    = {[ (1, 1) ]} ∪ MinesweeperAI.moves_made (MinesweeperAI.init 3 3).
Proof.
  assert (MinesweeperAI.add_knowledge 2 (1, 1) 0 (MinesweeperAI.init 3 3)
          = Some (MinesweeperAI.mk 3 3 {[ (1, 1) ]} ∅
                    (list_to_set (board_cells 3 3)) [])) as Hrun
    by (vm_compute; reflexivity).
  split; [exact Hrun|].
  exact (proj1 (proj2 (proj2 (add_knowledge_frame _ _ _ _ _ Hrun)))).
Defined.

(** ** The knowledge base [update_knowledge] returns *)

Lemma resolve_flags_false ai i s :
  MinesweeperAI.knowledge ai !! i = Some s →
  (MinesweeperAI.resolve_safes i ai).2 = false →
  (MinesweeperAI.resolve_mines i ai).2 = false →
  Sentence.known_safes s = None ∧ Sentence.known_mines s = None.
Proof.
  unfold MinesweeperAI.resolve_safes, MinesweeperAI.resolve_mines.
  intros ->. destruct (Sentence.known_safes s), (Sentence.known_mines s); by cbn.
Qed.

Lemma mark_known_false ai ai1 :
  MinesweeperAI.mark_known ai = (ai1, false) →
  ai1 = ai
  ∧ ∀ s, s ∈ MinesweeperAI.knowledge ai →
         Sentence.known_safes s = None ∧ Sentence.known_mines s = None.
Proof.
  unfold MinesweeperAI.mark_known. intros Hmk.
  pose proof (foldl_prefix_invariant
    (λ pre (acc : MinesweeperAI.t * bool),
       acc.2 = false →
       acc.1 = ai
       ∧ ∀ i s, i ∈ pre → MinesweeperAI.knowledge ai !! i = Some s →
                Sentence.known_safes s = None ∧ Sentence.known_mines s = None)
    MinesweeperAI.visit (seq 0 (length (MinesweeperAI.knowledge ai))) (ai, false))
    as Hinv.
  rewrite Hmk in Hinv. cbn in Hinv.
  destruct Hinv as [-> Hall]; [| |done|].
  - intros _. split; [done|]. intros i s Hi. by apply elem_of_nil in Hi.
  - intros pre i [acc ch] Hi IH. unfold MinesweeperAI.visit. cbn.
    intros Hfalse.
    apply orb_false_iff in Hfalse as [Hfalse Hm].
    apply orb_false_iff in Hfalse as [-> Hs].
    destruct (IH eq_refl) as [Hacc IHall]. cbn in Hacc. subst acc.
    assert (MinesweeperAI.resolve_safes i ai = (ai, false)) as Hrs.
    { destruct (resolve_safes_cases i ai) as [H|(s & X & _ & _ & H)]; [done|].
      rewrite H in Hs. done. }
    rewrite Hrs in Hm |- *. cbn in Hm |- *.
    assert (MinesweeperAI.resolve_mines i ai = (ai, false)) as Hrm.
    { destruct (resolve_mines_cases i ai) as [H|(s & X & _ & _ & H)]; [done|].
      rewrite H in Hm. done. }
    rewrite Hrm. cbn. split; [done|].
    intros j s [Hj|Hj]%elem_of_app Hlook; [by eapply IHall|].
    apply list_elem_of_singleton in Hj. subst j.
    apply (resolve_flags_false ai i s Hlook); [by rewrite Hrs|by rewrite Hrm].
  - split; [done|]. intros s Hs.
    apply list_elem_of_lookup in Hs as [i Hi].
    apply (Hall i s); [|done].
    apply elem_of_seq. split; [lia|]. cbn. by eapply lookup_lt_Some.
Qed.

Lemma update_knowledge_last depth ai ai' :
  MinesweeperAI.update_knowledge depth ai = Some ai' →
  ∃ ai0, ai' = (MinesweeperAI.pass ai0).1 ∧ (MinesweeperAI.pass ai0).2 = false.
Proof.
  revert ai. induction depth as [|d IH]; intros ai; [done|].
  rewrite update_knowledge_S.
  destruct (MinesweeperAI.pass ai).2 eqn:Hflag; [by apply IH|].
  intros [= <-]. by exists ai.
Qed.

Lemma derived_nonempty s1 s2 :
  Sentence.cells s1 ⊂ Sentence.cells s2 → Sentence.cells (derived s1 s2) ≠ ∅.
Proof.
  intros [Hsub Hnot] Hempty. cbn in Hempty. apply Hnot.
  intros x Hx. destruct (decide (x ∈ Sentence.cells s1)); [done|]. set_solver.
Qed.

Lemma infer_subsets_saturated k ch :
  (∀ s1 s2, s1 ∈ k → s2 ∈ k →
     Sentence.cells s1 ⊂ Sentence.cells s2 → derived s1 s2 ∈ k) →
  MinesweeperAI.infer_subsets k ch = (k, ch).
Proof.
  intros Hclosed.
  destruct (infer_subsets_exact k ch) as (added & -> & _ & Hadded).
  destruct added as [|x added]; [by rewrite app_nil_r|].
  destruct (proj1 (Hadded x)) as (Hx & s1 & s2 & Hs1 & Hs2 & _ & Hsub & ->);
    [left|].
  destruct Hx. by apply Hclosed.
Qed.

Lemma update_knowledge_saturated depth ai ai' :
  MinesweeperAI.update_knowledge depth ai = Some ai' →
  saturated (MinesweeperAI.knowledge ai').
Proof.
  intros (ai0 & -> & Hflag)%update_knowledge_last.
  destruct (pass_spec ai0) as (ai1 & ch1 & k2 & added & Hmk & _ & Hclean & _
                                & Hclosed & Hpass).
  rewrite Hpass in Hflag |- *. cbn [fst snd] in Hflag |- *.
  destruct added as [|? ?]; [|done]. subst ch1.
  apply mark_known_false in Hmk as [-> Hnone].
  rewrite app_nil_r in Hclosed |- *. simpl_agent.
  split; [|done]. intros s Hs. apply Hnone. by eapply cleaned_elem_of.
Qed.

(** X15.  The knowledge base [update_knowledge] returns is saturated: no
    sentence has a conclusion left ([known_safes] and [known_mines] are
    [None] for each), and every sentence that subset resolution derives
    from two of its sentences is in it.  Calling [update_knowledge] again
    returns after one pass, which at most removes one sentence without
    cells. *)
Theorem update_knowledge_saturates depth ai ai' :
  MinesweeperAI.update_knowledge depth ai = Some ai' →
  saturated (MinesweeperAI.knowledge ai')
  ∧ MinesweeperAI.update_knowledge 1 ai' = Some (MinesweeperAI.remove_empty ai').
Proof.
  intros Hsat%update_knowledge_saturated. split; [done|].
  rewrite update_knowledge_S. unfold MinesweeperAI.pass.
  rewrite mark_known_nothing by apply Hsat. cbn [fst snd].
  rewrite infer_subsets_saturated; [by destruct (MinesweeperAI.remove_empty _)|].
  intros s1 s2 Hs1 Hs2 Hsub.
  destruct (remove_empty_spec ai')
    as [[_ Heq]|(k1 & s & k3 & Hk & Hs & _ & Heq)];
    rewrite Heq in Hs1, Hs2 |- *; simpl_agent.
  { by apply Hsat. }
  assert (derived s1 s2 ∈ MinesweeperAI.knowledge ai') as Hd.
  { apply Hsat; [| |done]; rewrite Hk; set_solver. }
  rewrite Hk in Hd. apply elem_of_app in Hd as [Hd|Hd]; [set_solver|].
  apply elem_of_cons in Hd as [Hd|Hd]; [|set_solver].
  rewrite <- Hd in Hs. by apply derived_nonempty in Hs.
Qed.

Lemma update_knowledge_saturates_witness :
  MinesweeperAI.update_knowledge 3
    (MinesweeperAI.mk 3 3 ∅ ∅ ∅
       [Sentence.mk {[ (0, 0); (0, 1) ]} 1;
        Sentence.mk {[ (0, 0); (0, 1); (0, 2) ]} 2])
  = Some (MinesweeperAI.mk 3 3 ∅ {[ (0, 2) ]} ∅
            [Sentence.mk {[ (0, 0); (0, 1) ]} 1;
             Sentence.mk {[ (0, 0); (0, 1) ]} 1])
  ∧ saturated [Sentence.mk {[ (0, 0); (0, 1) ]} 1;
               Sentence.mk {[ (0, 0); (0, 1) ]} 1].
Proof.
  assert (MinesweeperAI.update_knowledge 3
            (MinesweeperAI.mk 3 3 ∅ ∅ ∅
               [Sentence.mk {[ (0, 0); (0, 1) ]} 1;
                Sentence.mk {[ (0, 0); (0, 1); (0, 2) ]} 2])
          = Some (MinesweeperAI.mk 3 3 ∅ {[ (0, 2) ]} ∅
                    [Sentence.mk {[ (0, 0); (0, 1) ]} 1;
                     Sentence.mk {[ (0, 0); (0, 1) ]} 1])) as Hrun
    by (vm_compute; reflexivity).
  split; [exact Hrun|].
  exact (proj1 (update_knowledge_saturates _ _ _ Hrun)).
Defined.

(** ** Truth of what the agent records *)

(** X16.  If everything the agent records is true of a mine layout (the
    sentences are true, no cell of [safes] is mined, every cell of
    [mines] is), this is still so when [update_knowledge] returns, and
    when [add_knowledge(cell, count)] returns for an unmined [cell] whose
    [count] is the number of mined cells around it within the bounds of
    the loops; on boards of any height and width. *)
Theorem add_knowledge_sound M ai :
  sound M ai →
  (∀ depth ai', MinesweeperAI.update_knowledge depth ai = Some ai' → sound M ai')
  ∧ (∀ depth c n ai',
       c ∉ M →
       n = Z.of_nat (size (neighbors (MinesweeperAI.width ai)
                             (MinesweeperAI.height ai) c ∩ M)) →
       MinesweeperAI.add_knowledge depth c n ai = Some ai' → sound M ai').
Proof.
  intros Hsound. split.
  - intros depth ai' Hup.
    by eapply (update_knowledge_preserves (sound M) (pass_sound M)).
  - intros depth c n ai' Hc Hn Hup. unfold MinesweeperAI.add_knowledge in Hup.
    eapply (update_knowledge_preserves (sound M) (pass_sound M)); [done|].
    by apply add_sentence_sound.
Qed.

Lemma add_knowledge_sound_witness :
  sound {[ (0, 2) ]}
    (MinesweeperAI.mk 3 3 ∅ ∅ ∅
       [Sentence.mk {[ (0, 0); (0, 1) ]} 0;
        Sentence.mk {[ (0, 0); (0, 1); (0, 2) ]} 1])
  ∧ sound {[ (0, 2) ]}
      (MinesweeperAI.mk 3 3 ∅ {[ (0, 2) ]} {[ (0, 0); (0, 1) ]} []).
Proof.
  assert (sound {[ (0, 2) ]}
            (MinesweeperAI.mk 3 3 ∅ ∅ ∅
               [Sentence.mk {[ (0, 0); (0, 1) ]} 0;
                Sentence.mk {[ (0, 0); (0, 1); (0, 2) ]} 1])) as Hs.
  { split_and!; [|set_solver..]. intros s Hs. simpl_agent.
    apply elem_of_cons in Hs as [->|Hs]; [by vm_compute|].
    apply list_elem_of_singleton in Hs as ->. by vm_compute. }
  split; [exact Hs|].
  apply (proj1 (add_knowledge_sound _ _ Hs) 3%nat).
  vm_compute. reflexivity.
Defined.

(** X17.  On a square board, after any operations that agree with the
    board: every cell the agent holds in [mines] is mined;
    [make_safe_move] only returns cells of the board that are not mined
    and were not played; and when [make_random_move] returns [None] every
    unmined cell of the board has been played. *)
Theorem safe_moves_avoid_mines b ai :
  Minesweeper.height b = Minesweeper.width b →
  reachable (agrees b) (Minesweeper.height b) (Minesweeper.width b) ai →
  MinesweeperAI.mines ai ⊆ mine_set b
  ∧ (∀ x, MinesweeperAI.make_safe_move ai = Some x →
          (x ∉ mine_set b)
          ∧ on_board (Minesweeper.height b) (Minesweeper.width b) x
          ∧ x ∉ MinesweeperAI.moves_made ai)
  ∧ (∀ rnd, MinesweeperAI.make_random_move rnd ai = None →
            ∀ x, on_board (Minesweeper.height b) (Minesweeper.width b) x →
                 x ∉ mine_set b → x ∈ MinesweeperAI.moves_made ai).
Proof.
  intros Hsq Hreach.
  destruct (reachable_sound b ai Hsq Hreach) as (_ & Hsafes & Hmines).
  apply reachable_size in Hreach as [Hh Hw].
  split_and!; [done| |].
  - intros x Hx. pose proof (make_safe_move_spec ai) as Hspec.
    rewrite Hx in Hspec. destruct Hspec as (pre & post & Hscan & Hs & Hm & _).
    split_and!; [set_solver| |done].
    assert (x ∈ board_cells (MinesweeperAI.width ai) (MinesweeperAI.height ai))
      as Hin by (rewrite Hscan; set_solver).
    apply elem_of_board_cells in Hin. rewrite Hh, Hw in Hin.
    destruct Hin. split; lia.
  - intros rnd Hnone x Hx Hnot.
    apply (proj1 (proj2 (make_random_move_spec ai))) in Hnone.
    destruct (decide (x ∈ MinesweeperAI.moves_made ai)) as [|Hmm]; [done|].
    assert (x ∈ MinesweeperAI.unknown_cells ai) as Hin.
    { apply elem_of_unknown_cells. rewrite Hh, Hw. destruct Hx.
      split_and!; [split; lia|done|set_solver]. }
    rewrite Hnone in Hin. by apply elem_of_nil in Hin.
Qed.

Lemma safe_moves_avoid_mines_witness :
  reachable (agrees board_two_mines) 3 3
    (MinesweeperAI.mk 3 3 {[ (0, 0) ]} ∅ {[ (0, 0) ]}
       [Sentence.mk {[ (0, 1); (1, 0); (1, 1) ]} 1])
  ∧ MinesweeperAI.make_safe_move
      (MinesweeperAI.mk 3 3 {[ (0, 0) ]} ∅ {[ (0, 0) ]}
         [Sentence.mk {[ (0, 1); (1, 0); (1, 1) ]} 1]) = None
  ∧ (∅ : gset cell) ⊆ mine_set board_two_mines.
Proof.
  assert (reachable (agrees board_two_mines) 3 3
            (MinesweeperAI.mk 3 3 {[ (0, 0) ]} ∅ {[ (0, 0) ]}
               [Sentence.mk {[ (0, 1); (1, 0); (1, 1) ]} 1])) as Hreach.
  { apply (reachable_step _ 3 3 (MinesweeperAI.init 3 3) 2
             (reveal board_two_mines (0, 0)) _ None).
    - apply reachable_init.
    - split; [by_computation|reflexivity].
    - vm_compute. reflexivity. }
  split_and!; [exact Hreach|vm_compute; reflexivity|].
  exact (proj1 (safe_moves_avoid_mines board_two_mines _ eq_refl Hreach)).
Defined.

(** ** Every honest game goes on *)

Lemma update_knowledge_mono d d' ai ai' :
  MinesweeperAI.update_knowledge d ai = Some ai' → (d ≤ d')%nat →
  MinesweeperAI.update_knowledge d' ai = Some ai'.
Proof.
  revert d' ai. induction d as [|d IH]; intros d' ai; [done|].
  intros Hup Hle. destruct d' as [|d']; [lia|].
  rewrite update_knowledge_S in Hup |- *.
  destruct (MinesweeperAI.pass ai).2; [|done].
  apply IH; [done|lia].
Qed.

Lemma run_op_mono d d' o ai r :
  run_op d o ai = Some r → (d ≤ d')%nat → run_op d' o ai = Some r.
Proof.
  destruct o as [c|c|c n| |rnd]; cbn; try done.
  unfold MinesweeperAI.add_knowledge.
  destruct (MinesweeperAI.update_knowledge d _) as [ai'|] eqn:Hup; [|done].
  intros <- Hle. by rewrite (update_knowledge_mono _ _ _ _ Hup Hle).
Qed.

Lemma run_ops_mono d d' ops : ∀ ai ai',
  run_ops d ops ai = Some ai' → (d ≤ d')%nat → run_ops d' ops ai = Some ai'.
Proof.
  induction ops as [|o ops IH]; intros ai ai'; cbn; [done|].
  destruct (run_op d o ai) as [r|] eqn:Hop; [|done].
  intros Hrun Hle. rewrite (run_op_mono _ _ _ _ _ Hop Hle). by eapply IH.
Qed.

Lemma agreeing_ops_return b ops : ∀ ai,
  Minesweeper.height b = Minesweeper.width b →
  reachable (agrees b) (Minesweeper.height b) (Minesweeper.width b) ai →
  Forall (agrees b) ops →
  ∃ depth ai', run_ops depth ops ai = Some ai'.
Proof.
  induction ops as [|o ops IH]; intros ai Hsq Hreach Hops.
  - by exists 0%nat, ai.
  - apply Forall_cons in Hops as [Ho Hops].
    destruct (agreeing_op_returns b ai o Hsq Hreach Ho) as (d1 & ai1 & r & Hop).
    destruct (IH ai1 Hsq) as (d2 & ai2 & Hrun); [|done|].
    { by eapply reachable_step. }
    exists (d1 `max` d2)%nat, ai2. cbn.
    rewrite (run_op_mono _ _ _ _ _ Hop) by lia. cbn.
    apply (run_ops_mono _ _ _ _ _ Hrun). lia.
Qed.

(** X18.  On a square board every sequence of operations that agree with
    the board runs to its end: from some recursion depth on, every bound
    on the depth of [update_knowledge] lets all calls return, with the
    same final state. *)
Theorem honest_game_returns b ops :
  Minesweeper.height b = Minesweeper.width b →
  Forall (agrees b) ops →
  ∃ depth ai',
    ∀ d, (depth ≤ d)%nat →
         run_ops d ops (MinesweeperAI.init (Minesweeper.height b)
                                          (Minesweeper.width b)) = Some ai'.
Proof.
  intros Hsq Hops.
  destruct (agreeing_ops_return b ops _ Hsq (reachable_init _ _ _) Hops)
    as (depth & ai' & Hrun).
  exists depth, ai'. intros d Hd. by eapply run_ops_mono.
Qed.

Lemma honest_game_returns_witness :
  Forall (agrees board_two_mines)
    [reveal board_two_mines (0, 0); MakeSafeMove; reveal board_two_mines (1, 1)]
  ∧ ∃ depth ai',
      ∀ d, (depth ≤ d)%nat →
           run_ops d [reveal board_two_mines (0, 0); MakeSafeMove;
                      reveal board_two_mines (1, 1)]
             (MinesweeperAI.init 3 3) = Some ai'.
Proof.
  assert (Forall (agrees board_two_mines)
            [reveal board_two_mines (0, 0); MakeSafeMove;
             reveal board_two_mines (1, 1)]) as Hops.
  { repeat apply Forall_cons_2; try apply Forall_nil_2; try exact I;
      (split; [by_computation|reflexivity]). }
  split; [exact Hops|].
  exact (honest_game_returns board_two_mines _ eq_refl Hops).
Defined.

(** ** The order of the scan *)

Lemma StronglySorted_seq a n : StronglySorted lt (seq a n).
Proof.
  revert a. induction n as [|n IH]; intros a; cbn; constructor; [apply IH|].
  apply Forall_forall. intros x Hx%elem_of_seq. lia.
Qed.

Lemma StronglySorted_range a b : StronglySorted Z.lt (range a b).
Proof.
  unfold range, seqZ. apply (StronglySorted_fmap _ lt); [|apply StronglySorted_seq].
  intros x y Hxy. lia.
Qed.

Lemma StronglySorted_bind {A B} (R1 : relation A) (R2 : relation B)
    (f : A → list B) (l : list A) :
  (∀ x, StronglySorted R2 (f x)) →
  (∀ x y u v, R1 x y → u ∈ f x → v ∈ f y → R2 u v) →
  StronglySorted R1 l → StronglySorted R2 (l ≫= f).
Proof.
  intros Hf HR. induction 1 as [|x l Hl IH Hx]; [constructor|].
  change ((x :: l) ≫= f) with (f x ++ (l ≫= f)).
  apply StronglySorted_app_2; [|done..].
  intros u v Hu (y & Hv & Hy)%list_elem_of_bind.
  rewrite Forall_forall in Hx. eapply HR; [|done..]. by apply Hx.
Qed.

Lemma StronglySorted_grid a1 b1 a2 b2 :
  StronglySorted scanned_before (grid a1 b1 a2 b2).
Proof.
  unfold grid. apply (StronglySorted_bind Z.lt); [| |apply StronglySorted_range].
  - intros i. apply (StronglySorted_bind Z.lt); [| |apply StronglySorted_range].
    + intros j. repeat constructor.
    + intros j j' u v Hj Hu%list_elem_of_singleton Hv%list_elem_of_singleton.
      subst. right. cbn. lia.
  - intros i i' u v Hi (j & Hu%list_elem_of_singleton & _)%list_elem_of_bind
                       (j' & Hv%list_elem_of_singleton & _)%list_elem_of_bind.
    subst. left. cbn. lia.
Qed.

(** X19.  [make_safe_move] returns the first cell, rows first and then
    columns, among the cells [(i, j)] with [0 <= i < width] and
    [0 <= j < height] that are in [safes] and not in [moves_made]; it
    returns [None] exactly when there is no such cell. *)
Theorem make_safe_move_first ai :
  match MinesweeperAI.make_safe_move ai with
  | Some x =>
      (0 ≤ x.1 < MinesweeperAI.width ai ∧ 0 ≤ x.2 < MinesweeperAI.height ai
       ∧ x ∈ MinesweeperAI.safes ai ∧ x ∉ MinesweeperAI.moves_made ai)
      ∧ ∀ y, 0 ≤ y.1 < MinesweeperAI.width ai →
             0 ≤ y.2 < MinesweeperAI.height ai →
             y ∈ MinesweeperAI.safes ai → y ∉ MinesweeperAI.moves_made ai →
             scanned_before x y
  | None =>
      ∀ y, 0 ≤ y.1 < MinesweeperAI.width ai →
           0 ≤ y.2 < MinesweeperAI.height ai →
           y ∈ MinesweeperAI.safes ai → y ∈ MinesweeperAI.moves_made ai
  end.
Proof.
  pose proof (make_safe_move_spec ai) as Hspec.
  destruct (MinesweeperAI.make_safe_move ai) as [x|].
  - destruct Hspec as (pre & post & Hscan & Hs & Hm & Hpre).
    assert (x ∈ board_cells (MinesweeperAI.width ai) (MinesweeperAI.height ai))
      as [Hx1 Hx2]%elem_of_board_cells by (rewrite Hscan; set_solver).
    split; [done|]. intros y Hy1 Hy2 Hys Hym.
    assert (y ∈ board_cells (MinesweeperAI.width ai) (MinesweeperAI.height ai))
      as Hy by by apply elem_of_board_cells.
    pose proof (StronglySorted_grid 0 (MinesweeperAI.width ai)
                  0 (MinesweeperAI.height ai)) as Hsorted.
    change (grid 0 (MinesweeperAI.width ai) 0 (MinesweeperAI.height ai))
      with (board_cells (MinesweeperAI.width ai) (MinesweeperAI.height ai))
      in Hsorted.
    rewrite Hscan in Hy, Hsorted.
    apply elem_of_app in Hy as [Hy|Hy]; [by destruct (Hpre y Hy)|].
    apply elem_of_cons in Hy as [->|Hy]; [right; lia|].
    apply StronglySorted_app_1_r, StronglySorted_inv in Hsorted as [_ Hall].
    rewrite Forall_forall in Hall. by apply Hall.
  - intros y Hy1 Hy2 Hys.
    destruct (decide (y ∈ MinesweeperAI.moves_made ai)) as [|Hym]; [done|].
    destruct (Hspec y); by split.
Qed.

(** X20.  [make_random_move] only returns cells [(i, j)] with
    [0 <= i < width] and [0 <= j < height] that are neither in
    [moves_made] nor in [mines]; each such cell is returned for some
    outcome of [random.choice]; [None] is returned exactly when there is
    no such cell; and when [safes] and [mines] are disjoint, the cell
    [make_safe_move] returns is one [make_random_move] can return. *)
Theorem make_random_move_pool ai :
  (∀ rnd x, MinesweeperAI.make_random_move rnd ai = Some x →
            0 ≤ x.1 < MinesweeperAI.width ai ∧ 0 ≤ x.2 < MinesweeperAI.height ai
            ∧ (x ∉ MinesweeperAI.moves_made ai) ∧ x ∉ MinesweeperAI.mines ai)
  ∧ (∀ x, 0 ≤ x.1 < MinesweeperAI.width ai → 0 ≤ x.2 < MinesweeperAI.height ai →
          x ∉ MinesweeperAI.moves_made ai → x ∉ MinesweeperAI.mines ai →
          ∃ rnd, MinesweeperAI.make_random_move rnd ai = Some x)
  ∧ (∀ rnd, MinesweeperAI.make_random_move rnd ai = None ↔
            ∀ x, 0 ≤ x.1 < MinesweeperAI.width ai →
                 0 ≤ x.2 < MinesweeperAI.height ai →
                 x ∈ MinesweeperAI.moves_made ai ∨ x ∈ MinesweeperAI.mines ai)
  ∧ (MinesweeperAI.safes ai ## MinesweeperAI.mines ai →
     ∀ x, MinesweeperAI.make_safe_move ai = Some x →
          ∃ rnd, MinesweeperAI.make_random_move rnd ai = Some x).
Proof.
  destruct (make_random_move_spec ai) as (Hsome & Hnone & Hany).
  assert (∀ x, 0 ≤ x.1 < MinesweeperAI.width ai → 0 ≤ x.2 < MinesweeperAI.height ai →
               x ∉ MinesweeperAI.moves_made ai → x ∉ MinesweeperAI.mines ai →
               ∃ rnd, MinesweeperAI.make_random_move rnd ai = Some x) as Hpool.
  { intros x Hx1 Hx2 Hm Hmine. apply Hany, elem_of_unknown_cells.
    split_and!; [by split|done..]. }
  split_and!; [|done| |].
  - intros rnd x Hx%Hsome%elem_of_unknown_cells.
    destruct Hx as ([? ?] & ? & ?). done.
  - intros rnd. rewrite Hnone. split.
    + intros Hnil x Hx1 Hx2.
      destruct (decide (x ∈ MinesweeperAI.moves_made ai)) as [|Hm]; [by left|].
      destruct (decide (x ∈ MinesweeperAI.mines ai)) as [|Hmine]; [by right|].
      assert (x ∈ MinesweeperAI.unknown_cells ai) as Hin
        by (apply elem_of_unknown_cells; split_and!; [by split|done..]).
      rewrite Hnil in Hin. by apply elem_of_nil in Hin.
    + intros Hall. destruct (MinesweeperAI.unknown_cells ai) as [|x l] eqn:Hl; [done|].
      assert (x ∈ MinesweeperAI.unknown_cells ai) as Hin by (rewrite Hl; left).
      apply elem_of_unknown_cells in Hin as ([Hx1 Hx2] & Hm & Hmine).
      destruct (Hall x Hx1 Hx2); done.
  - intros Hdisj x Hx. pose proof (make_safe_move_spec ai) as Hspec.
    rewrite Hx in Hspec. destruct Hspec as (pre & post & Hscan & Hs & Hm & _).
    assert (x ∈ board_cells (MinesweeperAI.width ai) (MinesweeperAI.height ai))
      as [Hx1 Hx2]%elem_of_board_cells by (rewrite Hscan; set_solver).
    apply Hpool; [done..|set_solver].
Qed.

(** ** The clean-up loop removes at most one sentence *)

Lemma resolve_step_length ai ai' :
  resolve_step ai ai' →
  length (MinesweeperAI.knowledge ai') = length (MinesweeperAI.knowledge ai).
Proof. destruct 1; simpl_agent; by rewrite length_fmap. Qed.

Lemma resolved_length ai r :
  resolved ai r →
  length (MinesweeperAI.knowledge r.1) = length (MinesweeperAI.knowledge ai).
Proof.
  intros (Hrtc & _). induction Hrtc as [|ai ai1 ai2 Hstep _ IH]; [done|].
  rewrite IH. by apply resolve_step_length.
Qed.

(** X21.  One pass of [update_knowledge] shortens the knowledge base by at
    most one sentence; a sentence that has cells after the first loop is
    never removed; and when every sentence has cells after the first
    loop, the knowledge base does not get shorter. *)
Theorem pass_removes_at_most_one ai :
  (length (MinesweeperAI.knowledge ai)
   ≤ S (length (MinesweeperAI.knowledge (MinesweeperAI.pass ai).1)))%nat
  ∧ (∀ s, s ∈ MinesweeperAI.knowledge (MinesweeperAI.mark_known ai).1 →
          Sentence.cells s ≠ ∅ →
          s ∈ MinesweeperAI.knowledge (MinesweeperAI.pass ai).1)
  ∧ ((∀ s, s ∈ MinesweeperAI.knowledge (MinesweeperAI.mark_known ai).1 →
           Sentence.cells s ≠ ∅) →
     (length (MinesweeperAI.knowledge ai)
      ≤ length (MinesweeperAI.knowledge (MinesweeperAI.pass ai).1))%nat).
Proof.
  destruct (pass_spec ai) as (ai1 & ch1 & k2 & added & Hmk & Hres & Hclean & _
                               & _ & Hpass).
  rewrite Hpass, Hmk. simpl_agent.
  apply resolved_length in Hres. simpl_agent.
  rewrite <- Hres, length_app.
  split_and!.
  - destruct Hclean as [[_ ->]|(k1 & s & k3 & -> & _ & _ & ->)]; [lia|].
    rewrite !length_app. cbn. lia.
  - intros s Hs Hne. apply elem_of_app. left.
    by eapply cleaned_elem_of_inv.
  - intros Hall.
    destruct Hclean as [[_ ->]|(k1 & s & k3 & Hk & Hs & _ & _)]; [lia|].
    destruct (Hall s); [|done]. rewrite Hk. set_solver.
Qed.

(** ** Conclusions are drawn *)

Lemma true_of_no_mine M s :
  true_of M s → Sentence.count s = 0 → Sentence.cells s ## M.
Proof.
  unfold true_of. intros Ht H0. rewrite H0 in Ht.
  assert (size (Sentence.cells s ∩ M) = 0%nat) as Hsz%size_zero_iff by lia.
  set_solver.
Qed.

Lemma true_of_all_mines M s :
  true_of M s → Sentence.count s = Z.of_nat (size (Sentence.cells s)) →
  Sentence.cells s ⊆ M.
Proof.
  unfold true_of. intros Ht Hn.
  assert (Sentence.cells s ∩ M = Sentence.cells s) as Heq; [|set_solver].
  apply set_subseteq_size_eq; [set_solver|lia].
Qed.

Lemma resolve_step_pending_safe M x ai ai' :
  resolve_step ai ai' → sound M ai → pending_safe x ai → pending_safe x ai'.
Proof.
  intros Hstep (Htrue & _ & _) [Hx|(s & Hs & Hx & H0)].
  { left. destruct Hstep; simpl_agent; set_solver. }
  destruct Hstep as [ai s0 Y Hs0 HY|ai s0 Y Hs0 HY]; unfold pending_safe; simpl_agent.
  - destruct (decide (x ∈ Y)) as [HxY|HxY]; [left; set_solver|right].
    exists (remove_safes Y s). split_and!; [|cbn; set_solver|done].
    apply list_elem_of_fmap. by exists s.
  - right. exists (remove_mines Y s).
    pose proof (known_mines_true_of M s0 Y (Htrue s0 Hs0) HY) as HYM.
    pose proof (true_of_no_mine M s (Htrue s Hs) H0) as HsM.
    split_and!.
    + apply list_elem_of_fmap. by exists s.
    + cbn. set_solver.
    + cbn. assert (Sentence.cells s ∩ Y = ∅) as -> by set_solver.
      rewrite size_empty. lia.
Qed.

Lemma resolve_step_pending_mine M x ai ai' :
  resolve_step ai ai' → sound M ai → pending_mine x ai → pending_mine x ai'.
Proof.
  intros Hstep (Htrue & _ & _) [Hx|(s & Hs & Hx & Hn)].
  { left. destruct Hstep; simpl_agent; set_solver. }
  destruct Hstep as [ai s0 Y Hs0 HY|ai s0 Y Hs0 HY]; unfold pending_mine; simpl_agent.
  - right. exists (remove_safes Y s).
    pose proof (known_safes_true_of M s0 Y (Htrue s0 Hs0) HY) as HYM.
    pose proof (true_of_all_mines M s (Htrue s Hs) Hn) as HsM.
    assert (Sentence.cells s ∖ Y = Sentence.cells s) as Heq by set_solver.
    split_and!.
    + apply list_elem_of_fmap. by exists s.
    + cbn. set_solver.
    + cbn. by rewrite Heq.
  - destruct (decide (x ∈ Y)) as [HxY|HxY]; [left; set_solver|right].
    exists (remove_mines Y s). split_and!.
    + apply list_elem_of_fmap. by exists s.
    + cbn. set_solver.
    + cbn. rewrite Hn.
      assert (Sentence.cells s
              = (Sentence.cells s ∖ Y) ∪ (Sentence.cells s ∩ Y)) as Hsplit.
      { apply set_eq. intros y. destruct (decide (y ∈ Y)); set_solver. }
      rewrite Hsplit at 1.
      rewrite (size_union (Sentence.cells s ∖ Y) (Sentence.cells s ∩ Y))
        by set_solver.
      lia.
Qed.

Lemma pass_pending M (Q : cell → MinesweeperAI.t → Prop) x ai :
  (∀ ai ai', resolve_step ai ai' → sound M ai → Q x ai → Q x ai') →
  (∀ ai k', (∀ s, s ∈ MinesweeperAI.knowledge ai → x ∈ Sentence.cells s → s ∈ k') →
            Q x ai → Q x (MinesweeperAI.set_knowledge k' ai)) →
  sound M ai → Q x ai → Q x (MinesweeperAI.pass ai).1.
Proof.
  intros Hstep Hk Hsound HQ.
  destruct (pass_spec ai) as (ai1 & ch1 & k2 & added & _ & (Hrtc & _) & Hclean & _
                               & _ & ->).
  cbn [fst snd] in *.
  assert (sound M ai1 ∧ Q x ai1) as [_ HQ1].
  { clear Hclean. induction Hrtc as [|ai ai1 ai2 Hs _ IH]; [done|].
    apply IH; [by eapply resolve_step_sound|by eapply Hstep]. }
  apply Hk; [|done].
  intros s Hs Hx. apply elem_of_app. left.
  eapply cleaned_elem_of_inv; [done..|set_solver].
Qed.

Lemma set_knowledge_pending_safe x ai k' :
  (∀ s, s ∈ MinesweeperAI.knowledge ai → x ∈ Sentence.cells s → s ∈ k') →
  pending_safe x ai → pending_safe x (MinesweeperAI.set_knowledge k' ai).
Proof.
  intros Hk [Hx|(s & Hs & Hx & H0)]; [by left|right].
  exists s. simpl_agent. split_and!; [by apply Hk|done..].
Qed.

Lemma set_knowledge_pending_mine x ai k' :
  (∀ s, s ∈ MinesweeperAI.knowledge ai → x ∈ Sentence.cells s → s ∈ k') →
  pending_mine x ai → pending_mine x (MinesweeperAI.set_knowledge k' ai).
Proof.
  intros Hk [Hx|(s & Hs & Hx & H0)]; [by left|right].
  exists s. simpl_agent. split_and!; [by apply Hk|done..].
Qed.

Lemma update_knowledge_pending M x depth ai ai' :
  sound M ai → MinesweeperAI.update_knowledge depth ai = Some ai' →
  (pending_safe x ai → pending_safe x ai')
  ∧ (pending_mine x ai → pending_mine x ai').
Proof.
  intros Hsound Hup. split; intros HQ.
  - apply (update_knowledge_preserves (λ ai, sound M ai ∧ pending_safe x ai))
      with (depth := depth) (ai := ai); [|done|done].
    intros ai0 [Hs0 HQ0]. split; [by apply pass_sound|].
    apply (pass_pending M pending_safe); [|apply set_knowledge_pending_safe|done..].
    apply resolve_step_pending_safe.
  - apply (update_knowledge_preserves (λ ai, sound M ai ∧ pending_mine x ai))
      with (depth := depth) (ai := ai); [|done|done].
    intros ai0 [Hs0 HQ0]. split; [by apply pass_sound|].
    apply (pass_pending M pending_mine); [|apply set_knowledge_pending_mine|done..].
    apply resolve_step_pending_mine.
Qed.

Lemma update_knowledge_concludes M depth ai ai' s :
  sound M ai → MinesweeperAI.update_knowledge depth ai = Some ai' →
  s ∈ MinesweeperAI.knowledge ai →
  (Sentence.count s = 0 → Sentence.cells s ⊆ MinesweeperAI.safes ai')
  ∧ (Sentence.count s = Z.of_nat (size (Sentence.cells s)) →
     Sentence.cells s ⊆ MinesweeperAI.mines ai').
Proof.
  intros Hsound Hup Hs.
  destruct (update_knowledge_saturated _ _ _ Hup) as [Hnone _].
  split; intros Hcount x Hx.
  - destruct (proj1 (update_knowledge_pending M x _ _ _ Hsound Hup))
      as [Hsafe|(s' & Hs' & Hx' & H0)]; [right; by exists s|done|].
    destruct (Hnone s' Hs') as [Hks _].
    assert (Sentence.known_safes s' = Some (Sentence.cells s')) as Hsome
      by (apply known_safes_Some; split_and!; [done..|set_solver]).
    congruence.
  - destruct (proj2 (update_knowledge_pending M x _ _ _ Hsound Hup))
      as [Hmine|(s' & Hs' & Hx' & Hn)]; [right; by exists s|done|].
    destruct (Hnone s' Hs') as [_ Hkm].
    assert (Sentence.known_mines s' = Some (Sentence.cells s')) as Hsome.
    { apply known_mines_Some. split_and!; [done..|].
      assert (size (Sentence.cells s') ≠ 0%nat)
        by (rewrite size_zero_iff; set_solver).
      lia. }
    congruence.
Qed.

(** X22.  When everything the agent records is true of a mine layout and
    [update_knowledge] returns, the obvious conclusions have been drawn:
    all cells of a sentence that had count 0 are in [safes], and all cells
    of a sentence whose count was the number of its cells are in
    [mines]. *)
Theorem update_knowledge_draws_conclusions M depth ai ai' s :
  sound M ai → MinesweeperAI.update_knowledge depth ai = Some ai' →
  s ∈ MinesweeperAI.knowledge ai →
  (Sentence.count s = 0 → Sentence.cells s ⊆ MinesweeperAI.safes ai')
  ∧ (Sentence.count s = Z.of_nat (size (Sentence.cells s)) →
     Sentence.cells s ⊆ MinesweeperAI.mines ai').
Proof.
  intros Hsound Hup Hs.
  exact (update_knowledge_concludes M depth ai ai' s Hsound Hup Hs).
Qed.

Lemma update_knowledge_draws_conclusions_witness :
  sound {[ (0, 2) ]}
    (MinesweeperAI.mk 3 3 ∅ ∅ ∅
       [Sentence.mk {[ (0, 0); (0, 1) ]} 0;
        Sentence.mk {[ (0, 0); (0, 1); (0, 2) ]} 1])
  ∧ ({[ (0, 0); (0, 1) ]} : gset cell)
    ⊆ MinesweeperAI.safes
        (MinesweeperAI.mk 3 3 ∅ {[ (0, 2) ]} {[ (0, 0); (0, 1) ]} []).
Proof.
  assert (sound {[ (0, 2) ]}
            (MinesweeperAI.mk 3 3 ∅ ∅ ∅
               [Sentence.mk {[ (0, 0); (0, 1) ]} 0;
                Sentence.mk {[ (0, 0); (0, 1); (0, 2) ]} 1])) as Hs.
  { split_and!; [|set_solver..]. intros s Hs. simpl_agent.
    apply elem_of_cons in Hs as [->|Hs]; [by vm_compute|].
    apply list_elem_of_singleton in Hs as ->. by vm_compute. }
  split; [exact Hs|].
  apply (proj1 (update_knowledge_draws_conclusions _ 3 _ _
                  (Sentence.mk {[ (0, 0); (0, 1) ]} 0) Hs
                  ltac:(vm_compute; reflexivity) ltac:(left))).
  reflexivity.
Defined.

(** X23.  On a square board, after operations that agree with the board:
    when [add_knowledge] returns for an unmined cell whose count, as the
    board reports it, is 0, all cells of the board around it are in
    [safes]; and when the count is the number of cells of the board
    around it, all of them are in [mines]. *)
Theorem reveal_resolves_obvious_neighbours b ai depth c ai' :
  Minesweeper.height b = Minesweeper.width b →
  reachable (agrees b) (Minesweeper.height b) (Minesweeper.width b) ai →
  c ∉ mine_set b →
  MinesweeperAI.add_knowledge depth c (Minesweeper.nearby_mines b c) ai = Some ai' →
  (Minesweeper.nearby_mines b c = 0 →
   neighbors (Minesweeper.height b) (Minesweeper.width b) c
     ⊆ MinesweeperAI.safes ai')
  ∧ (Minesweeper.nearby_mines b c
     = Z.of_nat (size (neighbors (Minesweeper.height b) (Minesweeper.width b) c)) →
     neighbors (Minesweeper.height b) (Minesweeper.width b) c
       ⊆ MinesweeperAI.mines ai').
Proof.
  intros Hsq Hreach Hc Hup. unfold MinesweeperAI.add_knowledge in Hup.
  pose proof (reachable_sound b ai Hsq Hreach) as Hsound.
  apply reachable_size in Hreach as [Hh Hw].
  pose proof (nearby_mines_spec b c) as Hn.
  set (nb := neighbors (Minesweeper.height b) (Minesweeper.width b) c) in *.
  assert (neighbors (MinesweeperAI.width ai) (MinesweeperAI.height ai) c = nb)
    as Hnb by (rewrite Hh, Hw; unfold nb; by rewrite Hsq).
  assert (c ∉ nb) as Hcnb.
  { unfold nb. rewrite elem_of_neighbors. by intros [[? _] _]. }
  clearbody nb.
  assert (sound (mine_set b)
            (MinesweeperAI.add_sentence c (Minesweeper.nearby_mines b c) ai))
    as Hsound1.
  { apply add_sentence_sound; [done| |done]. by rewrite Hnb. }
  pose proof (update_knowledge_grows _ _ _ Hup) as (_ & _ & _ & Hsafes & Hmines).
  rewrite add_sentence_spec, Hnb in Hsound1, Hup, Hsafes, Hmines.
  simpl_agent.
  destruct Hsound as (_ & Hsafe0 & Hmine0).
  match type of Hup with
  | MinesweeperAI.update_knowledge _
      (MinesweeperAI.mk _ _ _ _ _ (_ ++ [?s])) = _ =>
      pose proof (update_knowledge_concludes _ _ _ _ s Hsound1 Hup) as Hconc
  end.
  destruct Hconc as [Hzero Hall]; [simpl_agent; set_solver|].
  cbn [Sentence.cells Sentence.count] in Hzero, Hall.
  split; intros Hcount.
  - assert (nb ∩ mine_set b = ∅) as Hnone
      by (apply size_zero_iff; lia).
    assert (nb ∩ MinesweeperAI.mines ai = ∅) as Hk by set_solver.
    rewrite Hk, size_empty in Hzero.
    intros x Hx.
    destruct (decide (x ∈ MinesweeperAI.safes ai)) as [|Hxs]; [by apply Hsafes, elem_of_union_r|].
    apply Hzero; [lia|].
    assert (x ∉ MinesweeperAI.mines ai) as Hxm
      by (intros Hxm; apply (not_elem_of_empty (C:=gset cell) x);
          rewrite <- Hk; by apply elem_of_intersection).
    assert (x ≠ c) as Hxc by (by intros ->).
    clear -Hx Hxs Hxm Hxc. set_solver.
  - assert (nb ∩ mine_set b = nb) as Hfull
      by (apply set_subseteq_size_eq; [set_solver|lia]).
    assert (nb ## MinesweeperAI.safes ai) as Hdisj by set_solver.
    assert (nb ∖ MinesweeperAI.mines ai ∖ ({[c]} ∪ MinesweeperAI.safes ai)
            = nb ∖ MinesweeperAI.mines ai) as Hcells by set_solver.
    rewrite Hcells in Hall.
    intros x Hx.
    destruct (decide (x ∈ MinesweeperAI.mines ai)) as [Hxm|Hxm];
      [by apply Hmines|].
    apply Hall; [|by apply elem_of_difference].
    assert (nb = (nb ∖ MinesweeperAI.mines ai) ∪ (nb ∩ MinesweeperAI.mines ai))
      as Hsplit.
    { apply set_eq. intros y.
      destruct (decide (y ∈ MinesweeperAI.mines ai)); set_solver. }
    rewrite Hcount. rewrite Hsplit at 1.
    rewrite (size_union (nb ∖ MinesweeperAI.mines ai) (nb ∩ MinesweeperAI.mines ai))
      by set_solver.
    lia.
Qed.

Lemma reveal_resolves_obvious_neighbours_witness :
  MinesweeperAI.add_knowledge 2 (0, 0)
    (Minesweeper.nearby_mines
       (Minesweeper.mk 2 2 [[false; false]; [false; false]]) (0, 0))
    (MinesweeperAI.init 2 2)
  = Some (MinesweeperAI.mk 2 2 {[ (0, 0) ]} ∅ (list_to_set (board_cells 2 2)) [])
  ∧ neighbors 2 2 (0, 0)
    ⊆ MinesweeperAI.safes
        (MinesweeperAI.mk 2 2 {[ (0, 0) ]} ∅ (list_to_set (board_cells 2 2)) []).
Proof.
  assert (MinesweeperAI.add_knowledge 2 (0, 0)
            (Minesweeper.nearby_mines
               (Minesweeper.mk 2 2 [[false; false]; [false; false]]) (0, 0))
            (MinesweeperAI.init 2 2)
          = Some (MinesweeperAI.mk 2 2 {[ (0, 0) ]} ∅
                    (list_to_set (board_cells 2 2)) [])) as Hrun
    by (vm_compute; reflexivity).
  split; [exact Hrun|].
  apply (proj1 (reveal_resolves_obvious_neighbours
                  (Minesweeper.mk 2 2 [[false; false]; [false; false]])
                  (MinesweeperAI.init 2 2) 2 (0, 0) _ eq_refl
                  (reachable_init _ _ _) ltac:(by_computation) Hrun)).
  vm_compute. reflexivity.
Defined.

(** ** No move is proposed twice *)

Lemma run_ops_grows depth ops : ∀ ai ai',
  run_ops depth ops ai = Some ai' → grows ai ai'.
Proof.
  induction ops as [|o ops IH]; intros ai ai'; cbn.
  - intros [= <-]. apply grows_refl.
  - destruct (run_op depth o ai) as [[ai1 r]|] eqn:Hop; [|done].
    intros Hrun. eapply grows_trans; [by eapply run_op_grows|by apply IH].
Qed.

(** X24.  A cell of [moves_made] is never proposed again: after any
    further operations, neither [make_safe_move] nor [make_random_move]
    returns it. *)
Theorem played_cells_never_proposed depth ops ai ai' c :
  c ∈ MinesweeperAI.moves_made ai →
  run_ops depth ops ai = Some ai' →
  MinesweeperAI.make_safe_move ai' ≠ Some c
  ∧ ∀ rnd, MinesweeperAI.make_random_move rnd ai' ≠ Some c.
Proof.
  intros Hc Hrun.
  apply run_ops_grows in Hrun as (_ & _ & Hmoves & _).
  split.
  - intros Hsafe. pose proof (make_safe_move_spec ai') as Hspec.
    rewrite Hsafe in Hspec. destruct Hspec as (_ & _ & _ & _ & Hnot & _).
    set_solver.
  - intros rnd Hrnd.
    apply (proj1 (make_random_move_spec ai')) in Hrnd.
    apply elem_of_unknown_cells in Hrnd as (_ & Hnot & _). set_solver.
Qed.

Lemma played_cells_never_proposed_witness :
  (0, 0) ∈ MinesweeperAI.moves_made
             (MinesweeperAI.mk 2 2 {[ (0, 0) ]} ∅ {[ (0, 0) ]}
                [Sentence.mk {[ (0, 1); (1, 0); (1, 1) ]} 1])
  ∧ MinesweeperAI.make_safe_move
      (MinesweeperAI.mark_safe (0, 1)
         (MinesweeperAI.mk 2 2 {[ (0, 0) ]} ∅ {[ (0, 0) ]}
            [Sentence.mk {[ (0, 1); (1, 0); (1, 1) ]} 1]))
    ≠ Some (0, 0).
Proof.
  assert ((0, 0) ∈ MinesweeperAI.moves_made
                     (MinesweeperAI.mk 2 2 {[ (0, 0) ]} ∅ {[ (0, 0) ]}
                        [Sentence.mk {[ (0, 1); (1, 0); (1, 1) ]} 1])) as Hc
    by (cbn; set_solver).
  split; [exact Hc|].
  exact (proj1 (played_cells_never_proposed 0 [MarkSafe (0, 1)] _ _ _ Hc eq_refl)).
Defined.
